(** * Pivot-SPDZ decision-tree client: a shallow embedding

    The development follows [ExternalIO/spdz-decision-tree-app.cpp]:
    the connection to the engines ([setup_sockets]), the secret-sharing
    client ([send_public_parameters],
    [send_private_inputs], [send_private_batch_shares], [receive_index],
    [receive_result]), the reader of the data file
    ([read_training_data]) and the training split of [main], the
    quantile split engine ([sort_indexes], [compute_distinct_values],
    [compute_splits]) and the indicator-vector encoder
    ([compute_feature_split_ivs], [compute_label_class_ivs]).
    The client routines come twice: for one connection per engine, and
    in [Wire] with the vector [sockets] that the source indexes.  The
    split engine is stated for any [std::sort]; [GnuSort] is the
    [std::sort] of the GNU C++ library.

    Field elements ([gfp]) are integers modulo the prime [p] read from
    the parameter file; [float] is IEEE-754 binary32 and [double] is
    binary64, both carried by [spec_float] with the operations of the
    standard library's [SpecFloat]. *)

From Stdlib Require Import String Ascii.
From Stdlib Require Import ZArith QArith Qabs Qpower List Bool Lia Permutation Sorted.
From Stdlib Require Import SpecFloat.
Import ListNotations.

Local Open Scope Z_scope.

(** ** Part I. Definitions *)

(** *** The prime field [gfp] *)

(** A field element, kept as an integer. *)
Abbreviation gfp := Z.

Module Gfp.
Section Field.

(** The modulus handed to [gfp::init_field]. *)
Variable p : Z.


(** Modelled from the spec: [Math/gfp.h] is not part of the source
  file; a FieldElement is an element of the prime field with add,
  multiply, equality and conversion to and from a signed integer.
  Elements are kept as their representative in [0, p). *)
Definition zero : gfp := 0.

(** Modelled from the spec: field addition ([operator+], [operator+=]). *)
Definition add (x y : gfp) : gfp := (x + y) mod p.

(** Modelled from the spec: field subtraction, used by a decoder. *)
Definition sub (x y : gfp) : gfp := (x - y) mod p.

(** Modelled from the spec: field multiplication ([operator*]). *)
Definition mul (x y : gfp) : gfp := (x * y) mod p.

(** Modelled from the spec: equality of field elements. *)
Definition eqb (x y : gfp) : bool := Z.eqb x y.

(** Modelled from the spec: [gfp::assign(long)], the lift of a signed
  machine integer into the field. *)
Definition assign (n : Z) : gfp := n mod p.

(** Modelled from the spec: [to_signed_bigint], the conversion to the
  signed representative: residues above [(p - 1) / 2] stand for
  negative numbers. *)
Definition to_signed_bigint (x : gfp) : Z :=
if (p - 1) / 2 <? x then x - p else x.

(** Representatives the field library produces. *)
Definition canonical (x : gfp) : Prop := 0 <= x < p.

End Field.
End Gfp.

(** *** Streams and channels *)

(** An [octetStream] holds the field elements still to be read; [pack]
    appends at the write head and [unpack] consumes at the read head. *)
Definition octetStream := list gfp.

(** Modelled from the spec: [gfp::unpack]; reading past the bytes the
    buffer holds is a fatal error of the wire codec. *)
Definition unpack (os : octetStream) : option (gfp * octetStream) :=
  match os with
  | [] => None
  | x :: rest => Some (x, rest)
  end.

Definition pack (x : gfp) (os : octetStream) : octetStream := os ++ [x].

(** What one call observes of the network: [incoming] gives, per socket
    index, the buffer that [os.Receive(sockets[j])] delivers; every
    [os.Send(sockets[j])] is logged as [(j, buffer)], oldest first. *)
Definition incoming := list octetStream.
Definition send_log := list (nat * octetStream).

(** How a routine ends: it returns, the process exits with a status, a
    library call fails (no buffer to receive, a read past the end of the
    buffer, an allocation of a negative size), or it runs into behaviour
    the language leaves undefined (a vector read out of range, a
    floating-point value converted to an integer type that cannot hold
    it). *)
Inductive ending (A : Type) : Type :=
| Returned (a : A)
| Exited (status : Z)
| Failed
| Undefined.
Arguments Returned {A} a.
Arguments Exited {A} status.
Arguments Failed {A}.
Arguments Undefined {A}.

(** *** send_private_inputs *)

(** The routine as [main] calls it: [sockets] is the vector that
    [setup_sockets] returned for the same [n_parties], so that
    [sockets[j]] is there for every [j] below [n_parties].  The routine
    on an arbitrary vector is [Wire.send_private_inputs] below. *)
Section Client.

Variable p : Z.

(** A row [triples[i]] of the [num_inputs x 3] table. *)
Record triple : Type := Triple { tr_a : gfp; tr_b : gfp; tr_c : gfp }.

Definition triple_zero : triple := Triple Gfp.zero Gfp.zero Gfp.zero.

(** The loop over [k < 3]: unpack three shares and add them into one row. *)
Definition unpack_triple_into (t : triple) (os : octetStream)
  : option (triple * octetStream) :=
  match unpack os with
  | None => None
  | Some (s0, os0) =>
    match unpack os0 with
    | None => None
    | Some (s1, os1) =>
      match unpack os1 with
      | None => None
      | Some (s2, os2) =>
        Some (Triple (Gfp.add p (tr_a t) s0)
                     (Gfp.add p (tr_b t) s1)
                     (Gfp.add p (tr_c t) s2), os2)
      end
    end
  end.

(** The loop over the [num_inputs] rows for one engine's buffer. *)
Fixpoint accumulate_shares (triples : list triple) (os : octetStream)
  : option (list triple) :=
  match triples with
  | [] => Some []
  | t :: ts =>
    match unpack_triple_into t os with
    | None => None
    | Some (t', os') =>
      match accumulate_shares ts os' with
      | None => None
      | Some ts' => Some (t' :: ts')
      end
    end
  end.

(** The loop over the engines [j = first, first + 1, ...]. *)
Fixpoint receive_triples (inc : incoming) (first : nat) (count : nat)
         (triples : list triple) : option (list triple) :=
  match count with
  | O => Some triples
  | S count' =>
    match nth_error inc first with
    | None => None
    | Some os =>
      match accumulate_shares triples os with
      | None => None
      | Some triples' => receive_triples inc (S first) count' triples'
      end
    end
  end.

(** [triples[i][0] * triples[i][1] != triples[i][2]] *)
Definition triple_bad (t : triple) : bool :=
  negb (Gfp.eqb (Gfp.mul p (tr_a t) (tr_b t)) (tr_c t)).

(** The checking loop: the first bad row ends the process. *)
Fixpoint check_triples (triples : list triple) : bool :=
  match triples with
  | [] => true
  | t :: ts => if triple_bad t then false else check_triples ts
  end.

(** The masking loop: [y = values[i] + triples[i][0]], packed in order. *)
Fixpoint mask_inputs (values : list gfp) (triples : list triple)
         (os : octetStream) : octetStream :=
  match values, triples with
  | v :: vs, t :: ts => mask_inputs vs ts (pack (Gfp.add p v (tr_a t)) os)
  | _, _ => os
  end.

(** The final loop: the same buffer goes to sockets [0 .. n_parties - 1]. *)
Fixpoint send_all (os : octetStream) (first : nat) (count : nat)
         (log : send_log) : send_log :=
  match count with
  | O => log
  | S count' => send_all os (S first) count' (log ++ [(first, os)])
  end.

Definition send_private_inputs (values : list gfp) (inc : incoming)
           (n_parties : nat) (log : send_log) : send_log * ending unit :=
  let num_inputs := length values in
  match receive_triples inc 0 n_parties (repeat triple_zero num_inputs) with
  | None => (log, Failed)
  | Some triples =>
    if check_triples triples
    then (send_all (mask_inputs values triples []) 0 n_parties log,
          Returned tt)
    else (log, Exited 1)
  end.

End Client.


(** *** Machine numbers *)

(** [float] is IEEE-754 binary32 and [double] is binary64. *)
Abbreviation float := spec_float.
Abbreviation double := spec_float.

Module F32.
Definition prec : Z := 24.
Definition emax : Z := 128.
Definition add : float -> float -> float := SFadd prec emax.
Definition div : float -> float -> float := SFdiv prec emax.
Definition ltb : float -> float -> bool := SFltb.
Definition leb : float -> float -> bool := SFleb.
Definition eqb : float -> float -> bool := SFeqb.
(** Conversion of an integer ([int], [size_t]) to [float]. *)
Definition of_Z (n : Z) : float := binary_normalize prec emax n 0 false.
(** [static_cast<float>] of a [double]. *)
Definition of_double (x : double) : float :=
  match x with
  | S754_finite s m e => binary_round prec emax s m e
  | _ => x
  end.
Definition is_nan (x : float) : bool :=
  match x with S754_nan => true | _ => false end.
Definition valid (x : float) : bool := valid_binary prec emax x.
End F32.

Module F64.
Definition prec : Z := 53.
Definition emax : Z := 1024.
Definition mul : double -> double -> double := SFmul prec emax.
(** Conversion of an [int64_t] to [double]. *)
Definition of_Z (n : Z) : double := binary_normalize prec emax n 0 false.
(** Promotion of a [float] operand to [double]. *)
Definition of_float (x : float) : double :=
  match x with
  | S754_finite s m e => binary_round prec emax s m e
  | _ => x
  end.
(** [pow(2, k)] for an integer constant [k]: the double [2^k]. *)
Definition pow2 (k : Z) : double := binary_normalize prec emax 1 k false.
(** [round] of [math.h]: the nearest integral value, halfway cases
    away from zero; the sign of a zero result is the sign of the
    argument. *)
Definition round (x : double) : double :=
  match x with
  | S754_finite s m e =>
    if 0 <=? e then x
    else
      let n := Z.shiftr (Z.pos m + Z.shiftl 1 (- e - 1)) (- e) in
      if n =? 0 then S754_zero s
      else binary_normalize prec emax (cond_Zopp s n) 0 false
  | _ => x
  end.
(** [static_cast<int64_t>] of a [double]: truncation toward zero;
    undefined when the truncated value is not an [int64_t]. *)
Definition to_int64 (x : double) : option Z :=
  match x with
  | S754_zero _ => Some 0
  | S754_finite s m e =>
    let n := cond_Zopp s (if 0 <=? e then Z.shiftl (Z.pos m) e
                          else Z.shiftr (Z.pos m) (- e)) in
    if (- 2 ^ 63 <=? n) && (n <? 2 ^ 63) then Some n else None
  | _ => None
  end.
End F64.

Definition SPDZ_FIXED_PRECISION : Z := 8.
Definition MAX_SPLIT_NUM : nat := 8.

(** [mpz_get_si]: the value when it fits a [long], otherwise the low 63
    bits of the magnitude with the sign of the argument. *)
Definition get_si (z : Z) : Z :=
  if 0 <=? z then z mod 2 ^ 63 else - 1 - ((- z - 1) mod 2 ^ 63).

(** The conversion of a [long] to [int]: reduction modulo [2^32]. *)
Definition long_to_int (z : Z) : Z := (z + 2 ^ 31) mod 2 ^ 32 - 2 ^ 31.

(** *** Loops and vector reads *)

(** [for (int i = from; i < from + count; i++) body], where an iteration
    may run into an out-of-range read. *)
Fixpoint for_range {S : Type} (from count : nat)
         (body : nat -> S -> option S) (s : S) : option S :=
  match count with
  | O => Some s
  | Datatypes.S count' =>
    match body from s with
    | None => None
    | Some s' => for_range (Datatypes.S from) count' body s'
    end
  end.

(** [v[i]] on a [std::vector]: undefined out of range. *)
Definition vec_at {A : Type} (v : list A) (i : nat) : option A := nth_error v i.

(** [v.push_back(x)]. *)
Definition push_back {A : Type} (v : list A) (x : A) : list A := v ++ [x].

(** *** send_private_batch_shares *)

(** [static_cast<int64_t>(round(share * pow(2, SPDZ_FIXED_PRECISION)))] *)
Definition fixed_point_encode (share : float) : option Z :=
  F64.to_int64
    (F64.round (F64.mul (F64.of_float share) (F64.pow2 SPDZ_FIXED_PRECISION))).

Fixpoint encode_shares (shares : list float) : option (list Z) :=
  match shares with
  | [] => Some []
  | x :: xs =>
    match fixed_point_encode x, encode_shares xs with
    | Some n, Some ns => Some (n :: ns)
    | _, _ => None
    end
  end.

Definition send_private_batch_shares (p : Z) (shares : list float)
           (inc : incoming) (n_parties : nat) (log : send_log)
  : send_log * ending unit :=
  match encode_shares shares with
  | None => (log, Undefined)
  | Some long_shares =>
    let input_values_gfp := map (Gfp.assign p) long_shares in
    send_private_inputs p input_values_gfp inc n_parties log
  end.

(** *** receive_result *)

(** The routine on a vector [sockets] with an entry for each of the
    [n_parties] engines; on an arbitrary vector it is
    [Wire.receive_result] below. *)

(** [static_cast<float>(t * pow(2, -SPDZ_FIXED_PRECISION))] for the
    [int64_t] value [t]. *)
Definition fixed_point_decode (t : Z) : float :=
  F32.of_double (F64.mul (F64.of_Z t) (F64.pow2 (- SPDZ_FIXED_PRECISION))).

Section Result.

Variable p : Z.

(** The inner loop: add [size] unpacked elements into [output_values]. *)
Fixpoint accumulate_outputs (output_values : list gfp) (os : octetStream)
  : option (list gfp) :=
  match output_values with
  | [] => Some []
  | o :: os_rest =>
    match unpack os with
    | None => None
    | Some (value, os') =>
      match accumulate_outputs os_rest os' with
      | None => None
      | Some rest => Some (Gfp.add p o value :: rest)
      end
    end
  end.

(** The outer loop over the engines [i = first, first + 1, ...]. *)
Fixpoint receive_outputs (inc : incoming) (first count : nat)
         (output_values : list gfp) : option (list gfp) :=
  match count with
  | O => Some output_values
  | S count' =>
    match nth_error inc first with
    | None => None
    | Some os =>
      match accumulate_outputs output_values os with
      | None => None
      | Some output_values' =>
        receive_outputs inc (S first) count' output_values'
      end
    end
  end.

(** The decoding of one fixed-point entry. *)
Definition decode_share (val : gfp) : float :=
  fixed_point_decode (get_si (Gfp.to_signed_bigint p val)).

(** The decoding of the index entry. *)
Definition decode_index (index : gfp) : Z :=
  long_to_int (get_si (Gfp.to_signed_bigint p index)).

(** The result is the pair of [res_shares] and [best_split_index]. *)
Definition receive_result (inc : incoming) (n_parties : nat) (size : nat)
  : ending (list float * Z) :=
  match receive_outputs inc 0 n_parties (repeat Gfp.zero size) with
  | None => Failed
  | Some output_values =>
    match size with
    | O => Failed
    | S size_1 =>
      match vec_at output_values size_1 with
      | None => Undefined
      | Some index =>
        Returned (map decode_share (firstn size_1 output_values),
                  decode_index index)
      end
    end
  end.

End Result.

(** *** The quantile split engine *)

Section SplitEngine.

(** [std::sort(first, last, comp)] of the C++ library, on a vector of
    indices.  The library is outside the source file; the split engine
    is stated for an arbitrary implementation and the properties
    assume the guarantees of the language standard ([sort_contract]
    below). *)
Variable std_sort : (nat -> nat -> bool) -> list nat -> list nat.

(** [iota] fills [0, 1, ..., size - 1]; the comparison is on [v]. *)
Definition sort_indexes (v : list float) : list nat :=
  let idx := seq 0 (length v) in
  std_sort (fun i1 i2 => F32.ltb (nth i1 v S754_nan) (nth i2 v S754_nan)) idx.

(** [feature_values[sorted_indexes[i]]] *)
Definition sorted_value (feature_values : list float)
           (sorted_indexes : list nat) (i : nat) : option float :=
  match vec_at sorted_indexes i with
  | None => None
  | Some k => vec_at feature_values k
  end.

Definition compute_distinct_values (feature_values : list float)
           (sorted_indexes : list nat) : option (list float) :=
  let sample_num := length feature_values in
  for_range 0 sample_num
    (fun i distinct_values =>
       match sorted_value feature_values sorted_indexes i with
       | None => None
       | Some x =>
         let distinct_value_num := length distinct_values in
         if (distinct_value_num =? 0)%nat then
           Some (push_back distinct_values x)
         else
           match vec_at distinct_values (distinct_value_num - 1) with
           | None => None
           | Some last =>
             if F32.eqb last x then Some distinct_values
             else Some (push_back distinct_values x)
           end
       end)
    [].

Definition one_distinct_value_message : string :=
  "This feature has only one distinct value, please check it again".

(** The result is [split_params] together with what was written to
    [cout]. *)
Definition compute_splits (feature_values : list float)
  : ending (list float * list string) :=
  let sorted_indexes := sort_indexes feature_values in
  let n_samples := length feature_values in
  match compute_distinct_values feature_values sorted_indexes with
  | None => Undefined
  | Some distinct_values =>
    if (MAX_SPLIT_NUM + 1 <=? length distinct_values)%nat then
      let split_params := [F32.of_Z (Z.of_nat MAX_SPLIT_NUM)] in
      let n_sample_per_bin := (n_samples / (MAX_SPLIT_NUM + 1))%nat in
      match
        for_range 0 MAX_SPLIT_NUM
          (fun i split_params =>
             match sorted_value feature_values sorted_indexes
                                ((i + 1) * n_sample_per_bin),
                   sorted_value feature_values sorted_indexes
                                ((i + 1) * n_sample_per_bin + 1)
             with
             | Some lo, Some hi =>
               let split_value_i := F32.div (F32.add lo hi) (F32.of_Z 2) in
               Some (push_back split_params split_value_i)
             | _, _ => None
             end)
          split_params
      with
      | None => Undefined
      | Some split_params => Returned (split_params, [])
      end
    else if (1 <? length distinct_values)%nat then
      let split_params :=
          [F32.of_Z (Z.of_nat (length distinct_values - 1))] in
      match
        for_range 0 MAX_SPLIT_NUM
          (fun i split_params =>
             if (i <=? length distinct_values - 1)%nat then
               match vec_at distinct_values i with
               | None => None
               | Some d => Some (push_back split_params d)
               end
             else Some (push_back split_params (F32.of_Z (-1))))
          split_params
      with
      | None => Undefined
      | Some split_params => Returned (split_params, [])
      end
    else
      match
        for_range 0 MAX_SPLIT_NUM
          (fun i split_params =>
             Some (push_back split_params (F32.of_Z (-1))))
          [F32.of_Z 0]
      with
      | None => Undefined
      | Some split_params =>
        Returned (split_params, [one_distinct_value_message])
      end
  end.

End SplitEngine.

(** Two implementations of [std_sort], both by insertion.  The first
    places an element before the first one that is not smaller, taking
    the elements from the back of the range: equal elements keep their
    order.  The second sorts the reversed range the same way: equal
    elements come out in the opposite order. *)
Fixpoint insert_sorted (comp : nat -> nat -> bool) (x : nat) (l : list nat)
  : list nat :=
  match l with
  | [] => [x]
  | y :: rest =>
    if comp y x then y :: insert_sorted comp x rest else x :: y :: rest
  end.

Definition insertion_sort (comp : nat -> nat -> bool) (l : list nat) : list nat :=
  fold_right (insert_sorted comp) [] l.

Definition reversing_sort (comp : nat -> nat -> bool) (l : list nat) : list nat :=
  insertion_sort comp (rev l).

(** *** The indicator vector encoder *)

(** The pass over the samples for one threshold: the left and the right
    indicator vector. *)
Definition split_iv_left (feature_values : list float) (cur_split_value : float)
  : list Z :=
  map (fun x => if F32.leb x cur_split_value then 1 else 0) feature_values.

Definition split_iv_right (feature_values : list float) (cur_split_value : float)
  : list Z :=
  map (fun x => if F32.leb x cur_split_value then 0 else 1) feature_values.

(** The rows are pushed onto the two vectors handed in by the caller. *)
Definition compute_feature_split_ivs
           (feature_values split_values : list float)
           (left_split_ivs right_split_ivs : list (list Z))
  : option (list (list Z) * list (list Z)) :=
  let split_num := (length split_values - 1)%nat in
  for_range 0 split_num
    (fun s ivs =>
       match vec_at split_values (s + 1) with
       | None => None
       | Some cur_split_value =>
         Some (push_back (fst ivs) (split_iv_left feature_values cur_split_value),
               push_back (snd ivs) (split_iv_right feature_values cur_split_value))
       end)
    (left_split_ivs, right_split_ivs).

(** The inner search [for j < classes.size()]: was the label seen? *)
Fixpoint class_found (classes : list float) (label : float) : bool :=
  match classes with
  | [] => false
  | c :: rest => if F32.eqb c label then true else class_found rest label
  end.

(** The first loop: the classes in order of first occurrence. *)
Fixpoint collect_classes (training_labels : list float) (classes : list float)
  : list float :=
  match training_labels with
  | [] => classes
  | l :: rest =>
    if class_found classes l then collect_classes rest classes
    else collect_classes rest (push_back classes l)
  end.

Definition class_iv (training_labels : list float) (class : float) : list Z :=
  map (fun l => if F32.eqb l class then 1 else 0) training_labels.

Definition compute_label_class_ivs (training_labels : list float)
  : list (list Z) :=
  let classes := collect_classes training_labels [] in
  map (class_iv training_labels) classes.


(** *** send_public_parameters *)


(** *** receive_index *)

(** One element is read from the buffer of socket 0 and converted like
    the index entry of [receive_result]. *)
Definition receive_index (p : Z) (inc : incoming) : ending Z :=
  match nth_error inc 0 with
  | None => Failed
  | Some os =>
    match unpack os with
    | None => Failed
    | Some (aa, _) => Returned (long_to_int (get_si (Gfp.to_signed_bigint p aa)))
    end
  end.

(** *** The counters of compute_feature_split_ivs *)

(** The loop after each pass of [compute_feature_split_ivs]:
    [sum_left = sum_left + cur_split_iv_vector_left[i]] and the same on
    the right, for [i] below the number of samples. *)
Definition split_iv_sums (cur_split_iv_vector_left cur_split_iv_vector_right : list Z)
           (n_samples : nat) : option (Z * Z) :=
  for_range 0 n_samples
    (fun i sums =>
       match vec_at cur_split_iv_vector_left i,
             vec_at cur_split_iv_vector_right i with
       | Some l, Some r => Some (fst sums + l, snd sums + r)
       | _, _ => None
       end)
    (0, 0).

(** *** read_training_data *)

Section Reader.

(** [atof] of the C library, on the characters of an item, and
    [std::to_string] on the client's number. *)
Variable atof : string -> double.
Variable to_string : Z -> string.

(** The files that can be opened, with their characters. *)
Variable files : string -> option string.

(** The characters in front of the first [delim], and what follows
    it. *)
Fixpoint until_delim (delim : ascii) (stream : string) : string * string :=
  match stream with
  | EmptyString => (EmptyString, EmptyString)
  | String c rest =>
    if Ascii.eqb c delim then (EmptyString, rest)
    else let (item, rest') := until_delim delim rest in (String c item, rest')
  end.

(** [std::getline(stream, str, delim)]: it fails when no character is left
    in the stream; otherwise the characters up to the next delimiter
    (or up to the end) go to [str] and the delimiter is taken out of
    the stream. *)
Definition getline (delim : ascii) (stream : string) : option (string * string) :=
  match stream with
  | EmptyString => None
  | String _ _ => Some (until_delim delim stream)
  end.

(** [while (getline(stream, item, delim)) body], for at most [fuel]
    iterations. *)
Fixpoint getline_loop {St : Type} (delim : ascii) (fuel : nat) (stream : string)
         (body : string -> St -> option St) (st : St) : option St :=
  match fuel with
  | O => None
  | S fuel' =>
    match getline delim stream with
    | None => Some st
    | Some (item, rest) =>
      match body item st with
      | None => None
      | Some st' => getline_loop delim fuel' rest body st'
      end
    end
  end.

(** The inner loop: the items of one line, split at [','].  Every
    iteration takes a character out of the stream, so the length of the
    line and one more bound the iterations. *)
Definition read_items (line : string) : option (list float) :=
  getline_loop "," (S (String.length line)) line
    (fun item items => Some (push_back items (F32.of_double (atof item))))
    [].

Definition data_file (client_id : Z) (data : string) : string :=
  let s1 := "/home/wuyuncheng/Documents/projects/Pivot/data/"%string in
  let s11 := (s1 ++ data ++ "/")%string in
  let s2 := to_string client_id in
  (s11 ++ "client_" ++ s2 ++ ".txt")%string.

(** The result is [local_data] with [feature_num] and [sample_num],
    together with what was written to [cout].  A loop that is out of
    fuel counts as not returning. *)
Definition read_training_data (client_id : Z) (data : string)
  : list string * ending (list (list float) * Z * Z) :=
  match files (data_file client_id data) with
  | None => (["open %s error"%string], Exited 1)
  | Some content =>
    match
      getline_loop "010" (S (String.length content)) content
        (fun line local_data =>
           match read_items line with
           | None => None
           | Some items => Some (push_back local_data items)
           end)
        []
    with
    | None => ([], Failed)
    | Some local_data =>
      let sample_num := Z.of_nat (length local_data) in
      match vec_at local_data 0 with
      | None => ([], Undefined)
      | Some first => ([], Returned (local_data, Z.of_nat (length first), sample_num))
      end
    end
  end.

End Reader.

(** *** The training split of main *)

(** [SPLIT_PERCENTAGE]: the literal [0.8] as a [double], that is
    [7205759403792794 * 2^-53]. *)
Definition SPLIT_PERCENTAGE : double := S754_finite false 7205759403792794 (-53).

(** The conversion of a [double] to [int]: truncation toward zero,
    undefined when the truncated value is not an [int]. *)
Definition double_to_int (x : double) : option Z :=
  match x with
  | S754_zero _ => Some 0
  | S754_finite s m e =>
    let n := cond_Zopp s (if 0 <=? e then Z.shiftl (Z.pos m) e
                          else Z.shiftr (Z.pos m) (- e)) in
    if (- 2 ^ 31 <=? n) && (n <? 2 ^ 31) then Some n else None
  | _ => None
  end.

(** [int training_data_num = sample_num * SPLIT_PERCENTAGE]: the
    product is taken in [double]. *)
Definition training_data_num (sample_num : Z) : option Z :=
  double_to_int (F64.mul (F64.of_Z sample_num) SPLIT_PERCENTAGE).

(** *** setup_sockets *)

(** What [setup_sockets] does on the network: a connection made by
    [set_up_client_socket], and the client's number sent on a socket as
    a raw [int]. *)
Inductive socket_event : Type :=
| Connect (host : string) (port : Z)
| SendInt (socket : Z) (value : Z).

Section Sockets.

(** [std::to_string], for the numbers written to [cout], and the
    descriptor that the [i]-th call of [set_up_client_socket] stores in
    [sockets[i]]. *)
Variable to_string : Z -> string.
Variable descriptor : nat -> Z.

Definition set_up_message (i : nat) (socket port_num : Z) : string :=
  ("set up for " ++ to_string (Z.of_nat i) ++ "-th party succeed"
   ++ ", sockets = " ++ to_string socket
   ++ ", port_num = " ++ to_string port_num)%string.

Definition finish_setup_message : string :=
  "Finish setup socket connections to SPDZ engines.".

(** The result is the vector [sockets] with what happened on the
    network and what was written to [cout]; a negative [n_parties]
    fails in the allocation of [sockets]. *)
Definition setup_sockets (n_parties my_client_id : Z) (host_names : list string)
           (port_base : Z)
  : list socket_event * list string * ending (list Z) :=
  if n_parties <? 0 then ([], [], Failed)
  else
    let sockets := repeat 0 (Z.to_nat n_parties) in
    match
      for_range 0 (Z.to_nat n_parties)
        (fun i st =>
           let '(sockets, events, out) := st in
           match vec_at host_names i with
           | None => None
           | Some host =>
             let port := port_base + Z.of_nat i in
             let socket := descriptor i in
             Some (firstn i sockets ++ socket :: skipn (S i) sockets,
                   events ++ [Connect host port; SendInt socket my_client_id],
                   out ++ [set_up_message i socket port])
           end)
        (sockets, [], [])
    with
    | None => ([], [], Undefined)
    | Some (sockets, events, out) =>
      (events, out ++ [finish_setup_message], Returned sockets)
    end.

(** The three host names that [main] passes. *)
Definition main_host_names : list string :=
  ["127.0.0.1"; "127.0.0.1"; "127.0.0.1"]%string.

End Sockets.

(** *** [std::sort] of the GNU C++ library *)

(** The implementation that the program is linked with
    ([bits/stl_algo.h] and [bits/stl_heap.h] of libstdc++, GCC 12): an
    introsort, that is a quicksort down to ranges of 16 elements, with
    a heapsort when the recursion is too deep, followed by one
    insertion sort.  The vector is a list, an iterator is a position in
    it; a read or write outside the vector, which the library's
    unguarded loops make when the comparison is no strict weak
    ordering, and a loop that is out of fuel give [None]. *)
Module GnuSort.
Section Sort.

(** The comparison, on the elements. *)
Variable comp : nat -> nat -> bool.

Definition rd (a : list nat) (i : Z) : option nat :=
  if i <? 0 then None else nth_error a (Z.to_nat i).

Definition wr (a : list nat) (i : Z) (x : nat) : option (list nat) :=
  if (0 <=? i) && (i <? Z.of_nat (length a))
  then Some (firstn (Z.to_nat i) a ++ x :: skipn (S (Z.to_nat i)) a)
  else None.

Definition bind {A B : Type} (x : option A) (f : A -> option B) : option B :=
  match x with
  | Some a => f a
  | None => None
  end.

Notation "x <- e ;; k" := (bind e (fun x => k))
  (at level 61, e at next level, right associativity).

(** [std::iter_swap(i, j)] *)
Definition iter_swap (a : list nat) (i j : Z) : option (list nat) :=
  x <- rd a i ;; y <- rd a j ;; a1 <- wr a i y ;; wr a1 j x.

(** [__move_median_to_first(result, a, b, c, comp)] *)
Definition move_median_to_first (v : list nat) (result a b c : Z)
  : option (list nat) :=
  va <- rd v a ;; vb <- rd v b ;; vc <- rd v c ;;
  if comp va vb then
    if comp vb vc then iter_swap v result b
    else if comp va vc then iter_swap v result c
    else iter_swap v result a
  else if comp va vc then iter_swap v result a
  else if comp vb vc then iter_swap v result c
  else iter_swap v result b.

(** [while (comp(first, pivot)) ++first] *)
Fixpoint scan_up (fuel : nat) (v : list nat) (first pivot : Z) : option Z :=
  match fuel with
  | O => None
  | S fuel' =>
    x <- rd v first ;; pv <- rd v pivot ;;
    if comp x pv then scan_up fuel' v (first + 1) pivot else Some first
  end.

(** [while (comp(pivot, last)) --last] *)
Fixpoint scan_down (fuel : nat) (v : list nat) (last pivot : Z) : option Z :=
  match fuel with
  | O => None
  | S fuel' =>
    x <- rd v last ;; pv <- rd v pivot ;;
    if comp pv x then scan_down fuel' v (last - 1) pivot else Some last
  end.

(** [__unguarded_partition(first, last, pivot, comp)] *)
Fixpoint unguarded_partition (fuel : nat) (v : list nat) (first last pivot : Z)
  : option (list nat * Z) :=
  match fuel with
  | O => None
  | S fuel' =>
    first <- scan_up (S (length v)) v first pivot ;;
    let last := last - 1 in
    last <- scan_down (S (length v)) v last pivot ;;
    if negb (first <? last) then Some (v, first)
    else
      v <- iter_swap v first last ;;
      unguarded_partition fuel' v (first + 1) last pivot
  end.

(** [__unguarded_partition_pivot(first, last, comp)] *)
Definition unguarded_partition_pivot (v : list nat) (first last : Z)
  : option (list nat * Z) :=
  let mid := first + Z.quot (last - first) 2 in
  v <- move_median_to_first v first (first + 1) mid (last - 1) ;;
  unguarded_partition (S (length v)) v (first + 1) last first.

(** [__push_heap(first, holeIndex, topIndex, value, comp)] *)
Fixpoint push_heap (fuel : nat) (v : list nat) (first holeIndex topIndex : Z)
         (value : nat) : option (list nat) :=
  match fuel with
  | O => None
  | S fuel' =>
    let parent := Z.quot (holeIndex - 1) 2 in
    if topIndex <? holeIndex then
      x <- rd v (first + parent) ;;
      if comp x value then
        v <- wr v (first + holeIndex) x ;;
        push_heap fuel' v first parent topIndex value
      else wr v (first + holeIndex) value
    else wr v (first + holeIndex) value
  end.

(** The first loop of [__adjust_heap]: the hole goes down to the
    larger child. *)
Fixpoint sift_down (fuel : nat) (v : list nat) (first holeIndex secondChild len : Z)
  : option (list nat * Z * Z) :=
  match fuel with
  | O => None
  | S fuel' =>
    if secondChild <? Z.quot (len - 1) 2 then
      let secondChild := 2 * (secondChild + 1) in
      x <- rd v (first + secondChild) ;;
      y <- rd v (first + (secondChild - 1)) ;;
      let secondChild := if comp x y then secondChild - 1 else secondChild in
      z <- rd v (first + secondChild) ;;
      v <- wr v (first + holeIndex) z ;;
      sift_down fuel' v first secondChild secondChild len
    else Some (v, holeIndex, secondChild)
  end.

(** [__adjust_heap(first, holeIndex, len, value, comp)] *)
Definition adjust_heap (v : list nat) (first holeIndex len : Z) (value : nat)
  : option (list nat) :=
  let topIndex := holeIndex in
  let secondChild := holeIndex in
  r <- sift_down (S (length v)) v first holeIndex secondChild len ;;
  let '(v, holeIndex, secondChild) := r in
  r <- (if (Z.land len 1 =? 0) && (secondChild =? Z.quot (len - 2) 2) then
          let secondChild := 2 * (secondChild + 1) in
          x <- rd v (first + (secondChild - 1)) ;;
          v <- wr v (first + holeIndex) x ;;
          Some (v, secondChild - 1)
        else Some (v, holeIndex)) ;;
  let '(v, holeIndex) := r in
  push_heap (S (length v)) v first holeIndex topIndex value.

(** [__pop_heap(first, last, result, comp)] *)
Definition pop_heap (v : list nat) (first last result : Z) : option (list nat) :=
  value <- rd v result ;;
  x <- rd v first ;;
  v <- wr v result x ;;
  adjust_heap v first 0 (last - first) value.

(** The loop of [__make_heap]. *)
Fixpoint make_heap_loop (fuel : nat) (v : list nat) (first parent len : Z)
  : option (list nat) :=
  match fuel with
  | O => None
  | S fuel' =>
    value <- rd v (first + parent) ;;
    v <- adjust_heap v first parent len value ;;
    if parent =? 0 then Some v
    else make_heap_loop fuel' v first (parent - 1) len
  end.

(** [__make_heap(first, last, comp)] *)
Definition make_heap (v : list nat) (first last : Z) : option (list nat) :=
  if last - first <? 2 then Some v
  else
    let len := last - first in
    let parent := Z.quot (len - 2) 2 in
    make_heap_loop (S (length v)) v first parent len.

(** [__sort_heap(first, last, comp)] *)
Fixpoint sort_heap (fuel : nat) (v : list nat) (first last : Z)
  : option (list nat) :=
  match fuel with
  | O => None
  | S fuel' =>
    if 1 <? last - first then
      let last := last - 1 in
      v <- pop_heap v first last last ;;
      sort_heap fuel' v first last
    else Some v
  end.

(** The loop of [__heap_select]: [for (i = middle; i < last; ++i)]. *)
Fixpoint heap_select_loop (fuel : nat) (v : list nat) (first middle last i : Z)
  : option (list nat) :=
  match fuel with
  | O => None
  | S fuel' =>
    if i <? last then
      x <- rd v i ;; y <- rd v first ;;
      v <- (if comp x y then pop_heap v first middle i else Some v) ;;
      heap_select_loop fuel' v first middle last (i + 1)
    else Some v
  end.

(** [__heap_select(first, middle, last, comp)] *)
Definition heap_select (v : list nat) (first middle last : Z)
  : option (list nat) :=
  v <- make_heap v first middle ;;
  heap_select_loop (S (length v)) v first middle last middle.

(** [__partial_sort(first, middle, last, comp)] *)
Definition partial_sort (v : list nat) (first middle last : Z)
  : option (list nat) :=
  v <- heap_select v first middle last ;;
  sort_heap (S (length v)) v first middle.

(** The loop of [__unguarded_linear_insert]. *)
Fixpoint linear_insert_loop (fuel : nat) (v : list nat) (last next : Z)
         (val : nat) : option (list nat) :=
  match fuel with
  | O => None
  | S fuel' =>
    x <- rd v next ;;
    if comp val x then
      v <- wr v last x ;;
      linear_insert_loop fuel' v next (next - 1) val
    else wr v last val
  end.

(** [__unguarded_linear_insert(last, comp)] *)
Definition unguarded_linear_insert (v : list nat) (last : Z) : option (list nat) :=
  val <- rd v last ;;
  let next := last - 1 in
  linear_insert_loop (S (length v)) v last next val.

(** [std::move_backward(first, i, i + 1)] followed by [*first = val]:
    the elements of [first, i) go up by one. *)
Definition move_backward_insert (v : list nat) (first i : Z) (val : nat)
  : option (list nat) :=
  if (0 <=? first) && (first <=? i) && (i <? Z.of_nat (length v)) then
    Some (firstn (Z.to_nat first) v
          ++ val :: firstn (Z.to_nat (i - first)) (skipn (Z.to_nat first) v)
          ++ skipn (S (Z.to_nat i)) v)
  else None.

(** The loop of [__insertion_sort]: [for (i = first + 1; i != last; ++i)]. *)
Fixpoint insertion_sort_loop (fuel : nat) (v : list nat) (first last i : Z)
  : option (list nat) :=
  match fuel with
  | O => None
  | S fuel' =>
    if i =? last then Some v
    else
      x <- rd v i ;; y <- rd v first ;;
      v <- (if comp x y then move_backward_insert v first i x
            else unguarded_linear_insert v i) ;;
      insertion_sort_loop fuel' v first last (i + 1)
  end.

(** [__insertion_sort(first, last, comp)] *)
Definition insertion_sort (v : list nat) (first last : Z) : option (list nat) :=
  if first =? last then Some v
  else insertion_sort_loop (S (length v)) v first last (first + 1).

(** [__unguarded_insertion_sort(first, last, comp)] *)
Fixpoint unguarded_insertion_sort (fuel : nat) (v : list nat) (i last : Z)
  : option (list nat) :=
  match fuel with
  | O => None
  | S fuel' =>
    if i =? last then Some v
    else
      v <- unguarded_linear_insert v i ;;
      unguarded_insertion_sort fuel' v (i + 1) last
  end.

Definition S_threshold : Z := 16.

(** [__final_insertion_sort(first, last, comp)] *)
Definition final_insertion_sort (v : list nat) (first last : Z)
  : option (list nat) :=
  if S_threshold <? last - first then
    v <- insertion_sort v first (first + S_threshold) ;;
    unguarded_insertion_sort (S (length v)) v (first + S_threshold) last
  else insertion_sort v first last.

(** [__introsort_loop(first, last, depth_limit, comp)]: every turn of
    the loop and every call lowers the depth limit, so that the fuel
    need not exceed it by more than one. *)
Fixpoint introsort_loop (fuel : nat) (v : list nat) (first last depth_limit : Z)
  : option (list nat) :=
  match fuel with
  | O => None
  | S fuel' =>
    if S_threshold <? last - first then
      if depth_limit =? 0 then partial_sort v first last last
      else
        let depth_limit := depth_limit - 1 in
        r <- unguarded_partition_pivot v first last ;;
        let '(v, cut) := r in
        v <- introsort_loop fuel' v cut last depth_limit ;;
        introsort_loop fuel' v first cut depth_limit
    else Some v
  end.

(** [__sort(first, last, comp)] on the whole vector;
    [std::__lg(n)] is the binary logarithm of [n], rounded down. *)
Definition sort (v : list nat) : option (list nat) :=
  let first := 0 in
  let last := Z.of_nat (length v) in
  if first =? last then Some v
  else
    let depth_limit := Z.log2 (last - first) * 2 in
    v <- introsort_loop (S (S (Z.to_nat depth_limit))) v first last depth_limit ;;
    final_insertion_sort v first last.

End Sort.

(** [std::sort(idx.begin(), idx.end(), comp)] as a function on the
    vector; the vector is left as it is where the library's loops leave
    the range. *)
Definition std_sort (comp : nat -> nat -> bool) (v : list nat) : list nat :=
  match sort comp v with
  | Some sorted => sorted
  | None => v
  end.

End GnuSort.

(** *** The client routines on the vector of sockets *)

(** The routines [send_private_inputs], [send_private_batch_shares] and
    [receive_result] above take one connection per engine as given.
    The source hands them the vector [sockets] and the number
    [n_parties] as two independent arguments and reads [sockets[j]] for
    every [j] below [n_parties]: on a vector that is shorter, the read
    is out of range, which the language leaves undefined.  Here are the
    routines with the vector; the network is observed as before, per
    position [j] of the vector. *)
Module Wire.
Section Client.

Variable p : Z.

(** The loop over the engines [j = first, first + 1, ...]:
    [os.Receive(sockets[j])], then the loops over the rows. *)
Fixpoint receive_triples (sockets : list Z) (inc : incoming)
         (first count : nat) (triples : list triple)
  : ending (list triple) :=
  match count with
  | O => Returned triples
  | S count' =>
    match vec_at sockets first with
    | None => Undefined
    | Some _ =>
      match nth_error inc first with
      | None => Failed
      | Some os =>
        match accumulate_shares p triples os with
        | None => Failed
        | Some triples' =>
          receive_triples sockets inc (S first) count' triples'
        end
      end
    end
  end.

(** The final loop: [os.Send(sockets[j])] for [j] below [n_parties]. *)
Fixpoint send_all (os : octetStream) (sockets : list Z) (first count : nat)
         (log : send_log) : send_log * ending unit :=
  match count with
  | O => (log, Returned tt)
  | S count' =>
    match vec_at sockets first with
    | None => (log, Undefined)
    | Some _ => send_all os sockets (S first) count' (log ++ [(first, os)])
    end
  end.

Definition send_private_inputs (values : list gfp) (sockets : list Z)
           (inc : incoming) (n_parties : nat) (log : send_log)
  : send_log * ending unit :=
  let num_inputs := length values in
  match receive_triples sockets inc 0 n_parties (repeat triple_zero num_inputs) with
  | Returned triples =>
    if check_triples p triples
    then send_all (mask_inputs p values triples []) sockets 0 n_parties log
    else (log, Exited 1)
  | Exited status => (log, Exited status)
  | Failed => (log, Failed)
  | Undefined => (log, Undefined)
  end.

Definition send_private_batch_shares (shares : list float) (sockets : list Z)
           (inc : incoming) (n_parties : nat) (log : send_log)
  : send_log * ending unit :=
  match encode_shares shares with
  | None => (log, Undefined)
  | Some long_shares =>
    let input_values_gfp := map (Gfp.assign p) long_shares in
    send_private_inputs input_values_gfp sockets inc n_parties log
  end.

(** The outer loop of [receive_result] over the engines
    [i = first, first + 1, ...]: [os.Receive(sockets[i])], then the
    loop over the [size] elements. *)
Fixpoint receive_outputs (sockets : list Z) (inc : incoming)
         (first count : nat) (output_values : list gfp)
  : ending (list gfp) :=
  match count with
  | O => Returned output_values
  | S count' =>
    match vec_at sockets first with
    | None => Undefined
    | Some _ =>
      match nth_error inc first with
      | None => Failed
      | Some os =>
        match accumulate_outputs p output_values os with
        | None => Failed
        | Some output_values' =>
          receive_outputs sockets inc (S first) count' output_values'
        end
      end
    end
  end.

(** The result is the pair of [res_shares] and [best_split_index]. *)
Definition receive_result (sockets : list Z) (inc : incoming)
           (n_parties : nat) (size : nat)
  : ending (list float * Z) :=
  match receive_outputs sockets inc 0 n_parties (repeat Gfp.zero size) with
  | Returned output_values =>
    match size with
    | O => Failed
    | S size_1 =>
      match vec_at output_values size_1 with
      | None => Undefined
      | Some index =>
        Returned (map (decode_share p) (firstn size_1 output_values),
                  decode_index p index)
      end
    end
  | Exited status => Exited status
  | Failed => Failed
  | Undefined => Undefined
  end.

End Client.
End Wire.
(** ** Part II. Specification vocabulary *)

(** *** Aggregated triples *)

Section Aggregation.

Variable p : Z.

(** The [k]-th component of the [i]-th triple share in engine [j]'s buffer. *)
Definition share (inc : incoming) (j i k : nat) : gfp :=
  nth (3 * i + k) (nth j inc []) 0.

(** The running sum of that component over engines
    [first, first + 1, ..., first + count - 1], starting from [acc]. *)
Fixpoint sum_shares (inc : incoming) (first count : nat) (acc : gfp)
         (i k : nat) : gfp :=
  match count with
  | O => acc
  | S count' =>
    sum_shares inc (S first) count' (Gfp.add p acc (share inc first i k)) i k
  end.

(** The aggregated triple for value [i] over [n_parties] engines. *)
Definition aggregated (inc : incoming) (n_parties i : nat) : triple :=
  Triple (sum_shares inc 0 n_parties Gfp.zero i 0)
         (sum_shares inc 0 n_parties Gfp.zero i 1)
         (sum_shares inc 0 n_parties Gfp.zero i 2).

(** Every engine among the first [n_parties] delivers a buffer with at
    least [num_inputs] triple shares. *)
Definition well_framed (inc : incoming) (n_parties num_inputs : nat) : Prop :=
  forall j, (j < n_parties)%nat ->
    exists os, nth_error inc j = Some os /\ (3 * num_inputs <= length os)%nat.

End Aggregation.


(** *** Order on [float] *)

(** A key under which the comparison of two numbers is lexicographic:
    the class (negative infinity, negative, zero, positive, positive
    infinity), then exponent and mantissa, both negated for negative
    numbers. *)
Definition rank (x : float) : Z * Z * Z :=
  match x with
  | S754_infinity true => (-2, 0, 0)
  | S754_finite true m e => (-1, - e, - Z.pos m)
  | S754_zero _ => (0, 0, 0)
  | S754_finite false m e => (1, e, Z.pos m)
  | S754_infinity false => (2, 0, 0)
  | S754_nan => (3, 0, 0)
  end.

Definition lex_lt (a b : Z * Z * Z) : Prop :=
  let '(a1, a2, a3) := a in
  let '(b1, b2, b3) := b in
  a1 < b1 \/ (a1 = b1 /\ (a2 < b2 \/ (a2 = b2 /\ a3 < b3))).

(** *** Label classes *)

(** The labels kept by "no earlier label compares equal", [seen] being
    the labels already passed. *)
Fixpoint first_occurrences (seen labels : list float) : list float :=
  match labels with
  | [] => []
  | l :: rest =>
    if existsb (fun s => F32.eqb s l) seen
    then first_occurrences (seen ++ [l]) rest
    else l :: first_occurrences (seen ++ [l]) rest
  end.


(** *** Opened outputs *)

Section Opening.

Variable p : Z.

(** The running sum of the [j]-th element over the buffers of engines
    [first, first + 1, ..., first + count - 1], starting from [acc]. *)
Fixpoint sum_outputs (inc : incoming) (first count : nat) (acc : gfp) (j : nat)
  : gfp :=
  match count with
  | O => acc
  | S count' =>
    sum_outputs inc (S first) count' (Gfp.add p acc (nth j (nth first inc []) 0)) j
  end.

(** The [j]-th output: the sum of the engines' shares, in engine order. *)
Definition opened (inc : incoming) (n_parties j : nat) : gfp :=
  sum_outputs inc 0 n_parties Gfp.zero j.

End Opening.

(** Every engine among the first [n_parties] delivers at least [size]
    elements. *)
Definition outputs_framed (inc : incoming) (n_parties size : nat) : Prop :=
  forall i, (i < n_parties)%nat ->
    exists os, nth_error inc i = Some os /\ (size <= length os)%nat.

(** *** The contract of [std::sort] *)

(** The language standard asks that the comparison induce a strict weak
    ordering on the elements of the range: it is irreflexive and
    transitive, and so is the equivalence "neither is before the
    other". *)
Definition equiv_under (comp : nat -> nat -> bool) (x y : nat) : Prop :=
  comp x y = false /\ comp y x = false.

Definition strict_weak (comp : nat -> nat -> bool) (l : list nat) : Prop :=
  (forall x, In x l -> comp x x = false) /\
  (forall x y z, In x l -> In y l -> In z l ->
     comp x y = true -> comp y z = true -> comp x z = true) /\
  (forall x y z, In x l -> In y l -> In z l ->
     equiv_under comp x y -> equiv_under comp y z -> equiv_under comp x z).

(** The range is sorted: for every position [i] and every later position
    [j], the element at [j] does not compare before the element at [i]. *)
Definition sorted_by (comp : nat -> nat -> bool) (l : list nat) : Prop :=
  forall i j, (i < j < length l)%nat -> comp (nth j l 0%nat) (nth i l 0%nat) = false.

(** What the standard guarantees of [std::sort]: on a strict weak
    ordering the result is a sorted rearrangement of the range.  The
    order of equivalent elements is not specified. *)
Definition sort_contract (std_sort : (nat -> nat -> bool) -> list nat -> list nat)
  : Prop :=
  forall comp l, strict_weak comp l ->
    Permutation l (std_sort comp l) /\ sorted_by comp (std_sort comp l).

(** Index [i] comes before index [j] in the order [l]. *)
Definition precedes (i j : nat) (l : list nat) : Prop :=
  exists a b, (a < b < length l)%nat /\ nth a l 0%nat = i /\ nth b l 0%nat = j.

(** No element of the column is a NaN. *)
Definition nan_free (v : list float) : Prop :=
  forall x, In x v -> F32.is_nan x = false.

(** No element of the column is the negative zero (which compares equal
    to the positive zero but is a different datum). *)
Definition no_negative_zero (v : list float) : Prop :=
  forall x, In x v -> x <> S754_zero true.

(** The values of the column along an index order. *)
Definition values_along (v : list float) (idx : list nat) : list float :=
  map (fun k => nth k v S754_nan) idx.

(** A column of seventeen samples with the same value. *)
Definition seventeen_ones : list float := repeat (F32.of_Z 1) 17.

(** *** The split engine on the sorted column *)

(** One step of the scan for distinct values: the value is appended
    unless it compares equal to the last one kept. *)
Definition distinct_step (distinct_values : list float) (x : float) : list float :=
  match distinct_values with
  | [] => [x]
  | _ :: _ =>
    if F32.eqb (last distinct_values S754_nan) x then distinct_values
    else distinct_values ++ [x]
  end.

(** The distinct values of a sorted column. *)
Definition distinct_of_sorted (w : list float) : list float :=
  fold_left distinct_step w [].

(** All of [g i] for [i] in [l], if every one is there. *)
Fixpoint collect_options {A : Type} (g : nat -> option A) (l : list nat)
  : option (list A) :=
  match l with
  | [] => Some []
  | i :: rest =>
    match g i, collect_options g rest with
    | Some x, Some xs => Some (x :: xs)
    | _, _ => None
    end
  end.

(** The two sorted positions read for bin boundary [i] with [n] samples. *)
Definition lower_position (n i : nat) : nat := ((i + 1) * (n / 9))%nat.
Definition upper_position (n i : nat) : nat := ((i + 1) * (n / 9) + 1)%nat.

(** The average of two neighbours, in [float] arithmetic. *)
Definition average (lo hi : float) : float :=
  F32.div (F32.add lo hi) (F32.of_Z 2).

(** The threshold for bin boundary [i] of the sorted column [w]. *)
Definition threshold (w : list float) (i : nat) : option float :=
  match nth_error w (lower_position (length w) i),
        nth_error w (upper_position (length w) i) with
  | Some lo, Some hi => Some (average lo hi)
  | _, _ => None
  end.

(** What [compute_splits] makes of the sorted column [w]. *)
Definition splits_from_sorted (w : list float) : ending (list float * list string) :=
  let dv := distinct_of_sorted w in
  if (9 <=? length dv)%nat then
    match collect_options (threshold w) (seq 0 8) with
    | Some ts => Returned (F32.of_Z 8 :: ts, [])
    | None => Undefined
    end
  else if (1 <? length dv)%nat then
    Returned (F32.of_Z (Z.of_nat (length dv - 1))
                :: dv ++ repeat (F32.of_Z (-1)) (8 - length dv), [])
  else
    Returned (F32.of_Z 0 :: repeat (F32.of_Z (-1)) 8, [one_distinct_value_message]).

(** Strictly ascending, and non-descending, sequences of numbers. *)
Definition ascending (l : list float) : Prop :=
  StronglySorted (fun a b => F32.ltb a b = true) l.

Definition non_descending (l : list float) : Prop :=
  StronglySorted (fun a b => F32.leb a b = true) l.

(** *** The numbers behind the floating-point data *)

(** The rational number a finite datum stands for (0 for the others). *)
Definition value (x : spec_float) : Q :=
  match x with
  | S754_finite s m e => inject_Z (cond_Zopp s (Z.pos m)) * (2 ^ e)%Q
  | _ => 0%Q
  end.

Definition is_finite (x : spec_float) : bool :=
  match x with
  | S754_zero _ | S754_finite _ _ _ => true
  | _ => false
  end.

(** The integer nearest to [a * 2^k] for [a >= 0], halves going up. *)
Definition round_half_up (a k : Z) : Z :=
  if 0 <=? k then a * 2 ^ k else (a + 2 ^ (- k - 1)) / 2 ^ (- k).

(** The integer nearest to the number of a finite datum scaled by
    [2^j], halves going away from zero. *)
Definition scaled_round (x : spec_float) (j : Z) : Z :=
  match x with
  | S754_finite s m e => cond_Zopp s (round_half_up (Z.pos m) (e + j))
  | _ => 0
  end.

(** A normalised [double] standing for [(-1)^s * a * 2^k]. *)
Definition double_of (x : double) (s : bool) (a : positive) (k : Z) : Prop :=
  exists m e, x = S754_finite s m e /\ e <= k /\
              Z.pos m = Z.pos a * 2 ^ (k - e) /\ Z.pos (digits2_pos m) = 53.


(** The [float] 3.5, that is [14680064 * 2^-22]. *)
Definition three_and_a_half : float := S754_finite false 14680064 (-22).

(** *** Rounding in units of the least exponent *)

(** The quotient of [m] by [2^k] rounded to nearest, ties to even. *)
Definition rne (m k : Z) : Z :=
  let q := m / 2 ^ k in
  let r := m mod 2 ^ k in
  let h := 2 ^ (k - 1) in
  if r <? h then q else if h <? r then q + 1
  else if Z.even q then q else q + 1.

(** The mantissa and exponent of the [float] nearest to [x] units of
    [2^emin], for [x > 0]. *)
Definition round_units (prec emax : Z) (x : Z) : Z * Z :=
  let d := Z.log2 x + 1 in
  if d <=? prec then (x, emin prec emax)
  else
    let k := d - prec in
    let q := rne x k in
    if q =? 2 ^ prec then (2 ^ (prec - 1), emin prec emax + k + 1)
    else (q, emin prec emax + k).

(** The datum of sign [s] nearest to [x] units of [2^emin], the
    infinity when it is out of range. *)
Definition float_of_units (prec emax : Z) (s : bool) (x : Z) : spec_float :=
  let '(mf, ef) := round_units prec emax x in
  if ef <=? emax - prec then S754_finite s (Z.to_pos mf) ef
  else S754_infinity s.

(** A finite datum counted in units of [2^-149] (0 for the others). *)
Definition units32 (a : float) : Z :=
  match a with
  | S754_finite s m e => cond_Zopp s (Z.pos m * 2 ^ (e + 149))
  | _ => 0
  end.

(** The [float] nearest to [S] units of [2^-149]. *)
Definition float_of_units32 (S : Z) : float :=
  binary_normalize 24 128 S (-149) false.

(** Half of [u] units, rounded to nearest, ties to even. *)
Definition halve_units (u : Z) : Z :=
  if u <? 0 then - rne (- u) 1 else rne u 1.

(** *** The range of the fixed-point encoding *)

(** The [float] data [2^55] and [-2^55]. *)
Definition two_55 : float := S754_finite false 8388608 32.
Definition minus_two_55 : float := S754_finite true 8388608 32.

(** The integer nearest to [u * 2^-141], halves going away from zero:
    the encoding of [u] units of [2^-149]. *)
Definition scaled_units (u : Z) : Z :=
  if u <? 0 then - ((- u + 2 ^ 140) / 2 ^ 141) else (u + 2 ^ 140) / 2 ^ 141.

(** The [float] data [2^127] and [-2^127]: twice a number strictly
    between them is still a finite [float]. *)
Definition two_127 : float := S754_finite false 8388608 104.
Definition minus_two_127 : float := S754_finite true 8388608 104.

(** *** The format of the data file *)

(** Does the character occur in the string? *)
Fixpoint has_char (c : ascii) (s : string) : bool :=
  match s with
  | EmptyString => false
  | String a rest => Ascii.eqb a c || has_char c rest
  end.

(** The items of a row, separated by commas. *)
Fixpoint join_items (items : list string) : string :=
  match items with
  | [] => EmptyString
  | [x] => x
  | x :: rest => (x ++ String "," (join_items rest))%string
  end.

(** The lines of a file, each closed by a newline. *)
Fixpoint write_lines (lines : list string) : string :=
  match lines with
  | [] => EmptyString
  | l :: rest => (l ++ String "010" (write_lines rest))%string
  end.
(** ** Part III. Properties *)

(** *** The triple check and the masking of [send_private_inputs] *)

Section ClientFacts.

Variable p : Z.

Lemma accumulate_shares_some (ts : list triple) (os : octetStream) :
  (3 * length ts <= length os)%nat ->
  exists ts', accumulate_shares p ts os = Some ts'.
Proof.
  revert os. induction ts as [|t ts IH]; intros os Hlen.
  - now exists [].
  - destruct os as [|s0 [|s1 [|s2 os']]]; simpl in Hlen; try lia.
    destruct (IH os') as [ts' Hts']; [simpl in *; lia|].
    cbn. rewrite Hts'. eauto.
Qed.

Lemma accumulate_shares_nth (ts ts' : list triple) (os : octetStream) :
  accumulate_shares p ts os = Some ts' ->
  length ts' = length ts /\
  forall i d, (i < length ts)%nat ->
    nth i ts' d =
    Triple (Gfp.add p (tr_a (nth i ts d)) (nth (3 * i + 0) os 0))
           (Gfp.add p (tr_b (nth i ts d)) (nth (3 * i + 1) os 0))
           (Gfp.add p (tr_c (nth i ts d)) (nth (3 * i + 2) os 0)).
Proof.
  revert ts' os. induction ts as [|t ts IH]; intros ts' os H.
  - cbn in H. injection H as <-. split; [reflexivity|]. cbn; intros; lia.
  - destruct os as [|s0 [|s1 [|s2 os']]]; cbn in H; try discriminate.
    destruct (accumulate_shares p ts os') as [ts0|] eqn:E; [|discriminate].
    injection H as <-. destruct (IH _ _ E) as [Hl Hn].
    split; [cbn; now rewrite Hl|].
    intros [|i] d Hi; [reflexivity|].
    cbn [length] in Hi. cbn [nth].
    rewrite (Hn i d) by lia.
    replace (3 * S i + 0)%nat with (S (S (S (3 * i + 0)))) by lia.
    replace (3 * S i + 1)%nat with (S (S (S (3 * i + 1)))) by lia.
    replace (3 * S i + 2)%nat with (S (S (S (3 * i + 2)))) by lia.
    reflexivity.
Qed.

Lemma receive_triples_spec (inc : incoming) (num_inputs count first : nat)
      (ts : list triple) :
  length ts = num_inputs ->
  (forall j, (first <= j < first + count)%nat ->
     exists os, nth_error inc j = Some os /\ (3 * num_inputs <= length os)%nat) ->
  exists ts',
    receive_triples p inc first count ts = Some ts' /\
    length ts' = num_inputs /\
    forall i, (i < num_inputs)%nat ->
      nth i ts' triple_zero =
      Triple (sum_shares p inc first count (tr_a (nth i ts triple_zero)) i 0)
             (sum_shares p inc first count (tr_b (nth i ts triple_zero)) i 1)
             (sum_shares p inc first count (tr_c (nth i ts triple_zero)) i 2).
Proof.
  revert first ts. induction count as [|count IH]; intros first ts Hlen Hfr.
  - exists ts. cbn. repeat split; auto. intros i _. now destruct (nth i ts _).
  - destruct (Hfr first) as (os & Hos & Hlo); [lia|].
    destruct (accumulate_shares_some ts os) as [ts1 H1]; [lia|].
    destruct (accumulate_shares_nth _ _ _ H1) as [Hl1 Hn1].
    destruct (IH (S first) ts1) as (ts' & Hr & Hl' & Hn').
    + lia.
    + intros j Hj. apply Hfr. lia.
    + exists ts'. cbn [receive_triples]. rewrite Hos, H1.
      repeat split; auto.
      intros i Hi. rewrite (Hn' i Hi), (Hn1 i triple_zero) by lia.
      cbn [sum_shares tr_a tr_b tr_c]. unfold share.
      now rewrite (nth_error_nth _ _ _ Hos).
Qed.

Lemma receive_triples_aggregated (inc : incoming) (n_parties num_inputs : nat) :
  well_framed inc n_parties num_inputs ->
  exists ts,
    receive_triples p inc 0 n_parties (repeat triple_zero num_inputs) = Some ts /\
    length ts = num_inputs /\
    forall i, (i < num_inputs)%nat ->
      nth i ts triple_zero = aggregated p inc n_parties i.
Proof.
  intros Hwf.
  destruct (receive_triples_spec inc num_inputs n_parties 0
              (repeat triple_zero num_inputs)) as (ts & Hr & Hl & Hn).
  - apply repeat_length.
  - intros j Hj. apply Hwf. lia.
  - exists ts. repeat split; auto. intros i Hi. rewrite (Hn i Hi).
    now rewrite nth_repeat.
Qed.

Lemma check_triples_true (ts : list triple) :
  check_triples p ts = true <->
  forall i, (i < length ts)%nat -> triple_bad p (nth i ts triple_zero) = false.
Proof.
  induction ts as [|t ts IH]; cbn.
  - split; [intros _ i Hi; lia|reflexivity].
  - destruct (triple_bad p t) eqn:E.
    + split; [discriminate|]. intros H. specialize (H 0%nat ltac:(lia)).
      cbn in H. congruence.
    + rewrite IH. split.
      * intros H [|i] Hi; [exact E|]. apply H. lia.
      * intros H i Hi. apply (H (S i)). lia.
Qed.

Lemma triple_bad_false (t : triple) :
  triple_bad p t = false <-> Gfp.mul p (tr_a t) (tr_b t) = tr_c t.
Proof.
  unfold triple_bad, Gfp.eqb. rewrite negb_false_iff. apply Z.eqb_eq.
Qed.

Lemma mask_inputs_app (values : list gfp) (ts : list triple) (os : octetStream) :
  mask_inputs p values ts os = os ++ mask_inputs p values ts [].
Proof.
  revert ts os. induction values as [|v vs IH]; intros [|t ts] os;
    cbn [mask_inputs]; try now rewrite app_nil_r.
  rewrite (IH ts (pack _ os)), (IH ts (pack _ [])).
  unfold pack. cbn [app]. now rewrite <- app_assoc.
Qed.

Lemma mask_inputs_nth (values : list gfp) (ts : list triple) :
  length ts = length values ->
  length (mask_inputs p values ts []) = length values /\
  forall i, (i < length values)%nat ->
    nth i (mask_inputs p values ts []) 0 =
    Gfp.add p (nth i values 0) (tr_a (nth i ts triple_zero)).
Proof.
  revert ts. induction values as [|v vs IH]; intros [|t ts] Hl;
    try discriminate; cbn.
  - split; [reflexivity|intros; lia].
  - rewrite mask_inputs_app. unfold pack. cbn.
    destruct (IH ts) as [IHl IHn]; [cbn in Hl; lia|].
    split; [now rewrite IHl|].
    intros [|i] Hi; [reflexivity|]. apply IHn. lia.
Qed.

Lemma send_all_spec (os : octetStream) (first count : nat) (log : send_log) :
  send_all os first count log =
  log ++ map (fun j => (j, os)) (seq first count).
Proof.
  revert first log. induction count as [|c IH]; intros first log; cbn.
  - now rewrite app_nil_r.
  - rewrite IH, <- app_assoc. reflexivity.
Qed.

End ClientFacts.

Section ClientTheorems.

Variable p : Z.

Local Abbreviation agg inc n i := (aggregated p inc n i).

(** C1. With the engines' triple shares summed componentwise into the
    aggregated triples [(a_i, b_i, c_i)]: if some [i] has
    [a_i * b_i <> c_i] in the field, [send_private_inputs] ends the
    process with status 1 and the send log is exactly what it was on
    entry (nothing was written to any channel); if every triple
    satisfies [a_i * b_i = c_i], the call returns normally. *)
Theorem send_private_inputs_triple_check
        (values : list gfp) (inc : incoming) (n_parties : nat) (log : send_log) :
  well_framed inc n_parties (length values) ->
  ((exists i, (i < length values)%nat /\
      Gfp.mul p (tr_a (agg inc n_parties i)) (tr_b (agg inc n_parties i))
      <> tr_c (agg inc n_parties i)) ->
   send_private_inputs p values inc n_parties log = (log, Exited 1))
  /\
  ((forall i, (i < length values)%nat ->
      Gfp.mul p (tr_a (agg inc n_parties i)) (tr_b (agg inc n_parties i))
      = tr_c (agg inc n_parties i)) ->
   exists log', send_private_inputs p values inc n_parties log
                = (log', Returned tt)).
Proof.
  intros Hwf.
  destruct (receive_triples_aggregated p inc n_parties (length values) Hwf)
    as (ts & Hr & Hl & Hn).
  unfold send_private_inputs. rewrite Hr.
  destruct (check_triples p ts) eqn:Hc.
  - split; [|eauto].
    intros (i & Hi & Hbad). exfalso. apply Hbad.
    rewrite check_triples_true in Hc. rewrite Hl in Hc.
    specialize (Hc i Hi). rewrite (Hn i Hi) in Hc.
    now apply triple_bad_false.
  - split; [reflexivity|].
    intros Hall. exfalso.
    assert (check_triples p ts = true) as Hc'; [|congruence].
    apply check_triples_true. rewrite Hl. intros i Hi.
    rewrite (Hn i Hi). apply triple_bad_false. now apply Hall.
Qed.

(** C2. When every aggregated triple passes the check, the buffer
    [ys] that is sent holds [y_i = values[i] + a_i] at position [i],
    the same [ys] is sent to sockets [0 .. n_parties - 1] in that
    order, and [y_i - a_i] is [values[i]] in the field (and is
    [values[i]] itself when that is a canonical representative). *)
Theorem send_private_inputs_masking
        (values : list gfp) (inc : incoming) (n_parties : nat) (log : send_log) :
  well_framed inc n_parties (length values) ->
  (forall i, (i < length values)%nat ->
      Gfp.mul p (tr_a (agg inc n_parties i)) (tr_b (agg inc n_parties i))
      = tr_c (agg inc n_parties i)) ->
  exists ys,
    send_private_inputs p values inc n_parties log
    = (log ++ map (fun j => (j, ys)) (seq 0 n_parties), Returned tt) /\
    length ys = length values /\
    forall i, (i < length values)%nat ->
      nth i ys 0 = Gfp.add p (nth i values 0) (tr_a (agg inc n_parties i)) /\
      Gfp.sub p (nth i ys 0) (tr_a (agg inc n_parties i))
      = (nth i values 0) mod p /\
      (Gfp.canonical p (nth i values 0) ->
       Gfp.sub p (nth i ys 0) (tr_a (agg inc n_parties i)) = nth i values 0).
Proof.
  intros Hwf Hall.
  destruct (receive_triples_aggregated p inc n_parties (length values) Hwf)
    as (ts & Hr & Hl & Hn).
  assert (check_triples p ts = true) as Hc.
  { apply check_triples_true. rewrite Hl. intros i Hi.
    rewrite (Hn i Hi). apply triple_bad_false. now apply Hall. }
  destruct (mask_inputs_nth p values ts Hl) as [Hyl Hyn].
  exists (mask_inputs p values ts []).
  unfold send_private_inputs. rewrite Hr, Hc, send_all_spec.
  repeat split; auto.
  - rewrite (Hyn i H), (Hn i H). reflexivity.
  - rewrite (Hyn i H), (Hn i H). unfold Gfp.sub, Gfp.add.
    rewrite Zminus_mod_idemp_l. f_equal. lia.
  - intros Hcan. rewrite (Hyn i H), (Hn i H). unfold Gfp.sub, Gfp.add.
    rewrite Zminus_mod_idemp_l.
    replace (nth i values 0 + _ - _) with (nth i values 0) by lia.
    apply Z.mod_small, Hcan.
Qed.

End ClientTheorems.

(** A run with two engines over the field of 101 elements: the shares
    [(2,3,6)] and [(1,1,2)] add up to [(3,4,8)], and [3 * 4 <> 8]. *)
Lemma send_private_inputs_triple_check_witness :
  well_framed [[2; 3; 6]; [1; 1; 2]] 2 (length [5]) /\
  send_private_inputs 101 [5] [[2; 3; 6]; [1; 1; 2]] 2 [] = ([], Exited 1).
Proof.
  assert (well_framed [[2; 3; 6]; [1; 1; 2]] 2 (length [5])) as Hwf.
  { intros [|[|j]] Hj; [eexists; split; [reflexivity|simpl; lia]..|lia]. }
  split; [exact Hwf|].
  apply (proj1 (send_private_inputs_triple_check 101 [5] _ 2 [] Hwf)).
  exists 0%nat. split; [simpl; lia|]. vm_compute. discriminate.
Defined.

(** A run with two engines over the field of 101 elements: the shares
    [(2,3,6)] and [(1,1,6)] add up to [(3,4,12)]; the value 5 leaves the
    client as [5 + 3 = 8] on both sockets. *)
Lemma send_private_inputs_masking_witness :
  exists ys,
    send_private_inputs 101 [5] [[2; 3; 6]; [1; 1; 6]] 2 []
    = ([] ++ map (fun j => (j, ys)) (seq 0 2), Returned tt) /\
    length ys = length [5] /\
    forall i, (i < length [5])%nat ->
      nth i ys 0
      = Gfp.add 101 (nth i [5] 0)
          (tr_a (aggregated 101 [[2; 3; 6]; [1; 1; 6]] 2 i)) /\
      Gfp.sub 101 (nth i ys 0) (tr_a (aggregated 101 [[2; 3; 6]; [1; 1; 6]] 2 i))
      = (nth i [5] 0) mod 101 /\
      (Gfp.canonical 101 (nth i [5] 0) ->
       Gfp.sub 101 (nth i ys 0) (tr_a (aggregated 101 [[2; 3; 6]; [1; 1; 6]] 2 i))
       = nth i [5] 0).
Proof.
  apply (send_private_inputs_masking 101 [5] [[2; 3; 6]; [1; 1; 6]] 2 []).
  - intros [|[|j]] Hj; [eexists; split; [reflexivity|simpl; lia]..|lia].
  - intros [|i] Hi; [vm_compute; reflexivity|simpl in Hi; lia].
Defined.

(** *** The routines on the vector of sockets *)

Section WireFacts.

Variable p : Z.

(** With a socket for every engine the routines are the ones above. *)
Lemma wire_receive_triples_within (sockets : list Z) (inc : incoming)
      (count first : nat) (ts : list triple) :
  (first + count <= length sockets)%nat ->
  Wire.receive_triples p sockets inc first count ts
  = match receive_triples p inc first count ts with
    | Some ts' => Returned ts'
    | None => Failed
    end.
Proof.
  revert first ts. induction count as [|c IH]; intros first ts H; [reflexivity|].
  cbn [Wire.receive_triples receive_triples]. unfold vec_at.
  destruct (nth_error sockets first) as [s|] eqn:Hs;
    [|apply nth_error_None in Hs; lia].
  destruct (nth_error inc first) as [os|]; [|reflexivity].
  destruct (accumulate_shares p ts os) as [ts1|]; [|reflexivity].
  apply IH. lia.
Qed.

(** With fewer sockets than engines the loop goes through the engines
    that have one and then reads [sockets] out of range. *)
Lemma wire_receive_triples_short (sockets : list Z) (inc : incoming)
      (count first : nat) (ts : list triple) :
  (first <= length sockets < first + count)%nat ->
  Wire.receive_triples p sockets inc first count ts
  = match receive_triples p inc first (length sockets - first) ts with
    | Some _ => Undefined
    | None => Failed
    end.
Proof.
  revert first ts. induction count as [|c IH]; intros first ts H; [lia|].
  cbn [Wire.receive_triples]. unfold vec_at.
  destruct (nth_error sockets first) as [s|] eqn:Hs.
  - assert (first < length sockets)%nat as Hlt
        by (apply nth_error_Some; congruence).
    replace (length sockets - first)%nat with (S (length sockets - S first)) by lia.
    cbn [receive_triples].
    destruct (nth_error inc first) as [os|]; [|reflexivity].
    destruct (accumulate_shares p ts os) as [ts1|]; [|reflexivity].
    apply IH. lia.
  - apply nth_error_None in Hs.
    replace (length sockets - first)%nat with 0%nat by lia. reflexivity.
Qed.

Lemma wire_receive_outputs_within (sockets : list Z) (inc : incoming)
      (count first : nat) (outs : list gfp) :
  (first + count <= length sockets)%nat ->
  Wire.receive_outputs p sockets inc first count outs
  = match receive_outputs p inc first count outs with
    | Some outs' => Returned outs'
    | None => Failed
    end.
Proof.
  revert first outs. induction count as [|c IH]; intros first outs H; [reflexivity|].
  cbn [Wire.receive_outputs receive_outputs]. unfold vec_at.
  destruct (nth_error sockets first) as [s|] eqn:Hs;
    [|apply nth_error_None in Hs; lia].
  destruct (nth_error inc first) as [os|]; [|reflexivity].
  destruct (accumulate_outputs p outs os) as [outs1|]; [|reflexivity].
  apply IH. lia.
Qed.

Lemma wire_receive_outputs_short (sockets : list Z) (inc : incoming)
      (count first : nat) (outs : list gfp) :
  (first <= length sockets < first + count)%nat ->
  Wire.receive_outputs p sockets inc first count outs
  = match receive_outputs p inc first (length sockets - first) outs with
    | Some _ => Undefined
    | None => Failed
    end.
Proof.
  revert first outs. induction count as [|c IH]; intros first outs H; [lia|].
  cbn [Wire.receive_outputs]. unfold vec_at.
  destruct (nth_error sockets first) as [s|] eqn:Hs.
  - assert (first < length sockets)%nat as Hlt
        by (apply nth_error_Some; congruence).
    replace (length sockets - first)%nat with (S (length sockets - S first)) by lia.
    cbn [receive_outputs].
    destruct (nth_error inc first) as [os|]; [|reflexivity].
    destruct (accumulate_outputs p outs os) as [outs1|]; [|reflexivity].
    apply IH. lia.
  - apply nth_error_None in Hs.
    replace (length sockets - first)%nat with 0%nat by lia. reflexivity.
Qed.

Lemma wire_send_all_within (os : octetStream) (sockets : list Z)
      (count first : nat) (log : send_log) :
  (first + count <= length sockets)%nat ->
  Wire.send_all os sockets first count log
  = (send_all os first count log, Returned tt).
Proof.
  revert first log. induction count as [|c IH]; intros first log H; [reflexivity|].
  cbn [Wire.send_all send_all]. unfold vec_at.
  destruct (nth_error sockets first) as [s|] eqn:Hs;
    [|apply nth_error_None in Hs; lia].
  apply IH. lia.
Qed.

Lemma wire_send_private_inputs_within (values : list gfp) (sockets : list Z)
      (inc : incoming) (n_parties : nat) (log : send_log) :
  (n_parties <= length sockets)%nat ->
  Wire.send_private_inputs p values sockets inc n_parties log
  = send_private_inputs p values inc n_parties log.
Proof.
  intros H. unfold Wire.send_private_inputs, send_private_inputs.
  rewrite wire_receive_triples_within by lia.
  destruct (receive_triples p inc 0 n_parties _) as [ts|]; [|reflexivity].
  destruct (check_triples p ts); [|reflexivity].
  apply wire_send_all_within. lia.
Qed.

Lemma wire_send_private_batch_shares_within (shares : list float)
      (sockets : list Z) (inc : incoming) (n_parties : nat) (log : send_log) :
  (n_parties <= length sockets)%nat ->
  Wire.send_private_batch_shares p shares sockets inc n_parties log
  = send_private_batch_shares p shares inc n_parties log.
Proof.
  intros H. unfold Wire.send_private_batch_shares, send_private_batch_shares.
  destruct (encode_shares shares); [|reflexivity].
  now apply wire_send_private_inputs_within.
Qed.

Lemma wire_receive_result_within (sockets : list Z) (inc : incoming)
      (n_parties size : nat) :
  (n_parties <= length sockets)%nat ->
  Wire.receive_result p sockets inc n_parties size
  = receive_result p inc n_parties size.
Proof.
  intros H. unfold Wire.receive_result, receive_result.
  rewrite wire_receive_outputs_within by lia.
  now destruct (receive_outputs p inc 0 n_parties _).
Qed.

End WireFacts.
(** *** Loops *)

Lemma for_range_ext {S : Type} (from count : nat)
      (body body' : nat -> S -> option S) (s : S) :
  (forall i t, (from <= i < from + count)%nat -> body i t = body' i t) ->
  for_range from count body s = for_range from count body' s.
Proof.
  revert from s. induction count as [|c IH]; intros from s H; [reflexivity|].
  cbn. rewrite (H from s) by lia. destruct (body' from s); [|reflexivity].
  apply IH. intros i t Hi. apply H. lia.
Qed.

(** A loop whose every iteration pushes one element. *)
Lemma for_range_push {A : Type} (from count : nat) (g : nat -> A)
      (body : nat -> list A -> option (list A)) (s : list A) :
  (forall i t, (from <= i < from + count)%nat ->
               body i t = Some (push_back t (g i))) ->
  for_range from count body s = Some (s ++ map g (seq from count)).
Proof.
  revert from s. induction count as [|c IH]; intros from s H; cbn.
  - now rewrite app_nil_r.
  - rewrite (H from s) by lia. rewrite IH.
    + unfold push_back. now rewrite <- app_assoc.
    + intros i t Hi. apply H. lia.
Qed.

(** *** Order on [float] *)

Lemma lex_lt_trans (a b c : Z * Z * Z) : lex_lt a b -> lex_lt b c -> lex_lt a c.
Proof. destruct a as [[? ?] ?], b as [[? ?] ?], c as [[? ?] ?]. cbn. lia. Qed.

Lemma lex_lt_irrefl (a : Z * Z * Z) : ~ lex_lt a a.
Proof. destruct a as [[? ?] ?]. cbn. lia. Qed.

Lemma lex_trichotomy (a b : Z * Z * Z) : lex_lt a b \/ a = b \/ lex_lt b a.
Proof.
  destruct a as [[a1 a2] a3], b as [[b1 b2] b3]. cbn.
  destruct (Z.lt_trichotomy a1 b1) as [?|[?|?]];
  destruct (Z.lt_trichotomy a2 b2) as [?|[?|?]];
  destruct (Z.lt_trichotomy a3 b3) as [?|[?|?]]; subst; auto; lia.
Qed.

Lemma SFcompare_rank (x y : float) :
  F32.is_nan x = false -> F32.is_nan y = false ->
  (SFcompare x y = Some Lt <-> lex_lt (rank x) (rank y)) /\
  (SFcompare x y = Some Eq <-> rank x = rank y) /\
  (SFcompare x y = Some Gt <-> lex_lt (rank y) (rank x)).
Proof.
  intros Hx Hy.
  destruct x as [sx|sx| |sx mx ex], y as [sy|sy| |sy my ey];
    try discriminate; try destruct sx; try destruct sy; cbn;
    try (repeat split; intros H; solve [discriminate | reflexivity | lia
                                       | inversion H | exfalso; lia]).
  - change (Pos.compare_cont Eq mx my) with (Pos.compare mx my).
    destruct (Z.compare_spec ex ey) as [He|He|He];
      [destruct (Pos.compare_spec mx my) as [Hm|Hm|Hm]|..]; cbn;
      repeat split; intros HH; try discriminate; try reflexivity; subst;
        try lia; try (inversion HH; lia); try (exfalso; lia); try congruence.
  - change (Pos.compare_cont Eq mx my) with (Pos.compare mx my).
    destruct (Z.compare_spec ex ey) as [He|He|He];
      [destruct (Pos.compare_spec mx my) as [Hm|Hm|Hm]|..]; cbn;
      repeat split; intros HH; try discriminate; try reflexivity; subst;
        try lia; try (inversion HH; lia); try (exfalso; lia); try congruence.
Qed.

Lemma SFcompare_cases (x y : float) :
  F32.is_nan x = false -> F32.is_nan y = false ->
  (SFcompare x y = Some Lt /\ lex_lt (rank x) (rank y)) \/
  (SFcompare x y = Some Eq /\ rank x = rank y) \/
  (SFcompare x y = Some Gt /\ lex_lt (rank y) (rank x)).
Proof.
  intros Hx Hy. destruct (SFcompare_rank x y Hx Hy) as (Hlt & Heq & Hgt).
  destruct (lex_trichotomy (rank x) (rank y)) as [H|[H|H]].
  - left. split; [now apply Hlt|exact H].
  - right; left. split; [now apply Heq|exact H].
  - right; right. split; [now apply Hgt|exact H].
Qed.

Lemma SFcompare_nan_l (y : float) : SFcompare S754_nan y = None.
Proof. reflexivity. Qed.

Lemma SFcompare_nan_r (x : float) : SFcompare x S754_nan = None.
Proof. now destruct x. Qed.

Lemma is_nan_true (x : float) : F32.is_nan x = true -> x = S754_nan.
Proof. now destruct x. Qed.

Lemma ltb_rank (x y : float) :
  F32.is_nan x = false -> F32.is_nan y = false ->
  (F32.ltb x y = true <-> lex_lt (rank x) (rank y)).
Proof.
  intros Hx Hy. unfold F32.ltb, SFltb.
  destruct (SFcompare_cases x y Hx Hy) as [[E H]|[[E H]|[E H]]]; rewrite E.
  - tauto.
  - split; [discriminate|]. rewrite H. intros C. now apply lex_lt_irrefl in C.
  - split; [discriminate|]. intros C.
    exfalso. exact (lex_lt_irrefl _ (lex_lt_trans _ _ _ C H)).
Qed.

Lemma eqb_rank (x y : float) :
  F32.is_nan x = false -> F32.is_nan y = false ->
  (F32.eqb x y = true <-> rank x = rank y).
Proof.
  intros Hx Hy. unfold F32.eqb, SFeqb.
  destruct (SFcompare_cases x y Hx Hy) as [[E H]|[[E H]|[E H]]]; rewrite E.
  - split; [discriminate|]. intros C. rewrite C in H. now apply lex_lt_irrefl in H.
  - tauto.
  - split; [discriminate|]. intros C. rewrite C in H. now apply lex_lt_irrefl in H.
Qed.

Lemma leb_rank (x y : float) :
  F32.is_nan x = false -> F32.is_nan y = false ->
  (F32.leb x y = true <-> lex_lt (rank x) (rank y) \/ rank x = rank y).
Proof.
  intros Hx Hy. unfold F32.leb, SFleb.
  destruct (SFcompare_cases x y Hx Hy) as [[E H]|[[E H]|[E H]]]; rewrite E.
  - tauto.
  - tauto.
  - split; [discriminate|]. intros [C|C].
    + exfalso. exact (lex_lt_irrefl _ (lex_lt_trans _ _ _ C H)).
    + rewrite C in H. now apply lex_lt_irrefl in H.
Qed.

Lemma eqb_true_not_nan (x y : float) :
  F32.eqb x y = true -> F32.is_nan x = false /\ F32.is_nan y = false.
Proof.
  unfold F32.eqb, SFeqb. destruct x, y; cbn; try discriminate; auto.
Qed.

Lemma ltb_true_not_nan (x y : float) :
  F32.ltb x y = true -> F32.is_nan x = false /\ F32.is_nan y = false.
Proof.
  unfold F32.ltb, SFltb. destruct x, y; cbn; try discriminate; auto.
Qed.

Lemma eqb_refl (x : float) : F32.is_nan x = false -> F32.eqb x x = true.
Proof. intros H. now apply eqb_rank. Qed.

Lemma eqb_sym (x y : float) : F32.eqb x y = F32.eqb y x.
Proof.
  destruct (F32.eqb x y) eqn:E, (F32.eqb y x) eqn:E'; auto.
  - destruct (eqb_true_not_nan _ _ E) as [Hx Hy].
    apply eqb_rank in E; auto. symmetry in E. apply eqb_rank in E; auto. congruence.
  - destruct (eqb_true_not_nan _ _ E') as [Hy Hx].
    apply eqb_rank in E'; auto. symmetry in E'. apply eqb_rank in E'; auto. congruence.
Qed.

Lemma eqb_trans (x y z : float) :
  F32.eqb x y = true -> F32.eqb y z = true -> F32.eqb x z = true.
Proof.
  intros H1 H2.
  destruct (eqb_true_not_nan _ _ H1) as [Hx Hy].
  destruct (eqb_true_not_nan _ _ H2) as [_ Hz].
  apply eqb_rank in H1; auto. apply eqb_rank in H2; auto.
  apply eqb_rank; auto. congruence.
Qed.

Lemma ltb_irrefl (x : float) : F32.ltb x x = false.
Proof.
  destruct (F32.ltb x x) eqn:E; [|reflexivity].
  destruct (ltb_true_not_nan _ _ E) as [Hx _].
  apply ltb_rank in E; auto. now apply lex_lt_irrefl in E.
Qed.

Lemma ltb_trans (x y z : float) :
  F32.ltb x y = true -> F32.ltb y z = true -> F32.ltb x z = true.
Proof.
  intros H1 H2.
  destruct (ltb_true_not_nan _ _ H1) as [Hx Hy].
  destruct (ltb_true_not_nan _ _ H2) as [_ Hz].
  apply ltb_rank in H1; auto. apply ltb_rank in H2; auto.
  apply ltb_rank; auto. eapply lex_lt_trans; eauto.
Qed.

(** On numbers, [x <= y] is the negation of [y < x]. *)
Lemma leb_negb_ltb (x y : float) :
  F32.is_nan x = false -> F32.is_nan y = false ->
  F32.leb x y = negb (F32.ltb y x).
Proof.
  intros Hx Hy. unfold F32.leb, F32.ltb, SFleb, SFltb.
  destruct (SFcompare_cases x y Hx Hy) as [[E H]|[[E H]|[E H]]];
  destruct (SFcompare_cases y x Hy Hx) as [[E' H']|[[E' H']|[E' H']]];
    rewrite E, E'; try reflexivity; exfalso;
      try (rewrite H' in H; now apply lex_lt_irrefl in H);
      try (rewrite H in H'; now apply lex_lt_irrefl in H');
      exact (lex_lt_irrefl _ (lex_lt_trans _ _ _ H H')).
Qed.

Lemma ltb_total (x y : float) :
  F32.is_nan x = false -> F32.is_nan y = false ->
  F32.ltb x y = false -> F32.eqb x y = false -> F32.ltb y x = true.
Proof.
  intros Hx Hy Hlt Heq.
  destruct (lex_trichotomy (rank x) (rank y)) as [H|[H|H]].
  - apply ltb_rank in H; auto. congruence.
  - apply eqb_rank in H; auto. congruence.
  - now apply ltb_rank.
Qed.

Lemma leb_trans (x y z : float) :
  F32.leb x y = true -> F32.leb y z = true -> F32.leb x z = true.
Proof.
  intros H1 H2.
  assert (F32.is_nan x = false /\ F32.is_nan y = false) as [Hx Hy].
  { unfold F32.leb, SFleb in H1. destruct x, y; cbn in *; try discriminate; auto. }
  assert (F32.is_nan z = false) as Hz.
  { unfold F32.leb, SFleb in H2. destruct y, z; cbn in *; try discriminate; auto. }
  apply leb_rank in H1; auto. apply leb_rank in H2; auto. apply leb_rank; auto.
  destruct H1 as [H1|H1], H2 as [H2|H2].
  - left. eapply lex_lt_trans; eauto.
  - left. now rewrite <- H2.
  - left. now rewrite H1.
  - right. congruence.
Qed.

(** Two numbers that compare equal are the same datum, unless both are
    zeros (of either sign). *)
Lemma eqb_eq_or_zero (x y : float) :
  F32.eqb x y = true ->
  x = y \/ (exists s s', x = S754_zero s /\ y = S754_zero s').
Proof.
  intros H. destruct (eqb_true_not_nan _ _ H) as [Hx Hy].
  apply eqb_rank in H; auto.
  destruct x as [sx|sx| |sx mx ex], y as [sy|sy| |sy my ey];
    try discriminate; try destruct sx; try destruct sy; cbn in H;
      try discriminate; eauto; left; try reflexivity.
  - injection H as He Hm. f_equal; lia.
  - injection H as He Hm. f_equal; lia.
Qed.

(** *** The indicator vector encoder *)

Lemma skipn_nth_error_cons {A : Type} (l : list A) (n : nat) (x : A) :
  nth_error l n = Some x -> skipn n l = x :: skipn (S n) l.
Proof.
  revert n. induction l as [|a l IH]; intros [|n] H; try discriminate.
  - now injection H as ->.
  - cbn in H. cbn [skipn]. rewrite (IH n H). reflexivity.
Qed.

Lemma split_ivs_loop (feature_values split_values : list float)
      (count from : nat) (L R : list (list Z)) :
  (from + count = length split_values - 1)%nat ->
  for_range from count
    (fun s ivs =>
       match vec_at split_values (s + 1) with
       | None => None
       | Some cur_split_value =>
         Some (push_back (fst ivs) (split_iv_left feature_values cur_split_value),
               push_back (snd ivs) (split_iv_right feature_values cur_split_value))
       end) (L, R)
  = Some (L ++ map (split_iv_left feature_values) (skipn (from + 1) split_values),
          R ++ map (split_iv_right feature_values) (skipn (from + 1) split_values)).
Proof.
  revert from L R. induction count as [|c IH]; intros from L R H.
  - cbn. rewrite skipn_all2 by lia. cbn. now rewrite !app_nil_r.
  - cbn [for_range]. unfold vec_at.
    destruct (nth_error split_values (from + 1)) as [x|] eqn:E.
    + rewrite (IH (S from)) by lia. cbn [fst snd]. unfold push_back.
      rewrite (skipn_nth_error_cons _ _ _ E). cbn [map].
      replace (S from + 1)%nat with (S (from + 1)) by lia.
      now rewrite <- !app_assoc.
    + apply nth_error_None in E. lia.
Qed.

(** The encoder pushes one row pair per element of [split_values] after
    the first. *)
Lemma compute_feature_split_ivs_rows
      (feature_values split_values : list float) (L R : list (list Z)) :
  compute_feature_split_ivs feature_values split_values L R
  = Some (L ++ map (split_iv_left feature_values) (tl split_values),
          R ++ map (split_iv_right feature_values) (tl split_values)).
Proof.
  unfold compute_feature_split_ivs.
  rewrite split_ivs_loop by lia. cbn [Nat.add]. now destruct split_values.
Qed.

Lemma nth_map_lt {A B : Type} (f : A -> B) (l : list A) (i : nat) (da : A) (db : B) :
  (i < length l)%nat -> nth i (map f l) db = f (nth i l da).
Proof.
  revert i. induction l as [|a l IH]; intros [|i] H; cbn in *; try lia; auto.
  apply IH. lia.
Qed.

Lemma split_iv_left_nth (fv : list float) (t : float) (i : nat) :
  (i < length fv)%nat ->
  nth i (split_iv_left fv t) 0 = if F32.leb (nth i fv S754_nan) t then 1 else 0.
Proof. intros Hi. unfold split_iv_left. now rewrite (nth_map_lt _ _ _ S754_nan). Qed.

Lemma split_iv_right_nth (fv : list float) (t : float) (i : nat) :
  (i < length fv)%nat ->
  nth i (split_iv_right fv t) 0 = if F32.leb (nth i fv S754_nan) t then 0 else 1.
Proof. intros Hi. unfold split_iv_right. now rewrite (nth_map_lt _ _ _ S754_nan). Qed.

Lemma class_found_existsb (classes : list float) (l : float) :
  class_found classes l = existsb (fun c => F32.eqb c l) classes.
Proof.
  induction classes as [|c cs IH]; cbn; [reflexivity|].
  rewrite IH. now destruct (F32.eqb c l).
Qed.

Lemma collect_classes_first_occurrences (labels acc seen : list float) :
  (forall x, class_found acc x = existsb (fun s => F32.eqb s x) seen) ->
  collect_classes labels acc = acc ++ first_occurrences seen labels.
Proof.
  revert acc seen. induction labels as [|l rest IH]; intros acc seen H; cbn.
  - now rewrite app_nil_r.
  - rewrite <- H. destruct (class_found acc l) eqn:E.
    + apply IH. intros x. rewrite existsb_app, <- H. cbn. rewrite orb_false_r.
      destruct (F32.eqb l x) eqn:Ex; [|now rewrite orb_false_r].
      rewrite orb_true_r. rewrite class_found_existsb in *.
      apply existsb_exists in E. destruct E as (c & Hc & Hcl).
      apply existsb_exists. exists c. split; [exact Hc|].
      eapply eqb_trans; eauto.
    + rewrite (IH (push_back acc l) (seen ++ [l])).
      * unfold push_back. now rewrite <- app_assoc.
      * intros x. unfold push_back.
        rewrite class_found_existsb, !existsb_app, <- class_found_existsb, H.
        reflexivity.
Qed.

Lemma first_occurrences_unseen (labels seen : list float) (c : float) :
  In c (first_occurrences seen labels) ->
  existsb (fun s => F32.eqb s c) seen = false.
Proof.
  revert seen. induction labels as [|l rest IH]; intros seen H; cbn in H.
  - contradiction.
  - destruct (existsb (fun s => F32.eqb s l) seen) eqn:E.
    + apply IH in H. rewrite existsb_app in H. now apply orb_false_iff in H.
    + destruct H as [<-|H]; [exact E|].
      apply IH in H. rewrite existsb_app in H. now apply orb_false_iff in H.
Qed.

Lemma first_occurrences_distinct (labels seen : list float) (a b : nat) :
  (a < b < length (first_occurrences seen labels))%nat ->
  F32.eqb (nth a (first_occurrences seen labels) S754_nan)
          (nth b (first_occurrences seen labels) S754_nan) = false.
Proof.
  revert seen a b. induction labels as [|l rest IH]; intros seen a b H; cbn in *.
  - lia.
  - destruct (existsb (fun s => F32.eqb s l) seen) eqn:E; [now apply IH|].
    cbn [length] in H. destruct b as [|b]; [lia|]. destruct a as [|a].
    + cbn [nth].
      assert (In (nth b (first_occurrences (seen ++ [l]) rest) S754_nan)
                 (first_occurrences (seen ++ [l]) rest)) as Hin
          by (apply nth_In; lia).
      apply first_occurrences_unseen in Hin.
      rewrite existsb_app in Hin. apply orb_false_iff in Hin.
      destruct Hin as [_ Hin]. cbn in Hin. now rewrite orb_false_r in Hin.
    + cbn [nth]. apply IH. lia.
Qed.

Lemma first_occurrences_cover (labels seen : list float) (x : float) :
  In x labels -> F32.is_nan x = false ->
  exists c, In c (seen ++ first_occurrences seen labels) /\ F32.eqb c x = true.
Proof.
  revert seen. induction labels as [|l rest IH]; intros seen Hin Hx; cbn in *.
  - contradiction.
  - destruct (existsb (fun s => F32.eqb s l) seen) eqn:E.
    + destruct Hin as [->|Hin].
      * apply existsb_exists in E. destruct E as (c & Hc & Hcx).
        exists c. split; [apply in_or_app; now left|exact Hcx].
      * destruct (IH (seen ++ [l]) Hin Hx) as (c & Hc & Hcx).
        rewrite <- app_assoc in Hc. apply in_app_or in Hc.
        destruct Hc as [Hc|Hc].
        -- exists c. split; [apply in_or_app; now left|exact Hcx].
        -- apply in_app_or in Hc. destruct Hc as [[<-|[]]|Hc].
           ++ apply existsb_exists in E. destruct E as (s & Hs & Hsl).
              exists s. split; [apply in_or_app; now left|].
              eapply eqb_trans; eauto.
           ++ exists c. split; [apply in_or_app; now right|exact Hcx].
    + destruct Hin as [->|Hin].
      * exists x. split; [apply in_or_app; right; now left|now apply eqb_refl].
      * destruct (IH (seen ++ [l]) Hin Hx) as (c & Hc & Hcx).
        rewrite <- app_assoc in Hc. exists c. split; [|exact Hcx].
        apply in_app_or in Hc. apply in_or_app. destruct Hc as [Hc|Hc]; auto.
Qed.

(** C8 (amended). [compute_feature_split_ivs] pushes, for every split
    [s] and sample [i], a left entry that is 1 exactly when
    [feature_values[i] <= split_values[s + 1]] and a right entry that is
    1 exactly when it is not, so the two entries add up to 1.
    [compute_label_class_ivs] has one row per label that no earlier
    label compares equal to, in order of first occurrence; when no label
    is a NaN, every sample has a 1 in exactly one class row. *)
Theorem indicator_partition (feature_values split_values labels : list float) :
  (exists lft rgt,
      compute_feature_split_ivs feature_values split_values [] [] = Some (lft, rgt) /\
      length lft = (length split_values - 1)%nat /\
      length rgt = (length split_values - 1)%nat /\
      forall s i, (s < length split_values - 1)%nat ->
                  (i < length feature_values)%nat ->
        (nth i (nth s lft []) 0 = 1 <->
         F32.leb (nth i feature_values S754_nan)
                 (nth (s + 1) split_values S754_nan) = true) /\
        (nth i (nth s rgt []) 0 = 1 <->
         F32.leb (nth i feature_values S754_nan)
                 (nth (s + 1) split_values S754_nan) = false) /\
        nth i (nth s lft []) 0 + nth i (nth s rgt []) 0 = 1) /\
  compute_label_class_ivs labels
  = map (class_iv labels) (first_occurrences [] labels) /\
  ((forall l, In l labels -> F32.is_nan l = false) ->
   forall i, (i < length labels)%nat ->
     exists j, (j < length (compute_label_class_ivs labels))%nat /\
       nth i (nth j (compute_label_class_ivs labels) []) 0 = 1 /\
       forall k, (k < length (compute_label_class_ivs labels))%nat -> k <> j ->
                 nth i (nth k (compute_label_class_ivs labels) []) 0 = 0).
Proof.
  split; [|split; [|intros Hnan]].
  - exists (map (split_iv_left feature_values) (tl split_values)),
           (map (split_iv_right feature_values) (tl split_values)).
    rewrite compute_feature_split_ivs_rows. cbn [app].
    assert (length (tl split_values) = (length split_values - 1)%nat) as Hl
        by (destruct split_values; cbn; lia).
    repeat split; try (now rewrite length_map).
    + rewrite (nth_map_lt _ _ _ S754_nan) by lia.
      rewrite split_iv_left_nth by assumption.
      replace (nth s (tl split_values) S754_nan)
        with (nth (s + 1) split_values S754_nan)
        by (destruct split_values; [now destruct s|now rewrite Nat.add_1_r]).
      destruct (F32.leb _ _); [reflexivity|discriminate].
    + rewrite (nth_map_lt _ _ _ S754_nan) by lia.
      rewrite split_iv_left_nth by assumption.
      replace (nth s (tl split_values) S754_nan)
        with (nth (s + 1) split_values S754_nan)
        by (destruct split_values; [now destruct s|now rewrite Nat.add_1_r]).
      destruct (F32.leb _ _); [reflexivity|discriminate].
    + rewrite (nth_map_lt _ _ _ S754_nan) by lia.
      rewrite split_iv_right_nth by assumption.
      replace (nth s (tl split_values) S754_nan)
        with (nth (s + 1) split_values S754_nan)
        by (destruct split_values; [now destruct s|now rewrite Nat.add_1_r]).
      destruct (F32.leb _ _); [discriminate|reflexivity].
    + rewrite (nth_map_lt _ _ _ S754_nan) by lia.
      rewrite split_iv_right_nth by assumption.
      replace (nth s (tl split_values) S754_nan)
        with (nth (s + 1) split_values S754_nan)
        by (destruct split_values; [now destruct s|now rewrite Nat.add_1_r]).
      destruct (F32.leb _ _); [discriminate|reflexivity].
    + rewrite !(nth_map_lt _ _ _ S754_nan) by lia.
      rewrite split_iv_left_nth, split_iv_right_nth by assumption.
      now destruct (F32.leb _ _).
  - unfold compute_label_class_ivs.
    now rewrite (collect_classes_first_occurrences labels [] []).
  - unfold compute_label_class_ivs.
    rewrite (collect_classes_first_occurrences labels [] []) by reflexivity.
    cbn [app]. set (classes := first_occurrences [] labels).
    intros i Hi. rewrite length_map.
    assert (forall j, (j < length classes)%nat ->
              nth i (nth j (map (class_iv labels) classes) []) 0
              = if F32.eqb (nth i labels S754_nan) (nth j classes S754_nan)
                then 1 else 0) as Hentry.
    { intros j Hj. rewrite (nth_map_lt _ _ _ S754_nan) by assumption.
      unfold class_iv. now rewrite (nth_map_lt _ _ _ S754_nan). }
    set (l := nth i labels S754_nan) in *.
    assert (In l labels) as Hl by (apply nth_In; exact Hi).
    destruct (first_occurrences_cover labels [] l Hl (Hnan l Hl)) as (c & Hc & Hcl).
    cbn [app] in Hc. fold classes in Hc.
    destruct (In_nth _ _ S754_nan Hc) as (j & Hj & Hjc).
    exists j. split; [exact Hj|]. split.
    + rewrite (Hentry j Hj), Hjc, eqb_sym, Hcl. reflexivity.
    + intros k Hk Hkj. rewrite (Hentry k Hk).
      destruct (F32.eqb l (nth k classes S754_nan)) eqn:E; [|reflexivity].
      exfalso.
      assert (F32.eqb (nth j classes S754_nan) (nth k classes S754_nan) = true) as Hjk.
      { rewrite Hjc. eapply eqb_trans; eauto. }
      destruct (Nat.lt_total j k) as [Hlt|[Heq|Hlt]]; [|congruence|].
      * unfold classes in Hjk.
        rewrite first_occurrences_distinct in Hjk by (fold classes; lia).
        discriminate.
      * rewrite eqb_sym in Hjk. unfold classes in Hjk.
        rewrite first_occurrences_distinct in Hjk by (fold classes; lia).
        discriminate.
Qed.

(** Three labels of two classes. *)
Lemma indicator_partition_witness :
  compute_label_class_ivs [F32.of_Z 3; F32.of_Z 1; F32.of_Z 3]
  = [[1; 0; 1]; [0; 1; 0]] /\
  forall i, (i < 3)%nat ->
    exists j, (j < 2)%nat /\
      nth i (nth j [[1; 0; 1]; [0; 1; 0]] []) 0 = 1 /\
      forall k, (k < 2)%nat -> k <> j -> nth i (nth k [[1; 0; 1]; [0; 1; 0]] []) 0 = 0.
Proof.
  split; [reflexivity|].
  assert (forall l, In l [F32.of_Z 3; F32.of_Z 1; F32.of_Z 3] ->
                    F32.is_nan l = false) as Hnan.
  { intros l [<-|[<-|[<-|[]]]]; reflexivity. }
  exact (proj2 (proj2 (indicator_partition
                         [F32.of_Z 1; F32.of_Z 2] [F32.of_Z 1; F32.of_Z 1]
                         [F32.of_Z 3; F32.of_Z 1; F32.of_Z 3])) Hnan).
Defined.

(** The claim as stated fails on a NaN label: the label opens a class of
    its own and compares unequal to it, so its sample has no 1 at all. *)
Lemma label_class_ivs_nan_counterexample :
  compute_label_class_ivs [S754_nan] = [[0]] /\
  ~ (exists j, nth 0 (nth j (compute_label_class_ivs [S754_nan]) []) 0 = 1).
Proof.
  split; [reflexivity|].
  intros [[|[|j]] H]; cbn in H; discriminate.
Qed.

Lemma positive_not_leb_minus_one (x : float) :
  F32.ltb (F32.of_Z 0) x = true -> F32.leb x (F32.of_Z (-1)) = false.
Proof.
  intros H.
  destruct x as [s|[|]| |[|] m e]; try reflexivity; vm_compute in H; discriminate.
Qed.

(** C10. The rows pushed by [compute_feature_split_ivs] are one pair per
    element after the first of [split_values]; element 0, the declared
    number of splits, does not enter the result.  A nine-element vector
    gives eight pairs; on the degenerate vector [0, -1, ..., -1] and
    positive feature values each left row is all 0 and each right row
    all 1. *)
Theorem split_ivs_ignore_declared_count
        (feature_values : list float) (declared : float) (slots : list float) :
  compute_feature_split_ivs feature_values (declared :: slots) [] []
  = Some (map (split_iv_left feature_values) slots,
          map (split_iv_right feature_values) slots) /\
  (forall lft rgt,
      compute_feature_split_ivs feature_values (declared :: slots) [] []
      = Some (lft, rgt) ->
      length (declared :: slots) = 9%nat ->
      length lft = 8%nat /\ length rgt = 8%nat) /\
  ((forall x, In x feature_values -> F32.ltb (F32.of_Z 0) x = true) ->
   compute_feature_split_ivs feature_values
     (F32.of_Z 0 :: repeat (F32.of_Z (-1)) 8) [] []
   = Some (repeat (repeat 0 (length feature_values)) 8,
           repeat (repeat 1 (length feature_values)) 8)).
Proof.
  split; [|split].
  - now rewrite compute_feature_split_ivs_rows.
  - rewrite compute_feature_split_ivs_rows. cbn [app tl].
    intros lft rgt [= <- <-] Hlen. cbn in Hlen. rewrite !length_map. lia.
  - intros Hpos. rewrite compute_feature_split_ivs_rows.
    cbn [app tl repeat map].
    assert (split_iv_left feature_values (F32.of_Z (-1))
            = repeat 0 (length feature_values)) as ->.
    { unfold split_iv_left. induction feature_values as [|x fv IH]; [reflexivity|].
      cbn [map length repeat].
      rewrite (positive_not_leb_minus_one x) by (apply Hpos; now left).
      f_equal. apply IH. intros y Hy. apply Hpos. now right. }
    assert (split_iv_right feature_values (F32.of_Z (-1))
            = repeat 1 (length feature_values)) as ->.
    { unfold split_iv_right. induction feature_values as [|x fv IH]; [reflexivity|].
      cbn [map length repeat].
      rewrite (positive_not_leb_minus_one x) by (apply Hpos; now left).
      f_equal. apply IH. intros y Hy. apply Hpos. now right. }
    reflexivity.
Qed.

(** The degenerate vector on the column [10, 20, 30]. *)
Lemma split_ivs_ignore_declared_count_witness :
  compute_feature_split_ivs [F32.of_Z 10; F32.of_Z 20; F32.of_Z 30]
     (F32.of_Z 0 :: repeat (F32.of_Z (-1)) 8) [] []
  = Some (repeat (repeat 0 3%nat) 8, repeat (repeat 1 3%nat) 8).
Proof.
  apply (proj2 (proj2 (split_ivs_ignore_declared_count
                         [F32.of_Z 10; F32.of_Z 20; F32.of_Z 30]
                         (F32.of_Z 0) (repeat (F32.of_Z (-1)) 8)))).
  intros x [<-|[<-|[<-|[]]]]; reflexivity.
Defined.

(** *** Sorting *)

Lemma strict_weak_asym (comp : nat -> nat -> bool) (l : list nat) (x y : nat) :
  strict_weak comp l -> In x l -> In y l ->
  comp x y = true -> comp y x = false.
Proof.
  intros (Hirr & Htr & _) Hx Hy Hxy.
  destruct (comp y x) eqn:E; [|reflexivity].
  rewrite <- (Hirr x Hx). symmetry. now apply (Htr x y x).
Qed.

(** Negative transitivity: not [y < x] and not [z < y] give not [z < x]. *)
Lemma strict_weak_neg_trans (comp : nat -> nat -> bool) (l : list nat) (x y z : nat) :
  strict_weak comp l -> In x l -> In y l -> In z l ->
  comp y x = false -> comp z y = false -> comp z x = false.
Proof.
  intros Hsw Hx Hy Hz Hyx Hzy.
  pose proof Hsw as (Hirr & Htr & Heq).
  destruct (comp z x) eqn:Hzx; [|reflexivity]. exfalso.
  destruct (comp x y) eqn:Hxy.
  - rewrite (Htr z x y Hz Hx Hy Hzx Hxy) in Hzy. discriminate.
  - destruct (comp y z) eqn:Hyz.
    + rewrite (Htr y z x Hy Hz Hx Hyz Hzx) in Hyx. discriminate.
    + destruct (Heq x y z Hx Hy Hz) as [_ C]; [split; assumption..|].
      congruence.
Qed.

Lemma insert_sorted_perm (comp : nat -> nat -> bool) (x : nat) (l : list nat) :
  Permutation (x :: l) (insert_sorted comp x l).
Proof.
  induction l as [|y l IH]; cbn; [reflexivity|].
  destruct (comp y x); [|reflexivity].
  rewrite perm_swap. now apply perm_skip.
Qed.

Lemma insertion_sort_perm (comp : nat -> nat -> bool) (l : list nat) :
  Permutation l (insertion_sort comp l).
Proof.
  induction l as [|x l IH]; cbn; [constructor|].
  rewrite <- insert_sorted_perm. now apply perm_skip.
Qed.

Section InsertionSorted.

Variable comp : nat -> nat -> bool.
Variable universe : list nat.
Hypothesis Hsw : strict_weak comp universe.

(** [a] may stand before [b]. *)
Let before (a b : nat) : Prop := comp b a = false.

Lemma insert_sorted_sorted (x : nat) (l : list nat) :
  In x universe -> incl l universe ->
  StronglySorted before l -> StronglySorted before (insert_sorted comp x l).
Proof.
  intros Hx Hincl Hs. induction Hs as [|y l Hs IH Hall]; cbn.
  - repeat constructor.
  - assert (In y universe) as Hy by (apply Hincl; now left).
    assert (incl l universe) as Hl by (intros z Hz; apply Hincl; now right).
    destruct (comp y x) eqn:E.
    + constructor; [now apply IH|].
      apply (Permutation_Forall (insert_sorted_perm comp x l)).
      constructor; [|exact Hall].
      unfold before. eapply strict_weak_asym; eauto.
    + constructor; [now constructor|].
      constructor; [exact E|].
      rewrite Forall_forall in *. intros z Hz. unfold before.
      apply (strict_weak_neg_trans comp universe x y z); auto.
      now apply Hall.
Qed.

Lemma insertion_sort_sorted (l : list nat) :
  incl l universe -> StronglySorted before (insertion_sort comp l).
Proof.
  induction l as [|x l IH]; intros Hincl; cbn; [constructor|].
  apply insert_sorted_sorted.
  - apply Hincl. now left.
  - intros z Hz. apply Hincl. right.
    apply (Permutation_in _ (Permutation_sym (insertion_sort_perm comp l)) Hz).
  - apply IH. intros z Hz. apply Hincl. now right.
Qed.

End InsertionSorted.

Lemma StronglySorted_nth {A : Type} (R : A -> A -> Prop) (l : list A) (d : A) :
  StronglySorted R l ->
  forall i j, (i < j < length l)%nat -> R (nth i l d) (nth j l d).
Proof.
  induction 1 as [|x l Hs IH Hall]; intros i j Hij; cbn in Hij; [lia|].
  destruct j as [|j]; [lia|]. destruct i as [|i]; cbn.
  - rewrite Forall_forall in Hall. apply Hall, nth_In. lia.
  - apply IH. lia.
Qed.

Lemma nth_StronglySorted {A : Type} (R : A -> A -> Prop) (l : list A) (d : A) :
  (forall i j, (i < j < length l)%nat -> R (nth i l d) (nth j l d)) ->
  StronglySorted R l.
Proof.
  induction l as [|x l IH]; intros H; constructor.
  - apply IH. intros i j Hij. apply (H (S i) (S j)). cbn. lia.
  - apply Forall_forall. intros y Hy.
    destruct (In_nth _ _ d Hy) as (j & Hj & <-).
    apply (H 0%nat (S j)). cbn. lia.
Qed.

Lemma insertion_sort_contract : sort_contract insertion_sort.
Proof.
  intros comp l Hsw. split; [apply insertion_sort_perm|].
  intros i j Hij.
  apply (StronglySorted_nth (fun a b => comp b a = false)); [|exact Hij].
  apply (insertion_sort_sorted comp l Hsw). apply incl_refl.
Qed.

Lemma reversing_sort_contract : sort_contract reversing_sort.
Proof.
  intros comp l Hsw. unfold reversing_sort. split.
  - rewrite <- insertion_sort_perm. apply Permutation_rev.
  - intros i j Hij.
    apply (StronglySorted_nth (fun a b => comp b a = false)); [|exact Hij].
    apply (insertion_sort_sorted comp l Hsw).
    intros z Hz. now apply in_rev.
Qed.

(** The comparison of [sort_indexes] on a column without NaN. *)
Lemma ltb_equiv_rank (x y : float) :
  F32.is_nan x = false -> F32.is_nan y = false ->
  (F32.ltb x y = false /\ F32.ltb y x = false <-> rank x = rank y).
Proof.
  intros Hx Hy. split.
  - intros [H1 H2]. destruct (lex_trichotomy (rank x) (rank y)) as [H|[H|H]]; auto.
    + apply ltb_rank in H; auto. congruence.
    + apply ltb_rank in H; auto. congruence.
  - intros H. split.
    + destruct (F32.ltb x y) eqn:E; [|reflexivity].
      apply ltb_rank in E; auto. rewrite H in E. now apply lex_lt_irrefl in E.
    + destruct (F32.ltb y x) eqn:E; [|reflexivity].
      apply ltb_rank in E; auto. rewrite H in E. now apply lex_lt_irrefl in E.
Qed.

Lemma index_comparison_strict_weak (v : list float) :
  nan_free v ->
  strict_weak (fun i1 i2 => F32.ltb (nth i1 v S754_nan) (nth i2 v S754_nan))
              (seq 0 (length v)).
Proof.
  intros Hnan.
  assert (forall k, In k (seq 0 (length v)) ->
                    F32.is_nan (nth k v S754_nan) = false) as Hk.
  { intros k Hin. apply in_seq in Hin. apply Hnan, nth_In. lia. }
  split; [|split].
  - intros x _. apply ltb_irrefl.
  - intros x y z _ _ _. apply ltb_trans.
  - intros x y z Hx Hy Hz Hxy Hyz.
    pose proof (proj1 (ltb_equiv_rank _ _ (Hk x Hx) (Hk y Hy)) Hxy) as E1.
    pose proof (proj1 (ltb_equiv_rank _ _ (Hk y Hy) (Hk z Hz)) Hyz) as E2.
    apply (ltb_equiv_rank _ _ (Hk x Hx) (Hk z Hz)). congruence.
Qed.

(** *** The split engine *)

Lemma for_range_push_options {A : Type} (from count : nat) (g : nat -> option A)
      (body : nat -> list A -> option (list A)) (s : list A) :
  (forall i t, (from <= i < from + count)%nat ->
     body i t = match g i with Some x => Some (push_back t x) | None => None end) ->
  for_range from count body s
  = match collect_options g (seq from count) with
    | Some xs => Some (s ++ xs)
    | None => None
    end.
Proof.
  revert from s. induction count as [|c IH]; intros from s H; cbn.
  - now rewrite app_nil_r.
  - rewrite (H from s) by lia. destruct (g from) as [x|]; [|reflexivity].
    rewrite IH by (intros i t Hi; apply H; lia).
    destruct (collect_options g (seq (S from) c)); [|reflexivity].
    unfold push_back. now rewrite <- app_assoc.
Qed.

(** A loop that reads [w[i]] at every step is a fold over [w]. *)
Lemma for_range_fold {A S : Type} (w : list A) (step : S -> A -> S)
      (body : nat -> S -> option S) (count from : nat) (s : S) :
  (from + count = length w)%nat ->
  (forall i t x, nth_error w i = Some x -> body i t = Some (step t x)) ->
  for_range from count body s = Some (fold_left step (skipn from w) s).
Proof.
  revert from s. induction count as [|c IH]; intros from s Hlen H; cbn.
  - now rewrite skipn_all2 by lia.
  - destruct (nth_error w from) as [x|] eqn:E.
    + rewrite (H from s x E), (skipn_nth_error_cons _ _ _ E). cbn.
      apply IH; [lia|exact H].
    + apply nth_error_None in E. lia.
Qed.

Section SortedIndexes.

Variable std_sort : (nat -> nat -> bool) -> list nat -> list nat.
Hypothesis Hsort : sort_contract std_sort.
Variable v : list float.
Hypothesis Hnan : nan_free v.

Lemma sort_indexes_perm : Permutation (seq 0 (length v)) (sort_indexes std_sort v).
Proof.
  unfold sort_indexes. apply Hsort, index_comparison_strict_weak, Hnan.
Qed.

Lemma sort_indexes_length : length (sort_indexes std_sort v) = length v.
Proof.
  rewrite <- (Permutation_length sort_indexes_perm). apply length_seq.
Qed.

Lemma sort_indexes_range (k : nat) :
  In k (sort_indexes std_sort v) -> (k < length v)%nat.
Proof.
  intros H. apply (Permutation_in _ (Permutation_sym sort_indexes_perm)) in H.
  apply in_seq in H. lia.
Qed.

Lemma values_along_length :
  length (values_along v (sort_indexes std_sort v)) = length v.
Proof. unfold values_along. now rewrite length_map, sort_indexes_length. Qed.

Lemma values_along_seq : values_along v (seq 0 (length v)) = v.
Proof.
  unfold values_along. induction v as [|x l IH]; [reflexivity|].
  cbn [length seq map nth]. f_equal.
  rewrite <- seq_shift, map_map. apply IH.
  intros y Hy. apply Hnan. now right.
Qed.

Lemma values_along_perm : Permutation v (values_along v (sort_indexes std_sort v)).
Proof.
  rewrite <- values_along_seq at 1. unfold values_along.
  apply Permutation_map, sort_indexes_perm.
Qed.

Lemma values_along_nan_free : nan_free (values_along v (sort_indexes std_sort v)).
Proof.
  intros x Hx. apply Hnan.
  apply (Permutation_in _ (Permutation_sym values_along_perm) Hx).
Qed.

Lemma values_along_sorted :
  non_descending (values_along v (sort_indexes std_sort v)).
Proof.
  apply (nth_StronglySorted _ _ S754_nan). intros i j Hij.
  rewrite values_along_length in Hij. unfold values_along.
  rewrite !(nth_map_lt _ _ _ 0%nat) by (rewrite sort_indexes_length; lia).
  assert (forall a, (a < length v)%nat ->
            F32.is_nan (nth (nth a (sort_indexes std_sort v) 0%nat) v S754_nan)
            = false) as Hn.
  { intros a Ha. apply Hnan, nth_In, sort_indexes_range, nth_In.
    rewrite sort_indexes_length. exact Ha. }
  rewrite leb_negb_ltb by (apply Hn; lia).
  apply negb_true_iff.
  destruct (Hsort (fun i1 i2 => F32.ltb (nth i1 v S754_nan) (nth i2 v S754_nan))
                  (seq 0 (length v))
                  (index_comparison_strict_weak v Hnan)) as [_ Hs].
  apply (Hs i j). fold (sort_indexes std_sort v). rewrite sort_indexes_length. lia.
Qed.

Lemma sorted_value_along (i : nat) :
  sorted_value v (sort_indexes std_sort v) i
  = nth_error (values_along v (sort_indexes std_sort v)) i.
Proof.
  unfold sorted_value, vec_at, values_along. rewrite nth_error_map.
  destruct (nth_error (sort_indexes std_sort v) i) as [k|] eqn:E; [|reflexivity].
  cbn. apply nth_error_nth'. apply sort_indexes_range.
  eapply nth_error_In; eauto.
Qed.

End SortedIndexes.

Lemma leb_true_not_nan (x y : float) :
  F32.leb x y = true -> F32.is_nan x = false /\ F32.is_nan y = false.
Proof.
  unfold F32.leb, SFleb. destruct x, y; cbn; try discriminate; auto.
Qed.

Lemma leb_neq_ltb (x y : float) :
  F32.leb x y = true -> F32.eqb x y = false -> F32.ltb x y = true.
Proof.
  intros Hle Hne. destruct (leb_true_not_nan _ _ Hle) as [Hx Hy].
  apply leb_rank in Hle; auto. apply ltb_rank; auto.
  destruct Hle as [H|H]; [exact H|].
  apply eqb_rank in H; auto. congruence.
Qed.

Lemma ltb_leb (x y : float) : F32.ltb x y = true -> F32.leb x y = true.
Proof.
  intros H. destruct (ltb_true_not_nan _ _ H) as [Hx Hy].
  apply ltb_rank in H; auto. apply leb_rank; auto.
Qed.

Lemma StronglySorted_app_one {A : Type} (R : A -> A -> Prop) (l : list A) (x : A) :
  StronglySorted R (l ++ [x]) <-> StronglySorted R l /\ Forall (fun a => R a x) l.
Proof.
  induction l as [|a l IH]; cbn.
  - split; [intros _; split; constructor|intros _; repeat constructor].
  - split.
    + intros H. apply StronglySorted_inv in H. destruct H as [Hs Hall].
      apply IH in Hs. destruct Hs as [Hs Hx].
      apply Forall_app in Hall. destruct Hall as [Hal Hax].
      split; [now constructor|]. constructor; [|exact Hx].
      now apply Forall_inv in Hax.
    + intros [Hs Hx]. apply StronglySorted_inv in Hs. destruct Hs as [Hs Hal].
      apply Forall_cons_iff in Hx. destruct Hx as [Hax Hx].
      constructor; [apply IH; now split|].
      apply Forall_app. split; [exact Hal|now constructor].
Qed.

Lemma nth_error_last {A : Type} (l : list A) (d : A) :
  l <> [] -> nth_error l (length l - 1) = Some (last l d).
Proof.
  intros Hne. destruct (exists_last Hne) as (init & x & ->).
  rewrite last_last, length_app. cbn [length].
  replace (length init + 1 - 1)%nat with (length init) by lia.
  rewrite nth_error_app2 by lia. now rewrite Nat.sub_diag.
Qed.

(** The scan of [compute_distinct_values] is a fold of [distinct_step]. *)
Lemma compute_distinct_values_along
      (std_sort : (nat -> nat -> bool) -> list nat -> list nat) (v : list float) :
  sort_contract std_sort -> nan_free v ->
  compute_distinct_values v (sort_indexes std_sort v)
  = Some (distinct_of_sorted (values_along v (sort_indexes std_sort v))).
Proof.
  intros Hsort Hnan. unfold compute_distinct_values, distinct_of_sorted.
  set (w := values_along v (sort_indexes std_sort v)).
  rewrite (for_range_fold w distinct_step); [reflexivity| |].
  - unfold w. now rewrite values_along_length.
  - intros i t x Hx. rewrite (sorted_value_along std_sort Hsort v Hnan).
    fold w. rewrite Hx. unfold distinct_step, push_back.
    destruct t as [|a t]; [reflexivity|].
    replace (length (a :: t) =? 0)%nat with false by reflexivity.
    unfold vec_at. rewrite (nth_error_last (a :: t) S754_nan) by discriminate.
    now destruct (F32.eqb _ x).
Qed.

Section DistinctScan.

(** The state of the scan: ascending, and its last element is not above
    what is still to come. *)
Let scan_ok (dv w : list float) : Prop :=
  ascending dv /\ nan_free dv /\ nan_free w /\ non_descending w /\
  (dv <> [] -> forall x, In x w -> F32.leb (last dv S754_nan) x = true).

Lemma distinct_step_ok (dv w : list float) (x : float) :
  scan_ok dv (x :: w) -> scan_ok (distinct_step dv x) w.
Proof.
  intros (Hasc & Hndv & Hnw & Hsorted & Hlast).
  apply StronglySorted_inv in Hsorted. destruct Hsorted as [Hsw Hxw].
  rewrite Forall_forall in Hxw.
  assert (nan_free w) as Hnw' by (intros y Hy; apply Hnw; now right).
  unfold distinct_step. destruct dv as [|a dv'].
  - repeat split; auto.
    + repeat constructor.
    + intros y [<-|[]]. apply Hnw. now left.
  - set (dv := a :: dv') in *.
    assert (dv <> []) as Hne by discriminate.
    destruct (F32.eqb (last dv S754_nan) x) eqn:E.
    + repeat split; auto. intros _ y Hy. apply Hlast; [exact Hne|now right].
    + assert (F32.ltb (last dv S754_nan) x = true) as Hlt.
      { apply leb_neq_ltb; [|exact E]. apply Hlast; [exact Hne|now left]. }
      destruct (exists_last Hne) as (init & lst & Hdv). rewrite Hdv in *.
      rewrite last_last in *. repeat split; auto.
      * apply StronglySorted_app_one. split; [exact Hasc|].
        apply StronglySorted_app_one in Hasc. destruct Hasc as [_ Hinit].
        apply Forall_app. split; [|now constructor].
        rewrite Forall_forall in *. intros y Hy.
        eapply ltb_trans; [apply Hinit, Hy|exact Hlt].
      * intros y Hy. apply in_app_or in Hy. destruct Hy as [Hy|[<-|[]]].
        -- now apply Hndv.
        -- apply Hnw. now left.
      * intros _ y Hy. rewrite last_last. now apply Hxw.
Qed.

Lemma distinct_scan_spec (w dv : list float) :
  scan_ok dv w ->
  ascending (fold_left distinct_step w dv) /\
  (forall d, In d (fold_left distinct_step w dv) -> In d dv \/ In d w) /\
  (forall x, In x dv \/ In x w ->
     exists d, In d (fold_left distinct_step w dv) /\ F32.eqb d x = true).
Proof.
  revert dv. induction w as [|x w IH]; intros dv Hok.
  - cbn. destruct Hok as (Hasc & Hndv & _). repeat split; auto.
    intros x [Hx|[]]. exists x. split; [exact Hx|]. now apply eqb_refl, Hndv.
  - cbn [fold_left].
    destruct (IH _ (distinct_step_ok _ _ _ Hok)) as (Hasc & Hin & Hcov).
    destruct Hok as (_ & Hndv & Hnw & _ & _).
    assert (forall y, In y dv \/ y = x ->
              exists d, In d (distinct_step dv x) /\ F32.eqb d y = true) as Hstep.
    { intros y Hy. unfold distinct_step. destruct dv as [|a dv'].
      - destruct Hy as [[] | ->]. exists x. split; [now left|].
        apply eqb_refl, Hnw. now left.
      - set (dv := a :: dv') in *.
        destruct (F32.eqb (last dv S754_nan) x) eqn:E.
        + destruct Hy as [Hy| ->].
          * exists y. split; [exact Hy|]. now apply eqb_refl, Hndv.
          * exists (last dv S754_nan). split; [|exact E].
            destruct (@exists_last _ dv) as (init & lst & Hdv); [discriminate|].
            rewrite Hdv, last_last. apply in_or_app. right. now left.
        + exists y. split.
          * apply in_or_app. destruct Hy as [Hy| ->]; [now left|right; now left].
          * apply eqb_refl. destruct Hy as [Hy| ->]; [now apply Hndv|].
            apply Hnw. now left. }
    repeat split; auto.
    + intros d Hd. destruct (Hin d Hd) as [H|H]; [|right; now right].
      unfold distinct_step in H. destruct dv as [|a dv'].
      * destruct H as [<-|[]]. right. now left.
      * destruct (F32.eqb _ x); [now left|].
        apply in_app_or in H. destruct H as [H|[<-|[]]]; [now left|right; now left].
    + intros y [Hy|[<-|Hy]].
      * destruct (Hstep y (or_introl Hy)) as (d & Hd & Hdy).
        destruct (Hcov d (or_introl Hd)) as (d' & Hd' & Hdd).
        exists d'. split; [exact Hd'|]. eapply eqb_trans; eauto.
      * destruct (Hstep x (or_intror eq_refl)) as (d & Hd & Hdy).
        destruct (Hcov d (or_introl Hd)) as (d' & Hd' & Hdd).
        exists d'. split; [exact Hd'|]. eapply eqb_trans; eauto.
      * apply Hcov. now right.
Qed.

End DistinctScan.

(** The distinct values of a sorted column without NaN: strictly
    ascending, drawn from the column, and covering it. *)
Lemma distinct_of_sorted_spec (w : list float) :
  nan_free w -> non_descending w ->
  ascending (distinct_of_sorted w) /\
  (forall d, In d (distinct_of_sorted w) -> In d w) /\
  (forall x, In x w -> exists d, In d (distinct_of_sorted w) /\ F32.eqb d x = true).
Proof.
  intros Hnan Hs.
  destruct (distinct_scan_spec w []) as (Hasc & Hin & Hcov).
  - split; [constructor|]. split; [intros x []|].
    split; [exact Hnan|]. split; [exact Hs|]. intros C. now contradiction C.
  - repeat split; auto.
    intros d Hd. destruct (Hin d Hd) as [[]|H]; exact H.
Qed.

Lemma categorical_slots (dv : list float) (m : float) :
  (2 <= length dv <= 8)%nat ->
  map (fun i => if (i <=? length dv - 1)%nat then nth i dv S754_nan else m)
      (seq 0 8)
  = dv ++ repeat m (8 - length dv).
Proof.
  intros H.
  destruct dv as [|d0 [|d1 [|d2 [|d3 [|d4 [|d5 [|d6 [|d7 [|d8 dv]]]]]]]]];
    cbn in H; try lia; reflexivity.
Qed.

(** [compute_splits] is [splits_from_sorted] on the column read along
    the sorted indexes. *)
Lemma compute_splits_from_sorted
      (std_sort : (nat -> nat -> bool) -> list nat -> list nat) (v : list float) :
  sort_contract std_sort -> nan_free v ->
  compute_splits std_sort v
  = splits_from_sorted (values_along v (sort_indexes std_sort v)).
Proof.
  intros Hsort Hnan. unfold compute_splits, splits_from_sorted.
  rewrite (compute_distinct_values_along std_sort v Hsort Hnan).
  set (w := values_along v (sort_indexes std_sort v)).
  set (dv := distinct_of_sorted w).
  assert (length w = length v) as Hlen by apply (values_along_length _ Hsort _ Hnan).
  change (MAX_SPLIT_NUM + 1)%nat with 9%nat.
  change (Z.of_nat MAX_SPLIT_NUM) with 8.
  change MAX_SPLIT_NUM with 8%nat.
  destruct (9 <=? length dv)%nat eqn:E9.
  - rewrite (for_range_push_options 0 8 (threshold w)).
    + now destruct (collect_options (threshold w) (seq 0 8)).
    + intros i t _. rewrite !(sorted_value_along std_sort Hsort v Hnan).
      fold w. unfold threshold, lower_position, upper_position.
      rewrite Hlen.
      destruct (nth_error w ((i + 1) * (length v / 9))); [|reflexivity].
      now destruct (nth_error w ((i + 1) * (length v / 9) + 1)).
  - apply Nat.leb_gt in E9. destruct (1 <? length dv)%nat eqn:E1.
    + apply Nat.ltb_lt in E1.
      rewrite (for_range_push 0 8
                 (fun i => if (i <=? length dv - 1)%nat then nth i dv S754_nan
                           else F32.of_Z (-1))).
      * rewrite categorical_slots by lia. reflexivity.
      * intros i t _. destruct (i <=? length dv - 1)%nat eqn:Ei; [|reflexivity].
        apply Nat.leb_le in Ei. unfold vec_at.
        now rewrite (nth_error_nth' dv S754_nan) by lia.
    + rewrite (for_range_push 0 8 (fun _ => F32.of_Z (-1))); [reflexivity|].
      intros; reflexivity.
Qed.

(** Two sorted rearrangements of the same numbers are the same list,
    when numbers that compare equal are equal. *)
Lemma non_descending_unique (w1 w2 : list float) :
  (forall x y, In x w1 -> In y w1 ->
     F32.leb x y = true -> F32.leb y x = true -> x = y) ->
  Permutation w1 w2 -> non_descending w1 -> non_descending w2 -> w1 = w2.
Proof.
  revert w2. induction w1 as [|x w1 IH]; intros w2 Hanti Hperm H1 H2.
  - apply Permutation_nil in Hperm. now subst.
  - destruct w2 as [|y w2]; [now apply Permutation_sym, Permutation_nil in Hperm|].
    apply StronglySorted_inv in H1. destruct H1 as [Hs1 Hx].
    apply StronglySorted_inv in H2. destruct H2 as [Hs2 Hy].
    rewrite Forall_forall in Hx, Hy.
    assert (x = y) as ->.
    { assert (In y (x :: w1)) as Hyin
          by (apply (Permutation_in _ (Permutation_sym Hperm)); now left).
      assert (In x (y :: w2)) as Hxin
          by (apply (Permutation_in _ Hperm); now left).
      destruct Hyin as [->|Hyin]; [reflexivity|].
      destruct Hxin as [->|Hxin]; [reflexivity|].
      apply Hanti; [now left|now right|now apply Hx|now apply Hy]. }
    f_equal. apply IH; auto.
    + intros a b Ha Hb. apply Hanti; now right.
    + eapply Permutation_cons_inv; eauto.
Qed.

Lemma leb_antisym (v : list float) (x y : float) :
  no_negative_zero v -> In x v -> In y v ->
  F32.leb x y = true -> F32.leb y x = true -> x = y.
Proof.
  intros Hz Hx Hy Hxy Hyx.
  destruct (leb_true_not_nan _ _ Hxy) as [Nx Ny].
  assert (F32.eqb x y = true) as Heq.
  { destruct (F32.eqb x y) eqn:E; [reflexivity|].
    pose proof (leb_neq_ltb _ _ Hxy E) as Hlt.
    rewrite leb_negb_ltb in Hyx by assumption. rewrite Hlt in Hyx. discriminate. }
  destruct (eqb_eq_or_zero _ _ Heq) as [H|(s & s' & -> & ->)]; [exact H|].
  destruct s, s'; try reflexivity; exfalso.
  - now apply (Hz _ Hx).
  - now apply (Hz _ Hy).
Qed.

(** The sorted column does not depend on the implementation of
    [std::sort], on a column without NaN and without negative zero. *)
Lemma values_along_any_sort
      (sort1 sort2 : (nat -> nat -> bool) -> list nat -> list nat) (v : list float) :
  sort_contract sort1 -> sort_contract sort2 ->
  nan_free v -> no_negative_zero v ->
  values_along v (sort_indexes sort1 v) = values_along v (sort_indexes sort2 v).
Proof.
  intros H1 H2 Hnan Hz. apply non_descending_unique.
  - intros x y Hx Hy. apply (leb_antisym v); auto.
    + apply (Permutation_in _ (Permutation_sym (values_along_perm _ H1 _ Hnan)) Hx).
    + apply (Permutation_in _ (Permutation_sym (values_along_perm _ H1 _ Hnan)) Hy).
  - rewrite <- (values_along_perm _ H1 _ Hnan). now apply values_along_perm.
  - now apply values_along_sorted.
  - now apply values_along_sorted.
Qed.

(** So [compute_splits] may be run with the insertion sort. *)
Lemma compute_splits_any_sort
      (std_sort : (nat -> nat -> bool) -> list nat -> list nat) (v : list float) :
  sort_contract std_sort -> nan_free v -> no_negative_zero v ->
  compute_splits std_sort v = compute_splits insertion_sort v.
Proof.
  intros Hsort Hnan Hz.
  rewrite !compute_splits_from_sorted by (auto using insertion_sort_contract).
  now rewrite (values_along_any_sort std_sort insertion_sort)
    by (auto using insertion_sort_contract).
Qed.

(** *** Exact cases of the rounding of [SpecFloat] *)

Lemma iter_pos_iter {A : Type} (f : A -> A) (n : positive) (x : A) :
  iter_pos f n x = Pos.iter f x n.
Proof.
  revert x. induction n as [n IH|n IH|]; intros x; cbn.
  - now rewrite !IH, !Pos.iter_swap.
  - now rewrite !IH.
  - reflexivity.
Qed.

Lemma digits2_pos_log2 (m : positive) :
  Z.pos (digits2_pos m) = Z.log2 (Z.pos m) + 1.
Proof.
  assert (forall q, digits2_pos q = Pos.size q) as Hsize
      by (induction q; cbn; congruence).
  destruct m as [m|m|]; cbn; rewrite ?Hsize; lia.
Qed.

Lemma digits2_pos_bounds (m : positive) :
  2 ^ (Z.pos (digits2_pos m) - 1) <= Z.pos m < 2 ^ Z.pos (digits2_pos m).
Proof.
  rewrite digits2_pos_log2.
  replace (Z.log2 (Z.pos m) + 1 - 1) with (Z.log2 (Z.pos m)) by lia.
  apply Z.log2_spec. lia.
Qed.

Lemma digits2_pos_mul_pow2 (m m' : positive) (n : Z) :
  0 <= n -> Z.pos m = Z.pos m' * 2 ^ n ->
  Z.pos (digits2_pos m) = Z.pos (digits2_pos m') + n.
Proof.
  intros Hn H. rewrite !digits2_pos_log2, H, Z.log2_mul_pow2 by lia. lia.
Qed.

(** Shifting out [n] zero bits loses nothing. *)
Lemma shr_exact (m m' : positive) (n e : Z) :
  0 <= n -> Z.pos m = Z.pos m' * 2 ^ n ->
  shr (Build_shr_record (Z.pos m) false false) e n
  = (Build_shr_record (Z.pos m') false false, e + n).
Proof.
  intros Hn H. destruct n as [|n|n]; [| |lia].
  - cbn. rewrite Z.pow_0_r, Z.mul_1_r in H. injection H as ->.
    now rewrite Z.add_0_r.
  - unfold shr. f_equal. rewrite iter_pos_iter. clear Hn.
    revert m H. induction n as [|n IH] using Pos.peano_ind; intros m H.
    + cbn. destruct m as [m|m|]; cbn in H; try lia.
      f_equal. lia.
    + rewrite Pos.iter_succ_r.
      rewrite Pos2Z.inj_succ, Z.pow_succ_r in H by lia.
      destruct m as [m|m|]; try lia.
      apply (IH m). lia.
Qed.

Lemma shl_align_spec (m : positive) (e e' : Z) :
  e' <= e ->
  exists mz, shl_align m e e' = (mz, e') /\ Z.pos mz = Z.pos m * 2 ^ (e - e').
Proof.
  intros H. unfold shl_align. destruct (e' - e) as [|d|d] eqn:E; try lia.
  - exists m. replace e' with e by lia. rewrite Z.sub_diag. split; [reflexivity|lia].
  - exists (Pos.iter xO m d). split; [reflexivity|].
    replace (e - e') with (Z.pos d) by lia. clear E H.
    induction d as [|d IH] using Pos.peano_ind.
    + cbn. lia.
    + rewrite Pos.iter_succ, Pos2Z.inj_succ, Z.pow_succ_r by lia.
      rewrite Pos2Z.inj_xO, IH. lia.
Qed.

Section ExactRounding.

Variables prec emax : Z.

(** A mantissa with [n] trailing zero bits whose exponent is [n] short
    of the format's is rounded to itself. *)
Lemma binary_round_aux_exact (s : bool) (m m' : positive) (e n : Z) :
  0 <= n -> Z.pos m = Z.pos m' * 2 ^ n ->
  fexp prec emax (Z.pos (digits2_pos m) + e) = e + n ->
  e + n <= emax - prec ->
  binary_round_aux prec emax s (Z.pos m) e loc_Exact = S754_finite s m' (e + n).
Proof.
  intros Hn Hm Hfexp Hmax. unfold binary_round_aux, shr_fexp.
  cbn [Zdigits2 shr_record_of_loc]. rewrite Hfexp.
  replace (e + n - e) with n by lia.
  rewrite (shr_exact m m' n e Hn Hm).
  cbn [shr_m loc_of_shr_record round_nearest_even Zdigits2 shr_record_of_loc].
  rewrite (digits2_pos_mul_pow2 m m' n Hn Hm) in Hfexp.
  replace (Z.pos (digits2_pos m') + (e + n))
    with (Z.pos (digits2_pos m') + n + e) by lia.
  rewrite Hfexp, Z.sub_diag. cbn [shr shr_m].
  apply Z.leb_le in Hmax. now rewrite Hmax.
Qed.

(** A mantissa short enough for the format is only realigned. *)
Lemma binary_round_exact (s : bool) (m : positive) (e : Z) :
  fexp prec emax (Z.pos (digits2_pos m) + e) <= e ->
  fexp prec emax (Z.pos (digits2_pos m) + e) <= emax - prec ->
  exists mz,
    binary_round prec emax s m e
    = S754_finite s mz (fexp prec emax (Z.pos (digits2_pos m) + e)) /\
    Z.pos mz = Z.pos m * 2 ^ (e - fexp prec emax (Z.pos (digits2_pos m) + e)).
Proof.
  intros Hle Hmax. unfold binary_round.
  set (E := fexp prec emax (Z.pos (digits2_pos m) + e)) in *.
  destruct (shl_align_spec m e E Hle) as (mz & -> & Hmz).
  exists mz. split; [|exact Hmz].
  replace E with (E + 0) at 2 by lia.
  apply (binary_round_aux_exact s mz mz E 0); try lia.
  rewrite (digits2_pos_mul_pow2 mz m (e - E)) by (lia || exact Hmz).
  replace (Z.pos (digits2_pos m) + (e - E) + E)
    with (Z.pos (digits2_pos m) + e) by lia.
  fold E. lia.
Qed.

End ExactRounding.

(** *** Promotion, scaling and conversion in [double] *)

Lemma fexp64 (x : Z) : fexp 53 1024 x = Z.max (x - 53) (-1074).
Proof. reflexivity. Qed.

Lemma fexp32 (x : Z) : fexp 24 128 x = Z.max (x - 24) (-149).
Proof. reflexivity. Qed.

(** A finite [float] datum of the format: at most 24 binary digits, the
    exponent between -149 and 104, and fewer than 24 digits only at the
    exponent -149. *)
Lemma valid32_inv (s : bool) (m : positive) (e : Z) :
  F32.valid (S754_finite s m e) = true ->
  Z.pos (digits2_pos m) <= 24 /\ -149 <= e <= 104 /\
  (Z.pos (digits2_pos m) = 24 \/ e = -149).
Proof.
  unfold F32.valid, valid_binary, bounded, canonical_mantissa.
  change (fexp F32.prec F32.emax) with (fexp 24 128). rewrite fexp32.
  intros H. apply andb_true_iff in H. destruct H as [H1 H2].
  apply Z.eqb_eq in H1. apply Z.leb_le in H2.
  change (F32.emax - F32.prec) with 104 in H2. lia.
Qed.

Lemma binary_round64_double_of (s : bool) (a : positive) (k : Z) :
  Z.pos (digits2_pos a) <= 53 -> -1021 <= Z.pos (digits2_pos a) + k <= 1024 ->
  double_of (binary_round 53 1024 s a k) s a k.
Proof.
  intros Hd Hk.
  assert (fexp 53 1024 (Z.pos (digits2_pos a) + k)
          = Z.pos (digits2_pos a) + k - 53) as HE by (rewrite fexp64; lia).
  destruct (binary_round_exact 53 1024 s a k) as (mz & Hr & Hmz).
  - rewrite HE. lia.
  - rewrite HE. lia.
  - rewrite HE in Hr, Hmz. exists mz, (Z.pos (digits2_pos a) + k - 53).
    split; [exact Hr|]. split; [lia|]. split; [exact Hmz|].
    rewrite (digits2_pos_mul_pow2 mz a (k - (Z.pos (digits2_pos a) + k - 53)))
      by (lia || exact Hmz).
    lia.
Qed.

Lemma of_float_double_of (s : bool) (m : positive) (e : Z) :
  F32.valid (S754_finite s m e) = true ->
  double_of (F64.of_float (S754_finite s m e)) s m e.
Proof.
  intros Hv. apply valid32_inv in Hv.
  pose proof (Pos2Z.is_pos (digits2_pos m)).
  apply binary_round64_double_of; lia.
Qed.

(** Multiplication by the double [2^j] (mantissa [2^52], exponent
    [j - 52]) only moves the exponent. *)
Lemma mul_pow2_double_of (x : double) (s : bool) (a : positive) (k j : Z) :
  double_of x s a k ->
  -1021 <= Z.pos (digits2_pos a) + k + j <= 1024 ->
  double_of (F64.mul x (S754_finite false 4503599627370496 (j - 52))) s a (k + j).
Proof.
  intros (m & e & -> & Hek & Hm & Hd) Hk.
  assert (Z.pos (digits2_pos a) + (k - e) = 53) as Hda
      by (rewrite <- (digits2_pos_mul_pow2 m a (k - e)); lia).
  unfold F64.mul, SFmul. rewrite xorb_false_r.
  change F64.prec with 53. change F64.emax with 1024.
  rewrite (binary_round_aux_exact 53 1024 s (m * 4503599627370496) m
                                  (e + (j - 52)) 52).
  - exists m, (e + (j - 52) + 52). repeat split; try lia.
    rewrite Hm. f_equal. f_equal. lia.
  - lia.
  - rewrite Pos2Z.inj_mul. reflexivity.
  - rewrite (digits2_pos_mul_pow2 (m * 4503599627370496) m 52);
      [|lia|rewrite Pos2Z.inj_mul; reflexivity].
    rewrite fexp64. lia.
  - lia.
Qed.

Lemma pow2_8 : F64.pow2 8 = S754_finite false 4503599627370496 (8 - 52).
Proof. reflexivity. Qed.

Lemma pow2_minus_8 : F64.pow2 (-8) = S754_finite false 4503599627370496 (-8 - 52).
Proof. reflexivity. Qed.

Lemma round_half_up_nonneg (a k : Z) : 0 <= a -> 0 <= round_half_up a k.
Proof.
  intros Ha. unfold round_half_up. destruct (0 <=? k) eqn:E.
  - apply Z.leb_le in E. apply Z.mul_nonneg_nonneg; [lia|]. now apply Z.pow_nonneg.
  - apply Z.leb_gt in E. apply Z.div_pos.
    + pose proof (Z.pow_nonneg 2 (- k - 1)). lia.
    + apply Z.pow_pos_nonneg; lia.
Qed.

(** The magnitude that [round] computes from mantissa and exponent. *)
Lemma round_magnitude (m a : Z) (e k : Z) :
  e < 0 -> e <= k -> m = a * 2 ^ (k - e) ->
  Z.shiftr (m + Z.shiftl 1 (- e - 1)) (- e) = round_half_up a k.
Proof.
  intros He Hek ->.
  rewrite Z.shiftr_div_pow2, Z.shiftl_mul_pow2, Z.mul_1_l by lia.
  unfold round_half_up. destruct (0 <=? k) eqn:E.
  - apply Z.leb_le in E.
    replace (k - e) with (k + - e) by lia. rewrite Z.pow_add_r by lia.
    rewrite Z.mul_assoc, Z.div_add_l by (apply Z.pow_nonzero; lia).
    rewrite Z.div_small; [lia|]. split; [apply Z.pow_nonneg; lia|].
    apply Z.pow_lt_mono_r; lia.
  - apply Z.leb_gt in E.
    replace (- e) with (- k + (k - e)) by lia.
    replace (- k + (k - e) - 1) with (- k - 1 + (k - e)) by lia.
    rewrite !Z.pow_add_r by lia.
    rewrite <- Z.mul_add_distr_r.
    apply Z.div_mul_cancel_r; apply Z.pow_nonzero; lia.
Qed.

Lemma int64_range (s : bool) (n : Z) :
  0 <= n < 2 ^ 63 ->
  (- 2 ^ 63 <=? cond_Zopp s n) && (cond_Zopp s n <? 2 ^ 63) = true.
Proof.
  intros H. apply andb_true_iff. rewrite Z.leb_le, Z.ltb_lt.
  destruct s; cbn [cond_Zopp]; lia.
Qed.

(** [round] followed by the conversion to [int64_t]. *)
Lemma round_to_int64 (x : double) (s : bool) (a : positive) (k : Z) :
  double_of x s a k -> round_half_up (Z.pos a) k < 2 ^ 63 ->
  F64.to_int64 (F64.round x) = Some (cond_Zopp s (round_half_up (Z.pos a) k)).
Proof.
  intros (m & e & -> & Hek & Hm & Hd) Hlt.
  pose proof (round_half_up_nonneg (Z.pos a) k ltac:(lia)) as Hnn.
  unfold F64.round. destruct (0 <=? e) eqn:He.
  - unfold F64.to_int64. rewrite He. apply Z.leb_le in He.
    assert (Z.shiftl (Z.pos m) e = round_half_up (Z.pos a) k) as ->.
    { rewrite Z.shiftl_mul_pow2 by lia. unfold round_half_up.
      replace (0 <=? k) with true by (symmetry; apply Z.leb_le; lia).
      rewrite Hm, <- Z.mul_assoc, <- Z.pow_add_r by lia. f_equal. f_equal. lia. }
    now rewrite int64_range by lia.
  - apply Z.leb_gt in He.
    rewrite (round_magnitude (Z.pos m) (Z.pos a) e k He Hek Hm).
    destruct (round_half_up (Z.pos a) k) as [|n|n] eqn:En; [| |lia].
    + cbn. now destruct s.
    + replace (Z.pos n =? 0) with false by reflexivity.
      assert (Z.pos n <= Z.pos m) as Hnm.
      { rewrite <- En, <- (round_magnitude (Z.pos m) (Z.pos a) e k He Hek Hm).
        rewrite Z.shiftr_div_pow2, Z.shiftl_mul_pow2, Z.mul_1_l by lia.
        apply Z.lt_succ_r, Z.div_lt_upper_bound; [apply Z.pow_pos_nonneg; lia|].
        assert (2 ^ (- e - 1) < 2 ^ (- e)) by (apply Z.pow_lt_mono_r; lia).
        assert (1 <= 2 ^ (- e - 1)) by (pose proof (Z.pow_pos_nonneg 2 (- e - 1)); lia).
        nia. }
      assert (Z.pos (digits2_pos n) <= 53) as Hdn.
      { rewrite digits2_pos_log2. rewrite digits2_pos_log2 in Hd.
        pose proof (Z.log2_le_mono _ _ Hnm). lia. }
      assert (binary_normalize F64.prec F64.emax (cond_Zopp s (Z.pos n)) 0 false
              = binary_round 53 1024 s n 0) as -> by now destruct s.
      pose proof (Pos2Z.is_pos (digits2_pos n)).
      destruct (binary_round64_double_of s n 0) as (m2 & e2 & -> & He2 & Hm2 & _);
        [lia|lia|].
      unfold F64.to_int64. destruct (0 <=? e2) eqn:E2.
      * apply Z.leb_le in E2. assert (e2 = 0) as -> by lia.
        cbn [Z.leb Z.compare].
        rewrite Z.shiftl_0_r, Hm2, Z.mul_1_r. now rewrite int64_range by lia.
      * rewrite Z.shiftr_div_pow2 by lia. apply Z.leb_gt in E2.
        rewrite Hm2. replace (0 - e2) with (- e2) by lia.
        rewrite Z.div_mul by (apply Z.pow_nonzero; lia).
        now rewrite int64_range by lia.
Qed.

(** The fixed-point encoding of a finite datum. *)
Lemma fixed_point_encode_finite (x : float) :
  F32.valid x = true -> is_finite x = true ->
  Z.abs (scaled_round x 8) < 2 ^ 63 ->
  fixed_point_encode x = Some (scaled_round x 8).
Proof.
  intros Hv Hf Hlt. destruct x as [s| | |s m e]; try discriminate.
  - reflexivity.
  - unfold fixed_point_encode, scaled_round in *.
    change SPDZ_FIXED_PRECISION with 8. rewrite pow2_8.
    pose proof (valid32_inv s m e Hv) as Hinv.
    pose proof (Pos2Z.is_pos (digits2_pos m)).
    pose proof (round_half_up_nonneg (Z.pos m) (e + 8) ltac:(lia)).
    apply (round_to_int64 _ s m (e + 8)).
    + apply mul_pow2_double_of; [now apply of_float_double_of|lia].
    + destruct s; cbn [cond_Zopp] in Hlt; lia.
Qed.

(** *** The numbers of finite data *)

Lemma Qpower2_scaled (e t : Z) :
  0 <= t -> 0 <= e + t ->
  (2 ^ e == (2 ^ (e + t)) # (Z.to_pos (2 ^ t)))%Q.
Proof.
  intros Ht Het.
  assert (~ (2 == 0)%Q) as H2 by discriminate.
  assert (0 < 2 ^ t) as Hpos by (apply Z.pow_pos_nonneg; lia).
  assert ((2 ^ (e + t))%Q == 2 ^ e * 2 ^ t)%Q as Hsum by now apply Qpower_plus.
  rewrite <- (Zpower_Qpower 2 (e + t)), <- (Zpower_Qpower 2 t) in Hsum by lia.
  assert (~ (inject_Z (2 ^ t) == 0)%Q) as Hnz.
  { unfold Qeq. cbn. lia. }
  apply (Qmult_inj_r _ _ (inject_Z (2 ^ t)) Hnz). rewrite <- Hsum.
  unfold Qeq, Qmult, inject_Z. cbn [Qnum Qden].
  rewrite Pos.mul_1_r, Z2Pos.id by lia. lia.
Qed.

(** The number of a finite datum over the denominator [2^t]. *)
Lemma value_scaled (s : bool) (m : positive) (e t : Z) :
  0 <= t -> 0 <= e + t ->
  (value (S754_finite s m e)
   == (cond_Zopp s (Z.pos m) * 2 ^ (e + t)) # (Z.to_pos (2 ^ t)))%Q.
Proof.
  intros Ht Het. unfold value. rewrite (Qpower2_scaled e t Ht Het).
  unfold Qeq. cbn. lia.
Qed.

(** *** The fixed-point decoding *)

Lemma of_Z64_double_of (N : Z) :
  N <> 0 -> Z.abs N < 2 ^ 53 ->
  double_of (F64.of_Z N) (N <? 0) (Z.to_pos (Z.abs N)) 0.
Proof.
  intros Hnz Hlt. unfold F64.of_Z, binary_normalize.
  assert (forall n, Z.pos n < 2 ^ 53 -> Z.pos (digits2_pos n) <= 53) as Hd.
  { intros n Hn. rewrite digits2_pos_log2.
    apply Z.log2_lt_pow2 in Hn; lia. }
  destruct N as [|n|n]; [congruence| |]; cbn [Z.ltb Z.compare Z.abs Z.to_pos].
  - pose proof (Hd n Hlt). pose proof (Pos2Z.is_pos (digits2_pos n)).
    apply binary_round64_double_of; lia.
  - pose proof (Hd n Hlt). pose proof (Pos2Z.is_pos (digits2_pos n)).
    apply binary_round64_double_of; lia.
Qed.

(** The conversion of a [double] with at most 24 significant bits. *)
Lemma of_double_exact (x : double) (s : bool) (a : positive) (k : Z) :
  double_of x s a k ->
  Z.pos (digits2_pos a) <= 24 -> -125 <= Z.pos (digits2_pos a) + k <= 128 ->
  exists m e, F32.of_double x = S754_finite s m e /\ e <= k /\
              Z.pos m = Z.pos a * 2 ^ (k - e) /\
              F32.valid (S754_finite s m e) = true.
Proof.
  intros (M & E & -> & HEk & HM & HD) Hda Hk.
  assert (Z.pos (digits2_pos a) + (k - E) = 53) as Hsum
      by (rewrite <- (digits2_pos_mul_pow2 M a (k - E)); lia).
  unfold F32.of_double, binary_round.
  change F32.prec with 24. change F32.emax with 128.
  assert (fexp 24 128 (Z.pos (digits2_pos M) + E) = E + 29) as HE
      by (rewrite fexp32; lia).
  rewrite HE.
  assert (shl_align M E (E + 29) = (M, E)) as ->.
  { unfold shl_align. replace (E + 29 - E) with 29 by lia. reflexivity. }
  assert (exists m, Z.pos m = Z.pos a * 2 ^ (k - E - 29)) as (m & Hm).
  { exists (Z.to_pos (Z.pos a * 2 ^ (k - E - 29))). rewrite Z2Pos.id; [reflexivity|].
    apply Z.mul_pos_pos; [lia|]. apply Z.pow_pos_nonneg; lia. }
  assert (Z.pos M = Z.pos m * 2 ^ 29) as HMm.
  { rewrite Hm, HM, <- Z.mul_assoc, <- Z.pow_add_r by lia. f_equal. f_equal. lia. }
  exists m, (E + 29).
  rewrite (binary_round_aux_exact 24 128 s M m E 29) by (lia || assumption).
  split; [reflexivity|]. split; [lia|]. split.
  - rewrite Hm. f_equal. f_equal. lia.
  - unfold F32.valid, valid_binary, bounded, canonical_mantissa.
    change (fexp F32.prec F32.emax) with (fexp 24 128). rewrite fexp32.
    rewrite (digits2_pos_mul_pow2 m a (k - E - 29)) by (lia || exact Hm).
    apply andb_true_iff. rewrite Z.eqb_eq, Z.leb_le.
    change (F32.emax - F32.prec) with 104. lia.
Qed.

Lemma fixed_point_decode_exact (N : Z) :
  N <> 0 -> Z.abs N < 2 ^ 24 ->
  exists m e, fixed_point_decode N = S754_finite (N <? 0) m e /\ e <= -8 /\
              Z.pos m = Z.abs N * 2 ^ (- 8 - e) /\
              F32.valid (S754_finite (N <? 0) m e) = true.
Proof.
  intros Hnz Hlt. unfold fixed_point_decode.
  change (- SPDZ_FIXED_PRECISION) with (-8). rewrite pow2_minus_8.
  assert (Z.pos (Z.to_pos (Z.abs N)) = Z.abs N) as Habs
      by (apply Z2Pos.id; lia).
  assert (Z.pos (digits2_pos (Z.to_pos (Z.abs N))) <= 24) as Hd.
  { rewrite digits2_pos_log2, Habs.
    apply Z.log2_lt_pow2 in Hlt; lia. }
  pose proof (Pos2Z.is_pos (digits2_pos (Z.to_pos (Z.abs N)))) as Hdp.
  destruct (of_double_exact
              (F64.mul (F64.of_Z N) (S754_finite false 4503599627370496 (-8 - 52)))
              (N <? 0) (Z.to_pos (Z.abs N)) (0 + -8))
    as (m & e & Hr & He & Hm & Hv).
  - apply mul_pow2_double_of; [|lia]. apply of_Z64_double_of; lia.
  - exact Hd.
  - lia.
  - exists m, e. rewrite Hr. split; [reflexivity|]. split; [lia|].
    split; [|exact Hv]. rewrite Hm, Habs. reflexivity.
Qed.

(** The decoded [float] stands for exactly [N / 2^8]. *)
Lemma fixed_point_decode_value (N : Z) :
  Z.abs N < 2 ^ 24 -> (value (fixed_point_decode N) == N # 256)%Q.
Proof.
  intros Hlt. destruct (Z.eq_dec N 0) as [->|Hnz]; [reflexivity|].
  destruct (fixed_point_decode_exact N Hnz Hlt) as (m & e & -> & He & Hm & _).
  rewrite (value_scaled _ m e (- e)) by lia.
  replace (e + - e) with 0 by lia. rewrite Z.pow_0_r, Z.mul_1_r.
  unfold Qeq. cbn [Qnum Qden].
  rewrite Z2Pos.id by (apply Z.pow_pos_nonneg; lia).
  replace (- e) with (- 8 - e + 8) by lia. rewrite Z.pow_add_r by lia.
  change (Z.pos 256) with (2 ^ 8).
  destruct N as [|n|n]; [congruence| |]; cbn [Z.ltb Z.compare cond_Zopp Z.abs] in *.
  - rewrite Hm. ring.
  - rewrite Hm. change (Z.neg n) with (- Z.pos n). ring.
Qed.

(** *** Signed integers in the field *)

Lemma to_signed_assign (p N : Z) :
  0 < p -> - ((p - 1) / 2) <= N <= (p - 1) / 2 ->
  Gfp.to_signed_bigint p (Gfp.assign p N) = N.
Proof.
  intros Hp HN. unfold Gfp.to_signed_bigint, Gfp.assign.
  assert (2 * ((p - 1) / 2) <= p - 1) as Hhalf
      by (apply Z.mul_div_le; lia).
  destruct (Z_lt_le_dec N 0) as [Hneg|Hpos].
  - assert (N mod p = N + p) as ->.
    { symmetry. apply (Z.mod_unique N p (-1)); lia. }
    replace ((p - 1) / 2 <? N + p) with true by (symmetry; apply Z.ltb_lt; lia).
    lia.
  - rewrite Z.mod_small by lia.
    replace ((p - 1) / 2 <? N) with false by (symmetry; apply Z.ltb_ge; lia).
    reflexivity.
Qed.

Lemma get_si_small (z : Z) : - 2 ^ 63 <= z < 2 ^ 63 -> get_si z = z.
Proof.
  intros H. unfold get_si. destruct (0 <=? z) eqn:E.
  - apply Z.leb_le in E. apply Z.mod_small. lia.
  - apply Z.leb_gt in E. rewrite Z.mod_small by lia. lia.
Qed.

Lemma long_to_int_small (z : Z) : - 2 ^ 31 <= z < 2 ^ 31 -> long_to_int z = z.
Proof.
  intros H. unfold long_to_int. rewrite Z.mod_small by lia. lia.
Qed.

(** *** The fixed-point round trip *)

(** [round_half_up a k] is within one half of [a * 2^k]; the statement
    is scaled by [2^t] to stay within the integers. *)
Lemma round_half_up_error (a k t : Z) :
  0 <= a -> 0 <= k + t -> 0 <= t ->
  2 * Z.abs (round_half_up a k * 2 ^ t - a * 2 ^ (k + t)) <= 2 ^ t.
Proof.
  intros Ha Hkt Ht. unfold round_half_up. destruct (0 <=? k) eqn:E.
  - apply Z.leb_le in E. rewrite Z.pow_add_r by lia.
    replace (a * 2 ^ k * 2 ^ t - a * (2 ^ k * 2 ^ t)) with 0 by ring.
    pose proof (Z.pow_nonneg 2 t). cbn. lia.
  - apply Z.leb_gt in E.
    set (u := - k) in *. assert (1 <= u) as Hu by lia.
    assert (0 < 2 ^ u) as Hpu by (apply Z.pow_pos_nonneg; lia).
    assert (2 ^ u = 2 * 2 ^ (u - 1)) as Hhalf.
    { rewrite <- Z.pow_succ_r by lia. f_equal. lia. }
    replace (- k - 1) with (u - 1) by lia.
    set (r := (a + 2 ^ (u - 1)) / 2 ^ u).
    pose proof (Z.div_mod (a + 2 ^ (u - 1)) (2 ^ u) ltac:(lia)) as Hdm.
    pose proof (Z.mod_pos_bound (a + 2 ^ (u - 1)) (2 ^ u) Hpu) as Hmod.
    fold r in Hdm.
    assert (2 * Z.abs (r * 2 ^ u - a) <= 2 ^ u) as Hcore by lia.
    assert (0 < 2 ^ (k + t)) as Hpk by (apply Z.pow_pos_nonneg; lia).
    assert (2 ^ t = 2 ^ u * 2 ^ (k + t)) as Hsplit.
    { rewrite <- Z.pow_add_r by lia. f_equal. lia. }
    rewrite Hsplit.
    replace (r * (2 ^ u * 2 ^ (k + t)) - a * 2 ^ (k + t))
      with ((r * 2 ^ u - a) * 2 ^ (k + t)) by ring.
    rewrite Z.abs_mul, (Z.abs_eq (2 ^ (k + t))) by lia. nia.
Qed.

(** The number of a finite datum of the format over [2^149]. *)
Lemma value_over_2_149 (s : bool) (m : positive) (e : Z) :
  -149 <= e ->
  (value (S754_finite s m e)
   == (cond_Zopp s (Z.pos m * 2 ^ (e + 149))) # (Z.to_pos (2 ^ 149)))%Q.
Proof.
  intros He. rewrite (value_scaled s m e 149) by lia.
  now destruct s; cbn [cond_Zopp]; rewrite ?Z.mul_opp_l.
Qed.

Lemma cond_Zopp_abs (s : bool) (z : Z) : Z.abs (cond_Zopp s z) = Z.abs z.
Proof. destruct s; cbn [cond_Zopp]; lia. Qed.

(** The integer sent for a finite datum is within one half of 256 times
    its number. *)
Lemma scaled_round_error (x : float) :
  F32.valid x = true -> is_finite x = true ->
  (Qabs (inject_Z (scaled_round x 8) - 256 * value x) <= 1 # 2)%Q.
Proof.
  intros Hv Hf. destruct x as [s| | |s m e]; try discriminate Hf.
  - vm_compute. discriminate.
  - pose proof (valid32_inv s m e Hv) as (_ & He & _).
    rewrite (value_over_2_149 s m e) by lia.
    pose proof (round_half_up_error (Z.pos m) (e + 8) 149 ltac:(lia) ltac:(lia)
                                    ltac:(lia)) as Herr.
    replace (e + 8 + 149) with (8 + (e + 149)) in Herr by lia.
    rewrite (Z.pow_add_r 2 8 (e + 149)) in Herr by lia.
    change (2 ^ 8) with 256 in Herr.
    unfold scaled_round.
    set (r := round_half_up (Z.pos m) (e + 8)) in *.
    set (V := Z.pos m * 2 ^ (e + 149)) in *.
    assert (Z.pos (Z.to_pos (2 ^ 149)) = 2 ^ 149) as HD by reflexivity.
    set (D := Z.to_pos (2 ^ 149)) in *. rewrite <- HD in Herr.
    unfold Qle, Qabs, Qminus, Qplus, Qopp, Qmult, inject_Z. cbn [Qnum Qden].
    rewrite !Pos.mul_1_l.
    replace (cond_Zopp s r * Z.pos D + - (256 * cond_Zopp s V) * 1)
      with (cond_Zopp s (r * Z.pos D - 256 * V))
      by (destruct s; cbn [cond_Zopp]; ring).
    rewrite cond_Zopp_abs. lia.
Qed.

(** A datum below [2^8] in magnitude is sent as an integer of at most
    [2^16] in magnitude. *)
Lemma scaled_round_small (x : float) :
  F32.valid x = true -> is_finite x = true -> (Qabs (value x) < 256)%Q ->
  Z.abs (scaled_round x 8) <= 2 ^ 16.
Proof.
  intros Hv Hf Hlt. destruct x as [s| | |s m e]; try discriminate Hf.
  - cbn. lia.
  - pose proof (valid32_inv s m e Hv) as (_ & He & _).
    rewrite (value_over_2_149 s m e) in Hlt by lia.
    unfold Qlt, Qabs in Hlt. cbn [Qnum Qden] in Hlt.
    rewrite cond_Zopp_abs, Z.mul_1_r in Hlt.
    change (Z.pos (Z.to_pos (2 ^ 149))) with (2 ^ 149) in Hlt.
    assert (0 < 2 ^ (e + 149)) as Hp by (apply Z.pow_pos_nonneg; lia).
    rewrite Z.abs_eq in Hlt by lia.
    unfold scaled_round. rewrite cond_Zopp_abs.
    pose proof (round_half_up_error (Z.pos m) (e + 8) 149 ltac:(lia) ltac:(lia)
                                    ltac:(lia)) as Herr.
    replace (e + 8 + 149) with (8 + (e + 149)) in Herr by lia.
    rewrite (Z.pow_add_r 2 8 (e + 149)) in Herr by lia.
    change (2 ^ 8) with 256 in Herr.
    pose proof (round_half_up_nonneg (Z.pos m) (e + 8) ltac:(lia)) as Hnn.
    rewrite Z.abs_eq by exact Hnn.
    set (r := round_half_up (Z.pos m) (e + 8)) in *.
    set (V := Z.pos m * 2 ^ (e + 149)) in *.
    assert (Z.pos m * (256 * 2 ^ (e + 149)) = 256 * V) as HV by (unfold V; ring).
    rewrite HV in Herr.
    assert (2 ^ 149 = 2 * 2 ^ 148) as H149 by reflexivity.
    assert (0 < 2 ^ 148) as H148 by reflexivity.
    change (2 ^ 16) with 65536.
    destruct (Z_le_gt_dec r 65536) as [Hle|Hgt]; [exact Hle|exfalso].
    assert (65537 * 2 ^ 149 <= r * 2 ^ 149) as Hbig by nia.
    lia.
Qed.

Lemma encode_shares_spec (shares : list float) :
  Forall (fun y => F32.valid y = true /\ is_finite y = true /\
                   Z.abs (scaled_round y 8) < 2 ^ 63) shares ->
  encode_shares shares = Some (map (fun y => scaled_round y 8) shares).
Proof.
  induction 1 as [|y shares (Hv & Hf & Hlt) _ IH]; [reflexivity|].
  cbn [encode_shares map]. now rewrite (fixed_point_encode_finite y Hv Hf Hlt), IH.
Qed.

Lemma half_field (p : Z) : 2 ^ 17 < p -> 2 ^ 16 <= (p - 1) / 2.
Proof. intros H. apply Z.div_le_lower_bound; lia. Qed.

Lemma decode_share_assign (p N : Z) :
  2 ^ 17 < p -> Z.abs N <= 2 ^ 16 ->
  decode_share p (Gfp.assign p N) = fixed_point_decode N.
Proof.
  intros Hp HN. pose proof (half_field p Hp). unfold decode_share.
  rewrite to_signed_assign by lia. now rewrite get_si_small by lia.
Qed.

(** *** [receive_result] *)

Section ResultFacts.

Variable p : Z.

Lemma accumulate_outputs_spec (outs : list gfp) (os : octetStream) :
  (length outs <= length os)%nat ->
  exists outs',
    accumulate_outputs p outs os = Some outs' /\
    length outs' = length outs /\
    forall j, (j < length outs)%nat ->
      nth j outs' 0 = Gfp.add p (nth j outs 0) (nth j os 0).
Proof.
  revert os. induction outs as [|o outs IH]; intros os Hlen.
  - exists []. repeat split. cbn; intros; lia.
  - destruct os as [|v os]; [cbn in Hlen; lia|].
    destruct (IH os) as (outs' & Hr & Hl & Hn); [cbn in Hlen; lia|].
    exists (Gfp.add p o v :: outs'). cbn [accumulate_outputs unpack].
    rewrite Hr. split; [reflexivity|]. split; [cbn; now rewrite Hl|].
    intros [|j] Hj; [reflexivity|]. cbn [nth]. apply Hn. cbn in Hj. lia.
Qed.

Lemma receive_outputs_spec (inc : incoming) (size count first : nat)
      (outs : list gfp) :
  length outs = size ->
  (forall i, (first <= i < first + count)%nat ->
     exists os, nth_error inc i = Some os /\ (size <= length os)%nat) ->
  exists outs',
    receive_outputs p inc first count outs = Some outs' /\
    length outs' = size /\
    forall j, (j < size)%nat ->
      nth j outs' 0 = sum_outputs p inc first count (nth j outs 0) j.
Proof.
  revert first outs. induction count as [|count IH]; intros first outs Hlen Hfr.
  - exists outs. repeat split; auto.
  - destruct (Hfr first) as (os & Hos & Hlo); [lia|].
    destruct (accumulate_outputs_spec outs os) as (outs1 & H1 & Hl1 & Hn1); [lia|].
    destruct (IH (S first) outs1) as (outs' & Hr & Hl' & Hn').
    + lia.
    + intros i Hi. apply Hfr. lia.
    + exists outs'. cbn [receive_outputs]. rewrite Hos, H1.
      split; [exact Hr|]. split; [exact Hl'|].
      intros j Hj. rewrite (Hn' j Hj), (Hn1 j) by lia.
      cbn [sum_outputs]. now rewrite (nth_error_nth _ _ _ Hos).
Qed.

Lemma firstn_nth_seq {A : Type} (l : list A) (k : nat) (d : A) :
  (k <= length l)%nat -> firstn k l = map (fun j => nth j l d) (seq 0 k).
Proof.
  revert k. induction l as [|a l IH]; intros [|k] Hk; cbn in *; try lia; auto.
  f_equal. rewrite <- seq_shift, map_map. apply IH. lia.
Qed.

(** C9 (amended). On a vector [sockets] with an entry for each of the
    [n_parties] engines, which deliver [k = size >= 1] elements each,
    [output_values[j]] is the field sum of the engines' [j]-th elements
    taken in engine order; the result has [k - 1] floats, the [i]-th
    being the decoding [static_cast<float>(t * 2^-8)] of the signed
    representative [t] of [output_values[i]] read as an [int64_t], and
    [best_split_index] is the signed representative of
    [output_values[k - 1]] narrowed to [int].  The float stands for
    exactly [t / 2^8] when [|t| < 2^24]; the index is the signed
    representative itself when that is an [int], and in any case an
    [int] that differs from the representative by a multiple of
    [2^32]. *)
Theorem receive_result_decodes
        (sockets : list Z) (inc : incoming) (n_parties size : nat) :
  (n_parties <= length sockets)%nat ->
  (0 < size)%nat -> outputs_framed inc n_parties size ->
  Wire.receive_result p sockets inc n_parties size
  = Returned (map (fun i => decode_share p (opened p inc n_parties i))
                  (seq 0 (size - 1)),
              decode_index p (opened p inc n_parties (size - 1))) /\
  length (map (fun i => decode_share p (opened p inc n_parties i))
              (seq 0 (size - 1))) = (size - 1)%nat /\
  (forall v, Z.abs (Gfp.to_signed_bigint p v) < 2 ^ 24 ->
     (value (decode_share p v) == Gfp.to_signed_bigint p v # 256)%Q) /\
  (forall v, - 2 ^ 31 <= Gfp.to_signed_bigint p v < 2 ^ 31 ->
     decode_index p v = Gfp.to_signed_bigint p v) /\
  (forall v, - 2 ^ 31 <= decode_index p v < 2 ^ 31 /\
             (decode_index p v - Gfp.to_signed_bigint p v) mod 2 ^ 32 = 0).
Proof.
  intros Hsock Hsize Hfr.
  split; [|split; [|split; [|split]]].
  - rewrite (wire_receive_result_within p sockets inc n_parties size Hsock).
    destruct (receive_outputs_spec inc size n_parties 0 (repeat Gfp.zero size))
      as (outs & Hr & Hl & Hn).
    + apply repeat_length.
    + intros i Hi. apply Hfr. lia.
    + unfold receive_result. rewrite Hr.
      destruct size as [|size_1]; [lia|].
      unfold vec_at. rewrite (nth_error_nth' outs 0) by lia.
      replace (S size_1 - 1)%nat with size_1 by lia.
      rewrite (firstn_nth_seq outs size_1 0) by lia. rewrite map_map.
      f_equal. f_equal.
      * apply map_ext_in. intros j Hj. apply in_seq in Hj.
        rewrite (Hn j) by lia. now rewrite nth_repeat.
      * rewrite (Hn size_1) by lia. now rewrite nth_repeat.
  - now rewrite length_map, length_seq.
  - intros v Hv. unfold decode_share.
    rewrite get_si_small by lia. apply fixed_point_decode_value. exact Hv.
  - intros v Hv. unfold decode_index.
    rewrite get_si_small by lia. now apply long_to_int_small.
  - intros v. unfold decode_index. set (t := Gfp.to_signed_bigint p v).
    assert (exists q, get_si t = t + q * 2 ^ 32) as [q Hq].
    { unfold get_si. destruct (0 <=? t).
      - exists (- (t / 2 ^ 63) * 2 ^ 31).
        rewrite (Z.mod_eq t (2 ^ 63)) by lia. lia.
      - exists ((- t - 1) / 2 ^ 63 * 2 ^ 31).
        rewrite (Z.mod_eq (- t - 1) (2 ^ 63)) by lia. lia. }
    unfold long_to_int.
    pose proof (Z.mod_pos_bound (get_si t + 2 ^ 31) (2 ^ 32) ltac:(lia)) as Hb.
    split; [lia|].
    rewrite (Z.mod_eq (get_si t + 2 ^ 31) (2 ^ 32)) by lia.
    set (k := (get_si t + 2 ^ 31) / 2 ^ 32). rewrite Hq.
    replace (t + q * 2 ^ 32 + 2 ^ 31 - 2 ^ 32 * k - 2 ^ 31 - t)
      with ((q - k) * 2 ^ 32) by lia.
    apply Z.mod_mul. lia.
Qed.

End ResultFacts.

(** Two engines over the field of 101 elements: the shares [1, 2, 3] and
    [4, 5, 100] open to [5, 7, 2]; the result is [5/256, 7/256] with
    index 2. *)
Lemma receive_result_decodes_witness :
  Wire.receive_result 101 [3; 4] [[1; 2; 3]; [4; 5; 100]] 2 3
  = Returned ([fixed_point_decode 5; fixed_point_decode 7], 2).
Proof.
  assert (outputs_framed [[1; 2; 3]; [4; 5; 100]] 2 3) as Hfr.
  { intros [|[|i]] Hi; [eexists; split; [reflexivity|simpl; lia]..|lia]. }
  assert (2 <= length [3; 4])%nat as Hs by (simpl; lia).
  exact (proj1 (receive_result_decodes 101 [3; 4] [[1; 2; 3]; [4; 5; 100]] 2 3
                  Hs ltac:(lia) Hfr)).
Defined.

(** The claim as stated fails outside these ranges.  One engine over
    the field of [2^61 - 1] elements delivers [2^24 + 1] and [2^31]:
    the entry returned is the [float] 65536, not [(2^24 + 1) / 2^8],
    which no [float] stands for; and the index returned is [- 2^31],
    not the signed representative [2^31], which is no [int]. *)
Lemma receive_result_range_counterexample :
  Wire.receive_result 2305843009213693951 [3] [[16777217; 2147483648]] 1 2
  = Returned ([S754_finite false 8388608 (-7)], - 2147483648) /\
  Gfp.to_signed_bigint 2305843009213693951 16777217 = 16777217 /\
  (value (S754_finite false 8388608 (-7)) == 65536)%Q /\
  ~ (value (S754_finite false 8388608 (-7)) == 16777217 # 256)%Q /\
  Gfp.to_signed_bigint 2305843009213693951 2147483648 = 2147483648 /\
  - 2147483648 <> 2147483648.
Proof.
  split; [vm_compute; reflexivity|]. split; [reflexivity|].
  split; [reflexivity|]. split; [|split; [reflexivity|lia]].
  intros H. vm_compute in H. discriminate H.
Qed.

(** *** [sort_indexes] *)

(** The claim as stated fails on the program as linked with the GNU
    library: for a column of seventeen equal values [std::sort] goes
    through one round of its quicksort, whose partition swaps equal
    elements, and returns the indexes in the order
    8, 16, 15, ..., 9, 0, 7, ..., 1.  Index 8 comes before index 0, and
    not after it, although the two values are equal. *)
Lemma sort_indexes_stability_counterexample :
  GnuSort.sort
    (fun i1 i2 => F32.ltb (nth i1 seventeen_ones S754_nan)
                          (nth i2 seventeen_ones S754_nan))
    (seq 0 (length seventeen_ones))
  = Some [8; 16; 15; 14; 13; 12; 11; 10; 9; 0; 7; 6; 5; 4; 3; 2; 1]%nat /\
  sort_indexes GnuSort.std_sort seventeen_ones
  = [8; 16; 15; 14; 13; 12; 11; 10; 9; 0; 7; 6; 5; 4; 3; 2; 1]%nat /\
  (0 < 8 < length seventeen_ones)%nat /\
  F32.eqb (nth 0 seventeen_ones S754_nan) (nth 8 seventeen_ones S754_nan) = true /\
  precedes 8 0 (sort_indexes GnuSort.std_sort seventeen_ones) /\
  ~ precedes 0 8 (sort_indexes GnuSort.std_sort seventeen_ones).
Proof.
  assert (sort_indexes GnuSort.std_sort seventeen_ones
          = [8; 16; 15; 14; 13; 12; 11; 10; 9; 0; 7; 6; 5; 4; 3; 2; 1]%nat) as E
      by (vm_compute; reflexivity).
  split; [vm_compute; reflexivity|]. split; [exact E|].
  split; [unfold seventeen_ones; rewrite repeat_length; lia|].
  split; [vm_compute; reflexivity|]. rewrite E. split.
  - exists 0%nat, 9%nat. cbn. repeat split; lia.
  - intros (a & b & Hab & Ha & Hb). cbn [length] in Hab.
    assert (b = 0%nat) as ->; [|lia].
    do 17 (destruct b as [|b]; [try reflexivity; discriminate Hb|]).
    lia.
Qed.

(** C4 (amended). On a column without NaN, [sort_indexes] returns a
    rearrangement of the indexes [0 .. n - 1] along which the values do
    not descend, whatever the implementation of [std::sort]; the order
    of indexes with equal values is not fixed, but on a column without a
    negative zero the sequence of values along the order is the same for
    every implementation. *)
Theorem sort_indexes_sorted_rearrangement
        (std_sort : (nat -> nat -> bool) -> list nat -> list nat) (v : list float) :
  sort_contract std_sort -> nan_free v ->
  Permutation (seq 0 (length v)) (sort_indexes std_sort v) /\
  (forall a b, (a < b < length v)%nat ->
     F32.leb (nth (nth a (sort_indexes std_sort v) 0%nat) v S754_nan)
             (nth (nth b (sort_indexes std_sort v) 0%nat) v S754_nan) = true) /\
  (no_negative_zero v ->
   forall other_sort, sort_contract other_sort ->
     values_along v (sort_indexes other_sort v)
     = values_along v (sort_indexes std_sort v)).
Proof.
  intros Hsort Hnan. split; [|split].
  - now apply sort_indexes_perm.
  - intros a b Hab.
    pose proof (values_along_sorted std_sort Hsort v Hnan) as Hs.
    pose proof (StronglySorted_nth _ _ S754_nan Hs a b) as Hn.
    rewrite (values_along_length std_sort Hsort v Hnan) in Hn.
    specialize (Hn Hab). unfold values_along in Hn.
    rewrite !(nth_map_lt _ _ _ 0%nat) in Hn
      by (rewrite (sort_indexes_length std_sort Hsort v Hnan); lia).
    exact Hn.
  - intros Hz other Hother. now apply values_along_any_sort.
Qed.

(** The column [3, 1, 2] with the insertion sort. *)
Lemma sort_indexes_sorted_rearrangement_witness :
  Permutation (seq 0 3) (sort_indexes insertion_sort
                           [F32.of_Z 3; F32.of_Z 1; F32.of_Z 2]) /\
  sort_indexes insertion_sort [F32.of_Z 3; F32.of_Z 1; F32.of_Z 2]
  = [1%nat; 2%nat; 0%nat].
Proof.
  split; [|reflexivity].
  apply (sort_indexes_sorted_rearrangement insertion_sort
           [F32.of_Z 3; F32.of_Z 1; F32.of_Z 2] insertion_sort_contract).
  intros x [<-|[<-|[<-|[]]]]; reflexivity.
Defined.

(** *** [compute_splits]: the positions read in continuous mode *)

Lemma upper_position_in_range (n i : nat) :
  (10 <= n)%nat -> (i < 8)%nat ->
  (lower_position n i < upper_position n i < n)%nat.
Proof.
  intros Hn Hi. unfold lower_position, upper_position.
  pose proof (Nat.div_mod_eq n 9) as Hd.
  pose proof (Nat.mod_upper_bound n 9 ltac:(lia)) as Hm.
  assert (1 <= n / 9)%nat as Hq by (apply Nat.div_le_lower_bound; lia).
  nia.
Qed.

(** A check that decides both side conditions on a given column. *)
Lemma plain_column (v : list float) :
  forallb (fun x => match x with
                    | S754_nan | S754_zero true => false
                    | _ => true
                    end) v = true ->
  nan_free v /\ no_negative_zero v.
Proof.
  intros H. rewrite forallb_forall in H. split; intros x Hx.
  - specialize (H x Hx). now destruct x.
  - specialize (H x Hx). intros ->. discriminate.
Qed.

(** C3. In continuous mode nothing clamps the upper position: with nine
    samples the last boundary reads sorted position 9 of a nine-element
    vector, and the run of [compute_splits] on the column [1, ..., 9]
    is undefined, whatever the implementation of [std::sort]. *)
Theorem compute_splits_nine_samples_out_of_range
        (std_sort : (nat -> nat -> bool) -> list nat -> list nat) :
  sort_contract std_sort ->
  upper_position 9 7 = 9%nat /\
  threshold (map F32.of_Z [1; 2; 3; 4; 5; 6; 7; 8; 9]) 7 = None /\
  compute_splits std_sort (map F32.of_Z [1; 2; 3; 4; 5; 6; 7; 8; 9]) = Undefined.
Proof.
  intros Hsort. split; [reflexivity|]. split; [reflexivity|].
  destruct (plain_column (map F32.of_Z [1; 2; 3; 4; 5; 6; 7; 8; 9]))
    as [Hnan Hz]; [reflexivity|].
  rewrite (compute_splits_any_sort std_sort _ Hsort Hnan Hz).
  vm_compute. reflexivity.
Qed.

Lemma compute_splits_nine_samples_out_of_range_witness :
  compute_splits insertion_sort (map F32.of_Z [1; 2; 3; 4; 5; 6; 7; 8; 9])
  = Undefined.
Proof.
  apply (compute_splits_nine_samples_out_of_range insertion_sort
           insertion_sort_contract).
Defined.

(** *** [compute_splits]: categorical and degenerate columns *)

(** The claim as stated fails on a column with a NaN: [5, NaN, 5] is
    left in place by the insertion sort, no neighbour compares equal,
    and the value 5 is listed twice. *)
Lemma compute_splits_nan_counterexample :
  compute_distinct_values [F32.of_Z 5; S754_nan; F32.of_Z 5]
    (sort_indexes insertion_sort [F32.of_Z 5; S754_nan; F32.of_Z 5])
  = Some [F32.of_Z 5; S754_nan; F32.of_Z 5] /\
  compute_splits insertion_sort [F32.of_Z 5; S754_nan; F32.of_Z 5]
  = Returned (F32.of_Z 2 :: [F32.of_Z 5; S754_nan; F32.of_Z 5]
                ++ repeat (F32.of_Z (-1)) 5, []) /\
  ~ ascending [F32.of_Z 5; S754_nan; F32.of_Z 5].
Proof.
  split; [vm_compute; reflexivity|]. split; [vm_compute; reflexivity|].
  intros H. apply StronglySorted_inv in H. destruct H as [_ H].
  apply Forall_inv in H. vm_compute in H. discriminate.
Qed.

(** C7 (amended). On a column without NaN, the scan finds the distinct
    values [dv] in strictly ascending order, each of them a value of the
    column and every value of the column equal to one of them.  With 2
    to 8 of them, [compute_splits] returns the count minus one, then
    [dv], then the sentinel [-1] up to nine elements, and writes nothing;
    with one (or none) it returns [0] and eight sentinels and writes the
    warning, without stopping.  The column [1, 1, 2, 2, 3] gives
    [2, 1, 2, 3, -1, -1, -1, -1, -1]. *)
Theorem compute_splits_categorical
        (std_sort : (nat -> nat -> bool) -> list nat -> list nat) (v : list float) :
  sort_contract std_sort -> nan_free v ->
  (exists dv,
      compute_distinct_values v (sort_indexes std_sort v) = Some dv /\
      ascending dv /\
      (forall d, In d dv -> In d v) /\
      (forall x, In x v -> exists d, In d dv /\ F32.eqb d x = true) /\
      ((2 <= length dv <= 8)%nat ->
       compute_splits std_sort v
       = Returned (F32.of_Z (Z.of_nat (length dv - 1))
                     :: dv ++ repeat (F32.of_Z (-1)) (8 - length dv), [])) /\
      ((length dv <= 1)%nat ->
       compute_splits std_sort v
       = Returned (F32.of_Z 0 :: repeat (F32.of_Z (-1)) 8,
                   [one_distinct_value_message]))) /\
  compute_splits std_sort (map F32.of_Z [1; 1; 2; 2; 3])
  = Returned (map F32.of_Z [2; 1; 2; 3; -1; -1; -1; -1; -1], []) /\
  compute_splits std_sort (map F32.of_Z [4; 4; 4; 4])
  = Returned (map F32.of_Z [0; -1; -1; -1; -1; -1; -1; -1; -1],
              [one_distinct_value_message]).
Proof.
  intros Hsort Hnan. split; [|split].
  - set (w := values_along v (sort_indexes std_sort v)).
    destruct (distinct_of_sorted_spec w) as (Hasc & Hin & Hcov).
    + now apply values_along_nan_free.
    + now apply values_along_sorted.
    + exists (distinct_of_sorted w).
      split; [now apply compute_distinct_values_along|].
      split; [exact Hasc|]. split; [|split; [|split]].
      * intros d Hd. apply Hin in Hd.
        apply (Permutation_in _ (Permutation_sym
                                   (values_along_perm _ Hsort _ Hnan)) Hd).
      * intros x Hx. apply Hcov.
        apply (Permutation_in _ (values_along_perm _ Hsort _ Hnan) Hx).
      * intros Hlen. rewrite compute_splits_from_sorted by assumption.
        unfold splits_from_sorted. fold w.
        replace (9 <=? length (distinct_of_sorted w))%nat with false
          by (symmetry; apply Nat.leb_gt; lia).
        replace (1 <? length (distinct_of_sorted w))%nat with true
          by (symmetry; apply Nat.ltb_lt; lia).
        reflexivity.
      * intros Hlen. rewrite compute_splits_from_sorted by assumption.
        unfold splits_from_sorted. fold w.
        replace (9 <=? length (distinct_of_sorted w))%nat with false
          by (symmetry; apply Nat.leb_gt; lia).
        replace (1 <? length (distinct_of_sorted w))%nat with false
          by (symmetry; apply Nat.ltb_ge; lia).
        reflexivity.
  - destruct (plain_column (map F32.of_Z [1; 1; 2; 2; 3])) as [Hn Hz];
      [reflexivity|].
    rewrite (compute_splits_any_sort std_sort _ Hsort Hn Hz).
    vm_compute. reflexivity.
  - destruct (plain_column (map F32.of_Z [4; 4; 4; 4])) as [Hn Hz];
      [reflexivity|].
    rewrite (compute_splits_any_sort std_sort _ Hsort Hn Hz).
    vm_compute. reflexivity.
Qed.

(** The column [1, 1, 2, 2, 3] with the insertion sort. *)
Lemma compute_splits_categorical_witness :
  compute_splits insertion_sort (map F32.of_Z [1; 1; 2; 2; 3])
  = Returned (map F32.of_Z [2; 1; 2; 3; -1; -1; -1; -1; -1], []).
Proof.
  assert (nan_free (map F32.of_Z [1; 1; 2; 2; 3])) as Hnan
      by (apply plain_column; reflexivity).
  exact (proj1 (proj2 (compute_splits_categorical insertion_sort _
                         insertion_sort_contract Hnan))).
Defined.

(** ** The [float] arithmetic of the thresholds *)

(** *** Rounding to nearest, ties to even *)

Lemma shr_1_spec (m : Z) (r s : bool) :
  0 <= m ->
  shr_1 (Build_shr_record m r s) = Build_shr_record (Z.div2 m) (Z.odd m) (r || s).
Proof.
  intros Hm. destruct m as [|[m|m|]|m]; try lia; reflexivity.
Qed.

Lemma mod_pow2_succ (m k : Z) :
  0 <= k ->
  m mod 2 ^ (k + 1) = m mod 2 ^ k + 2 ^ k * (if Z.testbit m k then 1 else 0).
Proof.
  intros Hk. rewrite Z.pow_add_r, Z.pow_1_r by lia.
  rewrite Z.rem_mul_r by (try apply Z.pow_nonzero; lia).
  f_equal. f_equal.
  rewrite Z.testbit_odd, Z.shiftr_div_pow2 by lia.
  rewrite Zmod_odd. reflexivity.
Qed.

(** [k] steps of [shr_1] from an exact record. *)
Lemma iter_shr_spec (m : Z) (k : positive) :
  0 <= m ->
  Pos.iter shr_1 (Build_shr_record m false false) k
  = Build_shr_record (m / 2 ^ Z.pos k) (Z.testbit m (Z.pos k - 1))
                     (negb (m mod 2 ^ (Z.pos k - 1) =? 0)).
Proof.
  intros Hm. induction k as [|k IH] using Pos.peano_ind.
  - cbn [Pos.iter]. rewrite shr_1_spec by exact Hm.
    rewrite Z.div2_div. cbn [orb]. replace (Z.pos 1 - 1) with 0 by lia.
    rewrite Z.pow_0_r, Z.mod_1_r, Z.bit0_odd. reflexivity.
  - rewrite Pos.iter_succ, IH.
    rewrite shr_1_spec by (apply Z.div_pos; [lia|apply Z.pow_pos_nonneg; lia]).
    rewrite Pos2Z.inj_succ.
    replace (Z.succ (Z.pos k) - 1) with (Z.pos k - 1 + 1) by lia.
    f_equal.
    + rewrite Z.div2_div, Z.div_div by (try apply Z.pow_pos_nonneg; lia).
      f_equal. rewrite Z.pow_succ_r by lia. lia.
    + rewrite (Z.testbit_odd m (Z.pos k - 1 + 1)), Z.shiftr_div_pow2 by lia.
      f_equal. f_equal. f_equal. lia.
    + rewrite mod_pow2_succ by lia.
      pose proof (Z.mod_pos_bound m (2 ^ (Z.pos k - 1))
                                  ltac:(apply Z.pow_pos_nonneg; lia)) as Hb.
      assert (0 < 2 ^ (Z.pos k - 1)) by (apply Z.pow_pos_nonneg; lia).
      destruct (Z.testbit m (Z.pos k - 1)); cbn [orb].
      * symmetry. apply negb_true_iff, Z.eqb_neq. lia.
      * now rewrite Z.mul_0_r, Z.add_0_r.
Qed.

(** The rounding of the shifted record is [rne]. *)
Lemma shr_round_rne (m : positive) (e : Z) (k : positive) :
  exists mrs,
    shr (Build_shr_record (Z.pos m) false false) e (Z.pos k) = (mrs, e + Z.pos k) /\
    round_nearest_even (shr_m mrs) (loc_of_shr_record mrs) = rne (Z.pos m) (Z.pos k).
Proof.
  eexists. split.
  - unfold shr. rewrite iter_pos_iter, iter_shr_spec by lia. reflexivity.
  - cbn [shr_m]. unfold rne.
    set (K := Z.pos k). set (M := Z.pos m).
    assert (0 < 2 ^ (K - 1)) as Hh by (apply Z.pow_pos_nonneg; lia).
    assert (2 ^ K = 2 ^ (K - 1) + 2 ^ (K - 1)) as HK.
    { replace K with (K - 1 + 1) at 1 by lia.
      rewrite Z.pow_add_r, Z.pow_1_r by lia. lia. }
    pose proof (mod_pow2_succ M (K - 1) ltac:(lia)) as Hmod.
    replace (K - 1 + 1) with K in Hmod by lia.
    pose proof (Z.mod_pos_bound M (2 ^ (K - 1)) Hh) as Hb.
    destruct (Z.testbit M (K - 1)) eqn:Hbit;
      destruct (M mod 2 ^ (K - 1) =? 0) eqn:Hz;
      [apply Z.eqb_eq in Hz|apply Z.eqb_neq in Hz
       |apply Z.eqb_eq in Hz|apply Z.eqb_neq in Hz];
      cbn [negb loc_of_shr_record round_nearest_even].
    + replace (M mod 2 ^ K <? 2 ^ (K - 1)) with false
        by (symmetry; apply Z.ltb_ge; lia).
      replace (2 ^ (K - 1) <? M mod 2 ^ K) with false
        by (symmetry; apply Z.ltb_ge; lia).
      reflexivity.
    + replace (M mod 2 ^ K <? 2 ^ (K - 1)) with false
        by (symmetry; apply Z.ltb_ge; lia).
      replace (2 ^ (K - 1) <? M mod 2 ^ K) with true
        by (symmetry; apply Z.ltb_lt; lia).
      reflexivity.
    + replace (M mod 2 ^ K <? 2 ^ (K - 1)) with true
        by (symmetry; apply Z.ltb_lt; lia).
      reflexivity.
    + replace (M mod 2 ^ K <? 2 ^ (K - 1)) with true
        by (symmetry; apply Z.ltb_lt; lia).
      reflexivity.
Qed.

(** [rne] lies between the quotient and its successor and is monotone. *)
Lemma rne_bounds (m k : Z) : m / 2 ^ k <= rne m k <= m / 2 ^ k + 1.
Proof.
  unfold rne. destruct (_ <? _); [lia|]. destruct (_ <? _); [lia|].
  destruct (Z.even _); lia.
Qed.

Lemma rne_mono (m1 m2 k : Z) : 0 <= k -> m1 <= m2 -> rne m1 k <= rne m2 k.
Proof.
  intros Hk Hm.
  assert (0 < 2 ^ k) as Hp by (apply Z.pow_pos_nonneg; lia).
  pose proof (Z.div_le_mono m1 m2 (2 ^ k) Hp Hm) as Hq.
  destruct (Z.eq_dec (m1 / 2 ^ k) (m2 / 2 ^ k)) as [Heq|Hne].
  - assert (m1 mod 2 ^ k <= m2 mod 2 ^ k) as Hr.
    { rewrite !Z.mod_eq by lia. rewrite Heq. lia. }
    unfold rne. rewrite Heq.
    destruct (m1 mod 2 ^ k <? 2 ^ (k - 1)) eqn:A1;
      destruct (m2 mod 2 ^ k <? 2 ^ (k - 1)) eqn:A2;
      destruct (2 ^ (k - 1) <? m1 mod 2 ^ k) eqn:B1;
      destruct (2 ^ (k - 1) <? m2 mod 2 ^ k) eqn:B2;
      destruct (Z.even (m2 / 2 ^ k));
      rewrite ?Z.ltb_lt, ?Z.ltb_ge in *; lia.
  - pose proof (rne_bounds m1 k). pose proof (rne_bounds m2 k). lia.
Qed.

(** *** Rounding a count of units *)

Section Format.

Variables prec emax : Z.
Hypothesis Hprec : 1 <= prec.
Hypothesis Hemax : 2 <= emax.

Let emin := emin prec emax.
Let fexp := fexp prec emax.

Lemma fexp_spec (x : Z) : fexp x = Z.max (x - prec) emin.
Proof. reflexivity. Qed.

Lemma emin_spec : emin = 3 - emax - prec.
Proof. reflexivity. Qed.

Lemma rne_normal (x : positive) (k : Z) :
  0 < k -> Z.pos (digits2_pos x) = prec + k ->
  2 ^ (prec - 1) <= rne (Z.pos x) k <= 2 ^ prec.
Proof.
  intros Hk Hd. pose proof (digits2_pos_bounds x) as Hb. rewrite Hd in Hb.
  pose proof (rne_bounds (Z.pos x) k) as Hr.
  assert (0 < 2 ^ k) as Hp by (apply Z.pow_pos_nonneg; lia).
  assert (2 ^ (prec - 1) <= Z.pos x / 2 ^ k).
  { apply Z.div_le_lower_bound; [lia|].
    rewrite <- Z.pow_add_r by lia.
    replace (k + (prec - 1)) with (prec + k - 1) by lia. lia. }
  assert (Z.pos x / 2 ^ k < 2 ^ prec).
  { apply Z.div_lt_upper_bound; [lia|].
    rewrite <- Z.pow_add_r by lia. replace (k + prec) with (prec + k) by lia. lia. }
  lia.
Qed.

(** The rounding of [x] units. *)
Lemma binary_round_units (s : bool) (x : positive) :
  binary_round prec emax s x emin = float_of_units prec emax s (Z.pos x).
Proof.
  unfold float_of_units, round_units.
  rewrite <- digits2_pos_log2.
  pose proof (Pos2Z.is_pos (digits2_pos x)) as Hdpos.
  destruct (Z.pos (digits2_pos x) <=? prec) eqn:Hd.
  - apply Z.leb_le in Hd.
    assert (fexp (Z.pos (digits2_pos x) + emin) = emin) as HE
        by (rewrite fexp_spec; lia).
    destruct (binary_round_exact prec emax s x emin) as (mz & Hr & Hmz).
    + fold fexp. lia.
    + fold fexp. rewrite HE, emin_spec. lia.
    + fold fexp in Hr, Hmz. rewrite HE in Hr, Hmz.
      rewrite Z.sub_diag, Z.mul_1_r in Hmz. injection Hmz as ->.
      rewrite Hr. fold emin.
      replace (emin <=? emax - prec) with true
        by (symmetry; apply Z.leb_le; rewrite emin_spec; lia).
      reflexivity.
  - apply Z.leb_gt in Hd.
    set (k := Z.pos (digits2_pos x) - prec) in *.
    assert (0 < k) as Hk by lia.
    assert (fexp (Z.pos (digits2_pos x) + emin) = emin + k) as HE
        by (rewrite fexp_spec; lia).
    destruct k as [|kp|kp] eqn:Ek; try lia.
    destruct (shr_round_rne x emin kp) as (mrs & Hshr & Hround).
    pose proof (rne_normal x (Z.pos kp) ltac:(lia) ltac:(lia)) as Hq.
    assert (0 < 2 ^ (prec - 1)) as Hpp by (apply Z.pow_pos_nonneg; lia).
    unfold binary_round. fold fexp. rewrite HE.
    assert (shl_align x emin (emin + Z.pos kp) = (x, emin)) as ->.
    { unfold shl_align. replace (emin + Z.pos kp - emin) with (Z.pos kp) by lia.
      reflexivity. }
    unfold binary_round_aux, shr_fexp. fold fexp.
    cbn [Zdigits2 shr_record_of_loc]. rewrite HE.
    replace (emin + Z.pos kp - emin) with (Z.pos kp) by lia.
    rewrite Hshr, Hround. fold emin.
    set (q := rne (Z.pos x) (Z.pos kp)) in *.
    destruct (q =? 2 ^ prec) eqn:Hcarry.
    + apply Z.eqb_eq in Hcarry.
      assert (exists qp, q = Z.pos qp) as (qp & Hqp).
      { exists (Z.to_pos q). rewrite Z2Pos.id; lia. }
      rewrite Hqp. cbn [Zdigits2 shr_record_of_loc].
      assert (Z.pos (digits2_pos qp) = prec + 1) as Hdq.
      { rewrite digits2_pos_log2, <- Hqp, Hcarry, Z.log2_pow2 by lia. lia. }
      rewrite Hdq.
      replace (fexp (prec + 1 + (emin + Z.pos kp)) - (emin + Z.pos kp)) with 1
        by (rewrite fexp_spec; lia).
      assert (exists hp, Z.pos hp = 2 ^ (prec - 1)) as (hp & Hhp).
      { exists (Z.to_pos (2 ^ (prec - 1))). rewrite Z2Pos.id; lia. }
      rewrite (shr_exact qp hp 1 (emin + Z.pos kp)); cbn [shr_m].
      * rewrite <- Hhp, Pos2Z.id. reflexivity.
      * lia.
      * rewrite <- Hqp, Hcarry, Hhp, <- Z.pow_add_r by lia. f_equal. lia.
    + apply Z.eqb_neq in Hcarry.
      assert (exists qp, q = Z.pos qp) as (qp & Hqp).
      { exists (Z.to_pos q). rewrite Z2Pos.id; lia. }
      rewrite Hqp. cbn [Zdigits2 shr_record_of_loc].
      assert (Z.pos (digits2_pos qp) = prec) as Hdq.
      { rewrite digits2_pos_log2, <- Hqp.
        assert (Z.log2 q = prec - 1); [|lia].
        apply Z.log2_unique; [lia|]. replace (Z.succ (prec - 1)) with prec by lia.
        lia. }
      rewrite Hdq.
      replace (fexp (prec + (emin + Z.pos kp)) - (emin + Z.pos kp)) with 0
        by (rewrite fexp_spec; lia).
      cbn [shr shr_m]. rewrite Pos2Z.id. reflexivity.
Qed.

Lemma shl_align_none (m : positive) (e e' : Z) :
  e <= e' -> shl_align m e e' = (m, e).
Proof.
  intros H. unfold shl_align. destruct (e' - e) eqn:E; try reflexivity. lia.
Qed.

(** A datum of the format is rounded to itself. *)
Lemma binary_round_valid (s : bool) (m : positive) (e : Z) :
  bounded prec emax m e = true ->
  binary_round prec emax s m e = S754_finite s m e.
Proof.
  unfold bounded, canonical_mantissa. intros H.
  apply andb_true_iff in H. destruct H as [Hc Hb].
  apply Z.eqb_eq in Hc. apply Z.leb_le in Hb.
  destruct (binary_round_exact prec emax s m e) as (mz & Hr & Hmz); try lia.
  rewrite Hc in Hr, Hmz. rewrite Z.sub_diag, Z.mul_1_r in Hmz.
  injection Hmz as ->. exact Hr.
Qed.

Lemma bounded_inv (m : positive) (e : Z) :
  bounded prec emax m e = true ->
  fexp (Z.pos (digits2_pos m) + e) = e /\ emin <= e <= emax - prec /\
  Z.pos (digits2_pos m) <= prec.
Proof.
  unfold bounded, canonical_mantissa. intros H.
  apply andb_true_iff in H. destruct H as [Hc Hb].
  apply Z.eqb_eq in Hc. apply Z.leb_le in Hb. fold fexp in Hc.
  pose proof Hc as Hc'. rewrite fexp_spec in Hc'.
  pose proof (Pos2Z.is_pos (digits2_pos m)). repeat split; lia.
Qed.

(** The rounding depends on the number only: a mantissa at exponent [e]
    is rounded as the same number counted in units of [2^emin]. *)
Lemma binary_round_to_units (s : bool) (m x : positive) (e : Z) :
  emin <= e <= emax - prec -> Z.pos x = Z.pos m * 2 ^ (e - emin) ->
  binary_round prec emax s m e = binary_round prec emax s x emin.
Proof.
  intros He Hx.
  assert (Z.pos (digits2_pos x) = Z.pos (digits2_pos m) + (e - emin)) as Hdx
      by (apply digits2_pos_mul_pow2; [lia|exact Hx]).
  set (E := fexp (Z.pos (digits2_pos m) + e)).
  assert (fexp (Z.pos (digits2_pos x) + emin) = E) as HEx.
  { unfold E. f_equal. lia. }
  assert (emin <= E) as HEmin by (unfold E; rewrite fexp_spec; lia).
  destruct (Z_le_gt_dec E e) as [Hle|Hgt].
  - destruct (binary_round_exact prec emax s m e) as (mz & Hr & Hmz);
      [fold fexp; fold E; lia..|].
    fold fexp in Hr, Hmz. fold E in Hr, Hmz. rewrite Hr.
    unfold binary_round. fold fexp. rewrite HEx.
    rewrite (shl_align_none x emin E HEmin).
    rewrite (binary_round_aux_exact prec emax s x mz emin (E - emin)).
    + f_equal. lia.
    + lia.
    + rewrite Hx, Hmz, <- Z.mul_assoc, <- Z.pow_add_r by lia. f_equal. f_equal. lia.
    + fold fexp. rewrite HEx. lia.
    + lia.
  - unfold binary_round. fold fexp. fold E. rewrite HEx.
    rewrite (shl_align_none m e E) by lia.
    rewrite (shl_align_none x emin E HEmin).
    unfold binary_round_aux.
    assert (shr_fexp prec emax (Z.pos x) emin loc_Exact
            = shr_fexp prec emax (Z.pos m) e loc_Exact) as ->; [|reflexivity].
    unfold shr_fexp. fold fexp. cbn [Zdigits2 shr_record_of_loc].
    fold E. rewrite HEx.
    destruct (E - e) as [|k0|k0] eqn:Ek0; try lia.
    destruct (E - emin) as [|k1|k1] eqn:Ek1; try lia.
    unfold shr. rewrite !iter_pos_iter, !iter_shr_spec by lia.
    assert (Z.pos k1 = Z.pos k0 + (e - emin)) as Hk by lia.
    assert (0 < 2 ^ (e - emin)) as Hp by (apply Z.pow_pos_nonneg; lia).
    f_equal; [|lia]. f_equal.
    + rewrite Hx, Hk, Z.pow_add_r by lia.
      apply Z.div_mul_cancel_r; lia.
    + rewrite Hx.
      replace (Z.pos k1 - 1) with (e - emin + (Z.pos k0 - 1)) by lia.
      apply Z.mul_pow2_bits_add. lia.
    + f_equal. rewrite Hx.
      replace (Z.pos k1 - 1) with (Z.pos k0 - 1 + (e - emin)) by lia.
      rewrite Z.pow_add_r by lia.
      rewrite Z.mul_mod_distr_r by (try apply Z.pow_nonzero; lia).
      destruct (Z.eqb_spec (Z.pos m mod 2 ^ (Z.pos k0 - 1)) 0) as [H0|H0].
      * rewrite H0. reflexivity.
      * apply Z.eqb_neq. nia.
Qed.

(** The results of [round_units] are normalised and ordered as the
    numbers of units. *)
Lemma round_units_normal (x : Z) :
  0 < x ->
  let '(mf, ef) := round_units prec emax x in
  0 < mf /\ emin <= ef /\ (Z.log2 mf + 1 <= prec) /\
  (ef = emin \/ Z.log2 mf + 1 = prec).
Proof.
  intros Hx. unfold round_units. fold emin.
  pose proof (Z.log2_nonneg x) as Hl.
  destruct (Z.log2 x + 1 <=? prec) eqn:Hd.
  - apply Z.leb_le in Hd. split; [lia|]. split; [lia|]. split; [lia|]. now left.
  - apply Z.leb_gt in Hd. set (k := Z.log2 x + 1 - prec).
    assert (exists xp, x = Z.pos xp) as (xp & ->)
        by (exists (Z.to_pos x); rewrite Z2Pos.id; lia).
    pose proof (rne_normal xp k ltac:(lia)
                  ltac:(rewrite digits2_pos_log2; unfold k; lia)) as Hq.
    assert (0 < 2 ^ (prec - 1)) as Hpp by (apply Z.pow_pos_nonneg; lia).
    destruct (rne (Z.pos xp) k =? 2 ^ prec) eqn:Hc.
    + rewrite Z.log2_pow2 by lia. split; [lia|]. split; [lia|]. split; [lia|].
      right. lia.
    + apply Z.eqb_neq in Hc.
      assert (Z.log2 (rne (Z.pos xp) k) = prec - 1) as Hlog.
      { apply Z.log2_unique; [lia|]. replace (Z.succ (prec - 1)) with prec by lia.
        lia. }
      split; [lia|]. split; [lia|]. split; [lia|]. right. lia.
Qed.

Lemma round_units_lex (x1 x2 : Z) :
  0 < x1 <= x2 ->
  let '(m1, e1) := round_units prec emax x1 in
  let '(m2, e2) := round_units prec emax x2 in
  e1 < e2 \/ (e1 = e2 /\ m1 <= m2).
Proof.
  intros Hx. unfold round_units. fold emin.
  pose proof (Z.log2_le_mono x1 x2 ltac:(lia)) as Hlog.
  pose proof (Z.log2_nonneg x1) as Hl1.
  assert (forall x, 0 < x -> prec < Z.log2 x + 1 ->
            2 ^ (prec - 1) <= rne x (Z.log2 x + 1 - prec) <= 2 ^ prec) as Hn.
  { intros x Hxp Hd.
    assert (exists xp, x = Z.pos xp) as (xp & ->)
        by (exists (Z.to_pos x); rewrite Z2Pos.id; lia).
    apply rne_normal; [lia|]. rewrite digits2_pos_log2. lia. }
  pose proof (Hn x1 ltac:(lia)) as Hq1.
  pose proof (Hn x2 ltac:(lia)) as Hq2.
  assert (Z.log2 x1 = Z.log2 x2 -> prec < Z.log2 x2 + 1 ->
          rne x1 (Z.log2 x1 + 1 - prec) <= rne x2 (Z.log2 x2 + 1 - prec)) as Hm.
  { intros Heq Hd. rewrite Heq. apply rne_mono; lia. }
  clear Hn.
  set (q1 := rne x1 (Z.log2 x1 + 1 - prec)) in *.
  set (q2 := rne x2 (Z.log2 x2 + 1 - prec)) in *.
  destruct (Z.log2 x1 + 1 <=? prec) eqn:Hd1;
    destruct (Z.log2 x2 + 1 <=? prec) eqn:Hd2;
    destruct (q1 =? 2 ^ prec) eqn:C1;
    destruct (q2 =? 2 ^ prec) eqn:C2;
    cbv beta iota;
    rewrite ?Z.leb_le, ?Z.leb_gt, ?Z.eqb_eq, ?Z.eqb_neq in *; lia.
Qed.

Lemma finite_leb_lex (m1 m2 : positive) (e1 e2 : Z) :
  e1 < e2 \/ (e1 = e2 /\ Z.pos m1 <= Z.pos m2) ->
  SFleb (S754_finite false m1 e1) (S754_finite false m2 e2) = true /\
  SFleb (S754_finite true m2 e2) (S754_finite true m1 e1) = true.
Proof.
  intros H.
  destruct (Z.eq_dec e1 e2) as [He|He];
    [destruct (Z.eq_dec (Z.pos m1) (Z.pos m2)) as [Hm|Hm]|].
  - injection Hm as ->. subst e2. split.
    + apply (leb_rank (S754_finite false m2 e1) (S754_finite false m2 e1));
        try reflexivity. now right.
    + apply (leb_rank (S754_finite true m2 e1) (S754_finite true m2 e1));
        try reflexivity. now right.
  - split.
    + apply (leb_rank (S754_finite false m1 e1) (S754_finite false m2 e2));
        try reflexivity. left. cbn. lia.
    + apply (leb_rank (S754_finite true m2 e2) (S754_finite true m1 e1));
        try reflexivity. left. cbn. lia.
  - split.
    + apply (leb_rank (S754_finite false m1 e1) (S754_finite false m2 e2));
        try reflexivity. left. cbn. lia.
    + apply (leb_rank (S754_finite true m2 e2) (S754_finite true m1 e1));
        try reflexivity. left. cbn. lia.
Qed.

(** The datum built from a result of [round_units]. *)
Lemma float_of_units_cases (s : bool) (x : Z) :
  0 < x ->
  exists mf ef,
    round_units prec emax x = (Z.pos mf, ef) /\
    emin <= ef /\ Z.pos (digits2_pos mf) <= prec /\
    (ef = emin \/ Z.pos (digits2_pos mf) = prec) /\
    float_of_units prec emax s x
    = (if ef <=? emax - prec then S754_finite s mf ef else S754_infinity s).
Proof.
  intros Hx. pose proof (round_units_normal x Hx) as H.
  unfold float_of_units. destruct (round_units prec emax x) as [mf ef].
  destruct H as (Hm & He & Hd & Hc).
  exists (Z.to_pos mf), ef. rewrite digits2_pos_log2, Z2Pos.id by lia.
  repeat split; auto.
Qed.

Lemma float_of_units_valid (s : bool) (x : Z) :
  0 < x -> valid_binary prec emax (float_of_units prec emax s x) = true.
Proof.
  intros Hx. destruct (float_of_units_cases s x Hx)
    as (mf & ef & _ & He & Hd & Hc & ->).
  destruct (ef <=? emax - prec) eqn:Hb; [|reflexivity].
  cbn [valid_binary]. unfold bounded, canonical_mantissa. rewrite Hb.
  fold fexp. rewrite andb_true_r. apply Z.eqb_eq. rewrite fexp_spec.
  pose proof (Pos2Z.is_pos (digits2_pos mf)). lia.
Qed.

(** Rounding is monotone, for either sign. *)
Lemma float_of_units_leb (x1 x2 : Z) :
  0 < x1 <= x2 ->
  SFleb (float_of_units prec emax false x1) (float_of_units prec emax false x2)
  = true /\
  SFleb (float_of_units prec emax true x2) (float_of_units prec emax true x1)
  = true.
Proof.
  intros Hx. pose proof (round_units_lex x1 x2 Hx) as Hlex.
  destruct (float_of_units_cases false x1 ltac:(lia))
    as (m1 & e1 & Hr1 & _ & _ & _ & Hf1).
  destruct (float_of_units_cases true x1 ltac:(lia))
    as (m1' & e1' & Hr1' & _ & _ & _ & Ht1).
  destruct (float_of_units_cases false x2 ltac:(lia))
    as (m2 & e2 & Hr2 & _ & _ & _ & Hf2).
  destruct (float_of_units_cases true x2 ltac:(lia))
    as (m2' & e2' & Hr2' & _ & _ & _ & Ht2).
  rewrite Hr1 in Hr1'. injection Hr1' as <- <-.
  rewrite Hr2 in Hr2'. injection Hr2' as <- <-.
  rewrite Hr1, Hr2 in Hlex. rewrite Hf1, Hf2, Ht1, Ht2.
  destruct (e1 <=? emax - prec) eqn:B1; destruct (e2 <=? emax - prec) eqn:B2;
    rewrite ?Z.leb_le, ?Z.leb_gt in *; try (split; reflexivity); try lia.
  apply finite_leb_lex. lia.
Qed.

(** The rounding of a signed number of units. *)
Lemma binary_normalize_units (S : Z) :
  binary_normalize prec emax S emin false
  = match S with
    | Z0 => S754_zero false
    | Z.pos x => float_of_units prec emax false (Z.pos x)
    | Z.neg x => float_of_units prec emax true (Z.pos x)
    end.
Proof.
  destruct S as [|x|x]; cbn [binary_normalize]; [reflexivity| |];
    apply binary_round_units.
Qed.

Lemma binary_normalize_to_units (S e : Z) :
  emin <= e <= emax - prec ->
  binary_normalize prec emax S e false
  = binary_normalize prec emax (S * 2 ^ (e - emin)) emin false.
Proof.
  intros He.
  assert (0 < 2 ^ (e - emin)) as Hp by (apply Z.pow_pos_nonneg; lia).
  destruct S as [|m|m].
  - reflexivity.
  - destruct (Z.pos m * 2 ^ (e - emin)) as [|x|x] eqn:Hx; try lia.
    cbn [binary_normalize]. now apply binary_round_to_units.
  - destruct (Z.neg m * 2 ^ (e - emin)) as [|x|x] eqn:Hx; try lia.
    cbn [binary_normalize]. apply binary_round_to_units; [exact He|]. lia.
Qed.

End Format.

(** *** Addition in [float] *)

Lemma float_of_units32_cases (S : Z) :
  float_of_units32 S
  = match S with
    | Z0 => S754_zero false
    | Z.pos x => float_of_units 24 128 false (Z.pos x)
    | Z.neg x => float_of_units 24 128 true (Z.pos x)
    end.
Proof. apply (binary_normalize_units 24 128); lia. Qed.

Lemma float_of_units_shape (s : bool) (x : positive) :
  (exists m e, float_of_units 24 128 s (Z.pos x) = S754_finite s m e) \/
  float_of_units 24 128 s (Z.pos x) = S754_infinity s.
Proof.
  assert (1 <= 24) as Hp by lia. assert (0 < Z.pos x) as Hx by lia.
  destruct (float_of_units_cases 24 128 Hp s (Z.pos x) Hx)
    as (mf & ef & _ & _ & _ & _ & ->).
  destruct (ef <=? 128 - 24); eauto.
Qed.

Lemma float_of_units32_valid (S : Z) :
  F32.valid (float_of_units32 S) = true /\ F32.is_nan (float_of_units32 S) = false.
Proof.
  rewrite float_of_units32_cases. destruct S as [|x|x].
  - split; reflexivity.
  - split; [apply (float_of_units_valid 24 128); lia|].
    destruct (float_of_units_shape false x) as [(m & e & ->)| ->]; reflexivity.
  - split; [apply (float_of_units_valid 24 128); lia|].
    destruct (float_of_units_shape true x) as [(m & e & ->)| ->]; reflexivity.
Qed.

(** Rounding is monotone. *)
Lemma float_of_units32_mono (S1 S2 : Z) :
  S1 <= S2 -> F32.leb (float_of_units32 S1) (float_of_units32 S2) = true.
Proof.
  intros H. rewrite !float_of_units32_cases. unfold F32.leb.
  destruct S1 as [|x1|x1], S2 as [|x2|x2]; try lia; try reflexivity.
  - destruct (float_of_units_shape false x2) as [(m & e & ->)| ->]; reflexivity.
  - apply (float_of_units_leb 24 128); lia.
  - destruct (float_of_units_shape true x1) as [(m & e & ->)| ->]; reflexivity.
  - destruct (float_of_units_shape true x1) as [(m & e & ->)| ->];
      destruct (float_of_units_shape false x2) as [(m' & e' & ->)| ->];
      reflexivity.
  - apply (float_of_units_leb 24 128); lia.
Qed.

(** A finite datum of the format is the rounding of its units. *)
Lemma float_of_units32_id (s : bool) (m : positive) (e : Z) :
  F32.valid (S754_finite s m e) = true ->
  float_of_units32 (units32 (S754_finite s m e)) = S754_finite s m e.
Proof.
  intros Hv. pose proof (valid32_inv s m e Hv) as (_ & He & _).
  assert (0 < 2 ^ (e + 149)) as Hp by (apply Z.pow_pos_nonneg; lia).
  unfold float_of_units32, units32.
  destruct (Z.pos m * 2 ^ (e + 149)) as [|x|x] eqn:Hx; try lia.
  rewrite <- (binary_round_valid 24 128 s m e Hv).
  rewrite (binary_round_to_units 24 128 s m x e);
    [now destruct s|change (emin 24 128) with (-149); lia|].
  change (emin 24 128) with (-149). rewrite <- Hx. f_equal.
Qed.

(** The sum of two finite data of the format is the rounding of the sum
    of their units. *)
Lemma add_finite (sa sb : bool) (ma mb : positive) (ea eb : Z) :
  F32.valid (S754_finite sa ma ea) = true ->
  F32.valid (S754_finite sb mb eb) = true ->
  F32.add (S754_finite sa ma ea) (S754_finite sb mb eb)
  = float_of_units32 (units32 (S754_finite sa ma ea)
                      + units32 (S754_finite sb mb eb)).
Proof.
  intros Ha Hb.
  pose proof (valid32_inv sa ma ea Ha) as (_ & Hea & _).
  pose proof (valid32_inv sb mb eb Hb) as (_ & Heb & _).
  unfold F32.add, SFadd. change F32.prec with 24. change F32.emax with 128.
  set (ez := Z.min ea eb).
  destruct (shl_align_spec ma ea ez ltac:(lia)) as (mza & -> & Hmza).
  destruct (shl_align_spec mb eb ez ltac:(lia)) as (mzb & -> & Hmzb).
  cbn [fst].
  rewrite (binary_normalize_to_units 24 128)
    by (change (emin 24 128) with (-149); lia).
  change (emin 24 128) with (-149). unfold float_of_units32. f_equal.
  unfold units32.
  replace (ea + 149) with (ea - ez + (ez - -149)) by lia.
  replace (eb + 149) with (eb - ez + (ez - -149)) by lia.
  rewrite !Z.pow_add_r by lia. rewrite !Z.mul_assoc, <- Hmza, <- Hmzb.
  destruct sa, sb; cbn [cond_Zopp]; ring.
Qed.

Lemma eqb_leb (x y : float) : F32.eqb x y = true -> F32.leb x y = true.
Proof.
  intros H. destruct (eqb_true_not_nan _ _ H) as [Hx Hy].
  apply eqb_rank in H; auto. apply leb_rank; auto.
Qed.

Lemma leb_leb_rank (x y : float) :
  F32.leb x y = true -> F32.leb y x = true -> rank x = rank y.
Proof.
  intros Hxy Hyx. destruct (leb_true_not_nan _ _ Hxy) as [Hx Hy].
  apply leb_rank in Hxy; auto. apply leb_rank in Hyx; auto.
  destruct Hxy as [Hxy|Hxy]; [|exact Hxy].
  destruct Hyx as [Hyx|Hyx]; [|now symmetry].
  exfalso. apply (lex_lt_irrefl (rank x)). eapply lex_lt_trans; eassumption.
Qed.

(** The order of the finite data of the format is the order of their
    units. *)
Lemma units32_le (a b : float) :
  is_finite a = true -> is_finite b = true ->
  F32.valid a = true -> F32.valid b = true ->
  F32.leb a b = true -> units32 a <= units32 b.
Proof.
  intros Fa Fb Va Vb Hle.
  destruct a as [sa| | |sa ma ea], b as [sb| | |sb mb eb];
    try discriminate Fa; try discriminate Fb.
  - cbn [units32]. lia.
  - destruct sb; [discriminate Hle|].
    assert (0 < 2 ^ (eb + 149)); [|cbn [units32 cond_Zopp]; lia].
    pose proof (valid32_inv _ _ _ Vb). apply Z.pow_pos_nonneg; lia.
  - destruct sa; [|discriminate Hle].
    assert (0 < 2 ^ (ea + 149)); [|cbn [units32 cond_Zopp]; lia].
    pose proof (valid32_inv _ _ _ Va). apply Z.pow_pos_nonneg; lia.
  - destruct (Z.le_gt_cases (units32 (S754_finite sa ma ea))
                            (units32 (S754_finite sb mb eb))) as [H|H]; [exact H|].
    exfalso.
    assert (F32.leb (S754_finite sb mb eb) (S754_finite sa ma ea) = true) as Hge.
    { rewrite <- (float_of_units32_id sa ma ea Va), <- (float_of_units32_id sb mb eb Vb).
      apply float_of_units32_mono. lia. }
    pose proof (leb_leb_rank _ _ Hle Hge) as Hr.
    assert (S754_finite sa ma ea = S754_finite sb mb eb) as Heq.
    { destruct sa, sb; cbn in Hr; try discriminate; injection Hr as He Hm;
        f_equal; lia. }
    rewrite Heq in H. lia.
Qed.

(** The sum of two finite data, whatever their kind. *)
Lemma add_units (a b : float) :
  is_finite a = true -> is_finite b = true ->
  F32.valid a = true -> F32.valid b = true ->
  F32.valid (F32.add a b) = true /\
  F32.eqb (F32.add a b) (float_of_units32 (units32 a + units32 b)) = true.
Proof.
  intros Fa Fb Va Vb.
  destruct a as [sa| | |sa ma ea], b as [sb| | |sb mb eb];
    try discriminate Fa; try discriminate Fb.
  - split; [now destruct sa, sb|now destruct sa, sb].
  - change (F32.add (S754_zero sa) (S754_finite sb mb eb))
      with (S754_finite sb mb eb).
    split; [exact Vb|]. cbn [units32]. rewrite Z.add_0_l.
    change (cond_Zopp sb (Z.pos mb * 2 ^ (eb + 149)))
      with (units32 (S754_finite sb mb eb)).
    rewrite float_of_units32_id by exact Vb. now apply eqb_refl.
  - change (F32.add (S754_finite sa ma ea) (S754_zero sb))
      with (S754_finite sa ma ea).
    split; [exact Va|]. cbn [units32]. rewrite Z.add_0_r.
    change (cond_Zopp sa (Z.pos ma * 2 ^ (ea + 149)))
      with (units32 (S754_finite sa ma ea)).
    rewrite float_of_units32_id by exact Va. now apply eqb_refl.
  - rewrite (add_finite sa sb ma mb ea eb Va Vb).
    split; [apply float_of_units32_valid|].
    apply eqb_refl, float_of_units32_valid.
Qed.

(** *** Halving in [float] *)

Lemma two_float : F32.of_Z 2 = S754_finite false 8388608 (-22).
Proof. reflexivity. Qed.

Lemma div_eucl_div_mod (a b : Z) : Z.div_eucl a b = (a / b, a mod b).
Proof. unfold Z.div, Z.modulo. now destruct (Z.div_eucl a b). Qed.

(** The quotient, exponent and remainder that the division by two
    hands to the rounding. *)
Lemma div_core_two (m : positive) (e : Z) :
  Z.pos (digits2_pos m) <= 24 -> -149 <= e ->
  SFdiv_core_binary 24 128 (Z.pos m) e 8388608 (-22)
  = let e' := Z.max (Z.pos (digits2_pos m) + e - 26) (-149) in
    let s := e + 22 - e' in
    (Z.pos m * 2 ^ s / 2 ^ 23, e',
     new_location 8388608 (Z.pos m * 2 ^ s mod 2 ^ 23)).
Proof.
  intros Hd He. unfold SFdiv_core_binary. cbn [Zdigits2].
  change (Z.pos (digits2_pos 8388608)) with 24.
  rewrite fexp32.
  set (d := Z.pos (digits2_pos m)) in *.
  pose proof (Pos2Z.is_pos (digits2_pos m)) as Hdpos. fold d in Hdpos.
  replace (Z.min (Z.max (d + e - (24 + -22) - 24) (-149)) (e - -22))
    with (Z.max (d + e - 26) (-149)) by lia.
  cbv zeta. set (e' := Z.max (d + e - 26) (-149)).
  replace (e - -22 - e') with (e + 22 - e') by lia.
  destruct (e + 22 - e') as [|s|s] eqn:Hs; try lia.
  rewrite Z.shiftl_mul_pow2 by lia.
  rewrite div_eucl_div_mod. reflexivity.
Qed.

(** Above the least exponent halving lowers the exponent by one. *)
Lemma div_two_normal (s : bool) (m : positive) (e : Z) :
  F32.valid (S754_finite s m e) = true -> -148 <= e ->
  F32.div (S754_finite s m e) (F32.of_Z 2) = S754_finite s m (e - 1).
Proof.
  intros Hv He. pose proof (valid32_inv s m e Hv) as (Hd & Hr & Hc).
  assert (Z.pos (digits2_pos m) = 24) as Hd24 by lia.
  rewrite two_float. unfold F32.div, SFdiv.
  change F32.prec with 24. change F32.emax with 128.
  rewrite div_core_two by lia. cbv zeta. rewrite Hd24, xorb_false_r.
  set (e' := Z.max (24 + e - 26) (-149)).
  set (n := e + 22 - e' - 23).
  assert (0 <= n <= 1) as Hn by lia.
  replace (e + 22 - e') with (n + 23) by lia.
  rewrite Z.pow_add_r, Z.mul_assoc by lia.
  rewrite Z.div_mul, Z.mod_mul by lia.
  change (new_location 8388608 0) with loc_Exact.
  assert (0 < 2 ^ n) as Hp by (apply Z.pow_pos_nonneg; lia).
  destruct (Z.pos m * 2 ^ n) as [|q|q] eqn:Hq; try lia.
  replace (e - 1) with (e' + n) by lia.
  apply binary_round_aux_exact; [lia|now symmetry| |lia].
  rewrite fexp32, (digits2_pos_mul_pow2 q m n) by (try symmetry; auto; lia). lia.
Qed.

(** At the least exponent halving rounds the mantissa. *)
Lemma div_two_subnormal (s : bool) (m : positive) :
  F32.valid (S754_finite s m (-149)) = true ->
  F32.div (S754_finite s m (-149)) (F32.of_Z 2)
  = match rne (Z.pos m) 1 with
    | Z0 => S754_zero s
    | Z.pos p => S754_finite s p (-149)
    | Z.neg _ => S754_nan
    end.
Proof.
  intros Hv. pose proof (valid32_inv s m _ Hv) as (Hd & _ & _).
  pose proof (Pos2Z.is_pos (digits2_pos m)) as Hdpos.
  pose proof (digits2_pos_bounds m) as [_ Hm].
  assert (Z.pos m < 2 ^ 24) as Hm24.
  { eapply Z.lt_le_trans; [exact Hm|]. apply Z.pow_le_mono_r; lia. }
  rewrite two_float. unfold F32.div, SFdiv.
  change F32.prec with 24. change F32.emax with 128.
  rewrite div_core_two by lia. cbv zeta. rewrite xorb_false_r.
  replace (Z.max (Z.pos (digits2_pos m) + -149 - 26) (-149)) with (-149) by lia.
  change (-149 + 22 - -149) with 22.
  change (2 ^ 23) with (2 * 2 ^ 22).
  rewrite Z.div_mul_cancel_r, Z.mul_mod_distr_r by lia.
  set (q := Z.pos m / 2). set (r := Z.pos m mod 2).
  assert (0 <= q < 2 ^ 23) as Hq.
  { unfold q. split; [apply Z.div_pos; lia|].
    apply Z.div_lt_upper_bound; lia. }
  assert (r = 0 \/ r = 1) as Hr
      by (pose proof (Z.mod_pos_bound (Z.pos m) 2 ltac:(lia)); unfold r; lia).
  assert (forall x, 0 <= x <= 2 ^ 23 -> fexp 24 128 (Zdigits2 x + -149) - -149 = 0)
    as Hfexp.
  { intros x Hx. rewrite fexp32. destruct x as [|x|x]; [reflexivity| |lia].
    cbn [Zdigits2]. rewrite digits2_pos_log2.
    assert (Z.log2 (Z.pos x) <= 23); [|lia].
    change 23 with (Z.log2 (2 ^ 23)). apply Z.log2_le_mono. lia. }
  assert (rne (Z.pos m) 1 = if r =? 0 then q else if Z.even q then q else q + 1)
    as Hrne.
  { unfold rne. change (2 ^ 1) with 2. change (2 ^ (1 - 1)) with 1.
    fold q r. destruct Hr as [-> | ->]; reflexivity. }
  assert (0 <= rne (Z.pos m) 1 <= 2 ^ 23) as Hb.
  { rewrite Hrne. destruct (r =? 0); [lia|]. destruct (Z.even q); lia. }
  assert (round_nearest_even q (new_location 8388608 (r * 2 ^ 22))
          = rne (Z.pos m) 1) as Hround.
  { rewrite Hrne. destruct Hr as [-> | ->]; reflexivity. }
  assert (loc_of_shr_record
            (shr_record_of_loc q (new_location 8388608 (r * 2 ^ 22)))
          = new_location 8388608 (r * 2 ^ 22)) as Hloc
      by (destruct Hr as [-> | ->]; reflexivity).
  unfold binary_round_aux, shr_fexp.
  rewrite (Hfexp q) by lia. cbn [shr]. cbn [shr_m shr_record_of_loc].
  assert (shr_m (shr_record_of_loc q (new_location 8388608 (r * 2 ^ 22))) = q)
    as Hshr by (destruct Hr as [-> | ->]; reflexivity).
  rewrite Hshr, Hloc, Hround, (Hfexp _ Hb). cbn [shr shr_m shr_record_of_loc].
  destruct (rne (Z.pos m) 1); reflexivity.
Qed.

Lemma rne_nonneg (m k : Z) : 0 <= m -> 0 <= rne m k.
Proof.
  intros Hm. pose proof (rne_bounds m k) as [H _].
  assert (0 <= m / 2 ^ k); [|lia].
  destruct (Z.le_gt_cases 0 k) as [Hk|Hk].
  - apply Z.div_pos; [lia|apply Z.pow_pos_nonneg; lia].
  - rewrite Z.pow_neg_r by lia. now rewrite Z.div_0_r.
Qed.

Lemma rne_double (m : Z) : rne (2 * m) 1 = m.
Proof.
  unfold rne. change (2 ^ 1) with 2. change (2 ^ (1 - 1)) with 1.
  rewrite Z.mul_comm, Z.div_mul, Z.mod_mul by lia. reflexivity.
Qed.

Lemma halve_units_mono (u1 u2 : Z) :
  u1 <= u2 -> halve_units u1 <= halve_units u2.
Proof.
  intros H. unfold halve_units.
  destruct (u1 <? 0) eqn:H1, (u2 <? 0) eqn:H2;
    try apply Z.ltb_lt in H1; try apply Z.ltb_lt in H2;
    try apply Z.ltb_ge in H1; try apply Z.ltb_ge in H2.
  - pose proof (rne_mono (- u2) (- u1) 1 ltac:(lia) ltac:(lia)). lia.
  - pose proof (rne_nonneg (- u1) 1 ltac:(lia)).
    pose proof (rne_nonneg u2 1 ltac:(lia)). lia.
  - lia.
  - apply rne_mono; lia.
Qed.

Lemma valid32_intro (s : bool) (m : positive) (e : Z) :
  Z.pos (digits2_pos m) <= 24 -> -149 <= e <= 104 ->
  Z.pos (digits2_pos m) = 24 \/ e = -149 ->
  F32.valid (S754_finite s m e) = true.
Proof.
  intros Hd He Hc.
  unfold F32.valid, valid_binary, bounded, canonical_mantissa.
  change (fexp F32.prec F32.emax) with (fexp 24 128). rewrite fexp32.
  change (F32.emax - F32.prec) with 104.
  apply andb_true_iff. split; [apply Z.eqb_eq|apply Z.leb_le]; lia.
Qed.

(** Halving a finite datum of the format halves its units. *)
Lemma halve_equiv (x : float) :
  is_finite x = true -> F32.valid x = true ->
  F32.valid (F32.div x (F32.of_Z 2)) = true /\
  F32.eqb (F32.div x (F32.of_Z 2))
          (float_of_units32 (halve_units (units32 x))) = true.
Proof.
  intros Fx Vx. destruct x as [s| | |s m e]; try discriminate Fx.
  - rewrite two_float. now destruct s.
  - pose proof (valid32_inv s m e Vx) as (Hd & He & Hc).
    destruct (Z.eq_dec e (-149)) as [->|Hne].
    + rewrite (div_two_subnormal s m Vx).
      pose proof (digits2_pos_bounds m) as [_ Hm].
      assert (Z.pos m < 2 ^ 24) as Hm24.
      { eapply Z.lt_le_trans; [exact Hm|]. apply Z.pow_le_mono_r; lia. }
      pose proof (rne_bounds (Z.pos m) 1) as [Hlo Hhi].
      change (2 ^ 1) with 2 in Hlo, Hhi.
      assert (0 <= Z.pos m / 2 < 2 ^ 23) as Hq.
      { split; [apply Z.div_pos; lia|apply Z.div_lt_upper_bound; lia]. }
      assert (halve_units (units32 (S754_finite s m (-149)))
              = cond_Zopp s (rne (Z.pos m) 1)) as ->.
      { unfold units32, halve_units.
        change (2 ^ (-149 + 149)) with 1. rewrite Z.mul_1_r.
        destruct s; cbn [cond_Zopp]; [|reflexivity].
        change (- Z.pos m <? 0) with true. cbv iota.
        now rewrite Z.opp_involutive. }
      destruct (rne (Z.pos m) 1) as [|p|p] eqn:Hp;
        [destruct s; split; reflexivity| |exfalso; clear - Hlo Hq; lia].
      assert (F32.valid (S754_finite s p (-149)) = true) as Vp.
      { apply valid32_intro; [|lia|now right].
        rewrite digits2_pos_log2.
        assert (Z.log2 (Z.pos p) <= 23); [|lia].
        change 23 with (Z.log2 (2 ^ 23)). apply Z.log2_le_mono. lia. }
      split; [exact Vp|].
      replace (cond_Zopp s (Z.pos p)) with (units32 (S754_finite s p (-149))).
      * rewrite float_of_units32_id by exact Vp. now apply eqb_refl.
      * unfold units32. change (2 ^ (-149 + 149)) with 1. now rewrite Z.mul_1_r.
    + rewrite (div_two_normal s m e Vx) by lia.
      assert (F32.valid (S754_finite s m (e - 1)) = true) as Vp
          by (apply valid32_intro; lia).
      split; [exact Vp|].
      replace (halve_units (units32 (S754_finite s m e)))
        with (units32 (S754_finite s m (e - 1))).
      * rewrite float_of_units32_id by exact Vp. now apply eqb_refl.
      * unfold units32, halve_units.
        replace (e + 149) with (1 + (e - 1 + 149)) by lia.
        rewrite (Z.pow_add_r 2 1 (e - 1 + 149)) by lia. change (2 ^ 1) with 2.
        set (M := 2 ^ (e - 1 + 149)).
        assert (0 < M) as HM by (apply Z.pow_pos_nonneg; lia).
        replace (Z.pos m * (2 * M)) with (2 * (Z.pos m * M)) by ring.
        destruct s; cbn [cond_Zopp].
        -- replace (- (2 * (Z.pos m * M)) <? 0) with true by (symmetry; apply Z.ltb_lt; lia).
           now rewrite Z.opp_involutive, rne_double.
        -- replace (2 * (Z.pos m * M) <? 0) with false by (symmetry; apply Z.ltb_ge; lia).
           now rewrite rne_double.
Qed.

Lemma leb_infinity_l (z : float) :
  F32.is_nan z = false -> F32.leb (S754_infinity true) z = true.
Proof. destruct z as [| [|] | |]; try discriminate; reflexivity. Qed.

Lemma leb_infinity_r (z : float) :
  F32.is_nan z = false -> F32.leb z (S754_infinity false) = true.
Proof. destruct z as [| [|] | |[|]]; try discriminate; reflexivity. Qed.

Lemma div_two_not_nan (x : float) :
  F32.is_nan x = false -> F32.valid x = true ->
  F32.is_nan (F32.div x (F32.of_Z 2)) = false.
Proof.
  intros Nx Vx. destruct x as [s|s| |s m e]; try discriminate Nx.
  - rewrite two_float. reflexivity.
  - rewrite two_float. reflexivity.
  - destruct (halve_equiv (S754_finite s m e) eq_refl Vx) as [_ H].
    now apply eqb_true_not_nan in H.
Qed.

(** Halving is monotone. *)
Lemma halve_mono (x y : float) :
  F32.valid x = true -> F32.valid y = true -> F32.leb x y = true ->
  F32.leb (F32.div x (F32.of_Z 2)) (F32.div y (F32.of_Z 2)) = true.
Proof.
  intros Vx Vy Hle. destruct (leb_true_not_nan _ _ Hle) as [Nx Ny].
  pose proof (div_two_not_nan x Nx Vx) as Dx.
  pose proof (div_two_not_nan y Ny Vy) as Dy.
  destruct (is_finite x) eqn:Fx, (is_finite y) eqn:Fy.
  - destruct (halve_equiv x Fx Vx) as [_ Ex].
    destruct (halve_equiv y Fy Vy) as [_ Ey].
    apply (leb_trans _ _ _ (eqb_leb _ _ Ex)).
    rewrite eqb_sym in Ey.
    refine (leb_trans _ _ _ _ (eqb_leb _ _ Ey)).
    apply float_of_units32_mono, halve_units_mono, units32_le; auto.
  - destruct y as [|[|]| |]; try discriminate Fy; try discriminate Ny.
    + destruct x as [[|]|[|]| |[|]]; discriminate.
    + rewrite two_float in *. now apply leb_infinity_r.
  - destruct x as [|[|]| |]; try discriminate Fx; try discriminate Nx.
    + rewrite two_float in *. now apply leb_infinity_l.
    + destruct y as [[|]|[|]| |[|]]; discriminate.
  - destruct x as [|[|]| |], y as [|[|]| |]; try discriminate; reflexivity.
Qed.

(** *** Sums with an infinite operand *)

Lemma is_finite_false (x : float) :
  F32.is_nan x = false -> is_finite x = false -> exists s, x = S754_infinity s.
Proof. destruct x as [s|s| |s m e]; try discriminate; eauto. Qed.

(** A sum with an infinite operand that is not NaN is the infinity of
    its infinite operands. *)
Lemma add_infinite (a b : float) :
  F32.is_nan a = false -> F32.is_nan b = false ->
  is_finite a && is_finite b = false ->
  F32.is_nan (F32.add a b) = false ->
  exists s, F32.add a b = S754_infinity s /\
            (is_finite a = false -> a = S754_infinity s) /\
            (is_finite b = false -> b = S754_infinity s).
Proof.
  intros Na Nb Hf Hn.
  destruct a as [sa|sa| |sa ma ea]; try discriminate Na;
    destruct b as [sb|sb| |sb mb eb]; try discriminate Nb;
    try discriminate Hf.
  - exists sb. split; [reflexivity|]. split; [discriminate|reflexivity].
  - exists sa. split; [reflexivity|]. split; [reflexivity|discriminate].
  - destruct sa, sb; try discriminate Hn.
    + exists true. split; [reflexivity|]. split; reflexivity.
    + exists false. split; [reflexivity|]. split; reflexivity.
  - exists sa. split; [reflexivity|]. split; [reflexivity|discriminate].
  - exists sb. split; [reflexivity|]. split; [discriminate|reflexivity].
Qed.

Lemma leb_from_infinity (c : float) :
  F32.leb (S754_infinity false) c = true -> c = S754_infinity false.
Proof. destruct c as [[|]|[|]| |[|]]; try discriminate; reflexivity. Qed.

Lemma leb_to_infinity (a : float) :
  F32.leb a (S754_infinity true) = true -> a = S754_infinity true.
Proof. destruct a as [[|]|[|]| |[|]]; try discriminate; reflexivity. Qed.

Lemma add_valid (a b : float) :
  F32.valid a = true -> F32.valid b = true ->
  F32.is_nan a = false -> F32.is_nan b = false ->
  F32.valid (F32.add a b) = true.
Proof.
  intros Va Vb Na Nb.
  destruct (is_finite a) eqn:Fa, (is_finite b) eqn:Fb.
  - now apply add_units.
  - destruct (is_finite_false b Nb Fb) as [sb ->].
    destruct a as [sa|sa| |sa ma ea]; try discriminate; reflexivity.
  - destruct (is_finite_false a Na Fa) as [sa ->].
    destruct b as [sb|sb| |sb mb eb]; try discriminate; reflexivity.
  - destruct (is_finite_false a Na Fa) as [sa ->].
    destruct (is_finite_false b Nb Fb) as [sb ->]. now destruct sa, sb.
Qed.

(** Addition is monotone in both operands, where it is not NaN. *)
Lemma add_mono (a b c d : float) :
  F32.valid a = true -> F32.valid b = true ->
  F32.valid c = true -> F32.valid d = true ->
  F32.leb a c = true -> F32.leb b d = true ->
  F32.is_nan (F32.add a b) = false -> F32.is_nan (F32.add c d) = false ->
  F32.leb (F32.add a b) (F32.add c d) = true.
Proof.
  intros Va Vb Vc Vd Hac Hbd Nab Ncd.
  destruct (leb_true_not_nan _ _ Hac) as [Na Nc].
  destruct (leb_true_not_nan _ _ Hbd) as [Nb Nd].
  destruct (is_finite a && is_finite b) eqn:Fab.
  - apply andb_true_iff in Fab. destruct Fab as [Fa Fb].
    destruct (is_finite c && is_finite d) eqn:Fcd.
    + apply andb_true_iff in Fcd. destruct Fcd as [Fc Fd].
      destruct (add_units a b Fa Fb Va Vb) as [_ Eab].
      destruct (add_units c d Fc Fd Vc Vd) as [_ Ecd].
      apply (leb_trans _ _ _ (eqb_leb _ _ Eab)).
      rewrite eqb_sym in Ecd.
      refine (leb_trans _ _ _ _ (eqb_leb _ _ Ecd)).
      apply float_of_units32_mono.
      pose proof (units32_le a c Fa Fc Va Vc Hac).
      pose proof (units32_le b d Fb Fd Vb Vd Hbd). lia.
    + destruct (add_infinite c d Nc Nd Fcd Ncd) as (s & -> & Hc & Hd).
      destruct s; [|now apply leb_infinity_r].
      exfalso. apply andb_false_iff in Fcd. destruct Fcd as [Fc|Fd].
      * rewrite (Hc Fc) in Hac. apply leb_to_infinity in Hac.
        rewrite Hac in Fa. discriminate.
      * rewrite (Hd Fd) in Hbd. apply leb_to_infinity in Hbd.
        rewrite Hbd in Fb. discriminate.
  - destruct (add_infinite a b Na Nb Fab Nab) as (s & -> & Ha & Hb).
    destruct s; [now apply leb_infinity_l|].
    assert (is_finite c && is_finite d = false) as Fcd.
    { apply andb_false_iff in Fab. apply andb_false_iff.
      destruct Fab as [Fa|Fb].
      - left. rewrite (Ha Fa) in Hac. apply leb_from_infinity in Hac. now rewrite Hac.
      - right. rewrite (Hb Fb) in Hbd. apply leb_from_infinity in Hbd. now rewrite Hbd. }
    destruct (add_infinite c d Nc Nd Fcd Ncd) as (s & -> & Hc & Hd).
    destruct s; [|reflexivity].
    exfalso. apply andb_false_iff in Fab. destruct Fab as [Fa|Fb].
    + rewrite (Ha Fa) in Hac. apply leb_from_infinity in Hac.
      assert (is_finite c = false) as Fc by now rewrite Hac.
      rewrite (Hc Fc) in Hac. discriminate.
    + rewrite (Hb Fb) in Hbd. apply leb_from_infinity in Hbd.
      assert (is_finite d = false) as Fd by now rewrite Hbd.
      rewrite (Hd Fd) in Hbd. discriminate.
Qed.

(** The sum of two neighbours of a sorted column is NaN only across the
    two infinities. *)
Lemma add_not_nan (a b : float) :
  F32.valid a = true -> F32.valid b = true -> F32.leb a b = true ->
  ~ (a = S754_infinity true /\ b = S754_infinity false) ->
  F32.is_nan (F32.add a b) = false.
Proof.
  intros Va Vb Hab Hgap. destruct (leb_true_not_nan _ _ Hab) as [Na Nb].
  destruct (is_finite a) eqn:Fa, (is_finite b) eqn:Fb.
  - destruct (add_units a b Fa Fb Va Vb) as [_ E].
    now apply eqb_true_not_nan in E.
  - destruct (is_finite_false b Nb Fb) as [sb ->].
    destruct a as [sa|sa| |sa ma ea]; try discriminate; reflexivity.
  - destruct (is_finite_false a Na Fa) as [sa ->].
    destruct b as [sb|sb| |sb mb eb]; try discriminate; reflexivity.
  - destruct (is_finite_false a Na Fa) as [sa ->].
    destruct (is_finite_false b Nb Fb) as [sb ->].
    destruct sa, sb; try reflexivity; [|discriminate Hab].
    exfalso. apply Hgap. now split.
Qed.

(** The averages over a chain [a <= b], [a <= c], [b <= d], [c <= d]. *)
Lemma average_mono (a b c d : float) :
  F32.valid a = true -> F32.valid b = true ->
  F32.valid c = true -> F32.valid d = true ->
  F32.leb a b = true -> F32.leb c d = true ->
  F32.leb a c = true -> F32.leb b d = true ->
  ~ (a = S754_infinity true /\ b = S754_infinity false) ->
  ~ (c = S754_infinity true /\ d = S754_infinity false) ->
  F32.leb (average a b) (average c d) = true.
Proof.
  intros Va Vb Vc Vd Hab Hcd Hac Hbd Gab Gcd. unfold average.
  destruct (leb_true_not_nan _ _ Hab) as [Na Nb].
  destruct (leb_true_not_nan _ _ Hcd) as [Nc Nd].
  apply halve_mono; try now apply add_valid.
  apply add_mono; auto using add_not_nan.
Qed.

(** *** [compute_splits]: continuous columns *)

(** With three distinct values or more, no two neighbours of the sorted
    column are the two infinities. *)
Lemma no_infinite_gap (w : list float) (k : nat) :
  nan_free w -> non_descending w ->
  (3 <= length (distinct_of_sorted w))%nat -> (k + 1 < length w)%nat ->
  ~ (nth k w S754_nan = S754_infinity true /\
     nth (k + 1) w S754_nan = S754_infinity false).
Proof.
  intros Hnan Hs Hlen Hk [Hlo Hhi].
  destruct (distinct_of_sorted_spec w Hnan Hs) as (Hasc & Hin & _).
  destruct (distinct_of_sorted w) as [|d0 [|d1 [|d2 dv]]]; cbn in Hlen; try lia.
  apply StronglySorted_inv in Hasc. destruct Hasc as [Hasc H0].
  apply StronglySorted_inv in Hasc. destruct Hasc as [_ H1].
  apply Forall_inv in H0, H1.
  destruct (In_nth w d1 S754_nan (Hin d1 ltac:(cbn; auto))) as (j & Hj & Hd1).
  destruct (Nat.le_gt_cases j k) as [Hjk|Hjk].
  - assert (d1 = S754_infinity true) as ->.
    { destruct (Nat.eq_dec j k) as [->|Hne]; [congruence|].
      apply leb_to_infinity. rewrite <- Hd1, <- Hlo.
      apply (StronglySorted_nth _ _ S754_nan Hs). lia. }
    destruct d0 as [[|]|[|]| |[|]]; discriminate H0.
  - assert (d1 = S754_infinity false) as ->.
    { destruct (Nat.eq_dec j (k + 1)) as [->|Hne]; [congruence|].
      apply leb_from_infinity. rewrite <- Hd1, <- Hhi.
      apply (StronglySorted_nth _ _ S754_nan Hs). lia. }
    destruct d2 as [[|]|[|]| |[|]]; discriminate H1.
Qed.

Lemma collect_options_map {A : Type} (g : nat -> option A) (f : nat -> A)
      (l : list nat) :
  (forall i, In i l -> g i = Some (f i)) ->
  collect_options g l = Some (map f l).
Proof.
  induction l as [|i l IH]; intros H; [reflexivity|].
  cbn [collect_options map]. rewrite (H i) by now left.
  rewrite IH; [reflexivity|]. intros j Hj. apply H. now right.
Qed.

Lemma lower_position_mono (n i j : nat) :
  (10 <= n)%nat -> (i < j)%nat ->
  (upper_position n i <= lower_position n j)%nat.
Proof.
  intros Hn Hij. unfold lower_position, upper_position.
  assert (1 <= n / 9)%nat as Hq by (apply Nat.div_le_lower_bound; lia).
  nia.
Qed.

(** The claim as stated fails on a column with NaN: ten NaN samples
    count as ten distinct values, all eight thresholds are NaN, and NaN
    is not below or equal to NaN. *)
Lemma compute_splits_thresholds_nan_counterexample :
  compute_distinct_values (repeat S754_nan 10)
    (sort_indexes insertion_sort (repeat S754_nan 10))
  = Some (repeat S754_nan 10) /\
  compute_splits insertion_sort (repeat S754_nan 10)
  = Returned (F32.of_Z 8 :: repeat S754_nan 8, []) /\
  ~ non_descending (repeat S754_nan 8).
Proof.
  split; [vm_compute; reflexivity|]. split; [vm_compute; reflexivity|].
  intros H. apply StronglySorted_inv in H. destruct H as [_ H].
  apply Forall_inv in H. discriminate H.
Qed.

(** C5 (amended). On a column of [float] data without NaN, with ten
    samples or more and nine distinct values or more, [compute_splits]
    returns [8] followed by the eight thresholds, threshold [i] being the
    [float] average of the sorted values at positions [(i+1) * (n / 9)]
    and [(i+1) * (n / 9) + 1], writes nothing, and the thresholds do not
    descend. *)
Theorem compute_splits_continuous
        (std_sort : (nat -> nat -> bool) -> list nat -> list nat)
        (v dv : list float) :
  sort_contract std_sort -> nan_free v ->
  (forall x, In x v -> F32.valid x = true) ->
  (10 <= length v)%nat ->
  compute_distinct_values v (sort_indexes std_sort v) = Some dv ->
  (9 <= length dv)%nat ->
  let w := values_along v (sort_indexes std_sort v) in
  let t := fun i => average (nth (lower_position (length v) i) w S754_nan)
                            (nth (upper_position (length v) i) w S754_nan) in
  compute_splits std_sort v = Returned (F32.of_Z 8 :: map t (seq 0 8), []) /\
  non_descending (map t (seq 0 8)).
Proof.
  intros Hsort Hnan Hvalid Hn Hdv Hlen w t.
  rewrite (compute_distinct_values_along std_sort v Hsort Hnan) in Hdv.
  fold w in Hdv. injection Hdv as <-.
  assert (length w = length v) as Hw by apply (values_along_length _ Hsort _ Hnan).
  pose proof (values_along_nan_free _ Hsort _ Hnan) as Hwnan. fold w in Hwnan.
  pose proof (values_along_sorted _ Hsort _ Hnan) as Hws. fold w in Hws.
  assert (forall k, (k < length v)%nat -> F32.valid (nth k w S754_nan) = true)
    as Hwvalid.
  { intros k Hk. apply Hvalid.
    apply (Permutation_in _ (Permutation_sym (values_along_perm _ Hsort _ Hnan))).
    fold w. apply nth_In. lia. }
  split.
  - rewrite compute_splits_from_sorted by assumption.
    unfold splits_from_sorted. fold w.
    replace (9 <=? length (distinct_of_sorted w))%nat with true
      by (symmetry; apply Nat.leb_le; lia).
    rewrite (collect_options_map (threshold w) t); [reflexivity|].
    intros i Hi. apply in_seq in Hi.
    pose proof (upper_position_in_range (length v) i Hn ltac:(lia)) as Hp.
    unfold threshold. rewrite Hw.
    rewrite !(nth_error_nth' w S754_nan) by lia. reflexivity.
  - apply (nth_StronglySorted _ _ S754_nan). intros i j Hij.
    rewrite length_map, length_seq in Hij.
    rewrite !(nth_map_lt _ _ _ 0%nat) by (rewrite length_seq; lia).
    rewrite !seq_nth by lia. cbn [Nat.add]. unfold t.
    pose proof (upper_position_in_range (length v) i Hn ltac:(lia)) as Hi.
    pose proof (upper_position_in_range (length v) j Hn ltac:(lia)) as Hj.
    pose proof (lower_position_mono (length v) i j Hn ltac:(lia)) as Hm.
    assert (forall a b, (a < b < length v)%nat ->
              F32.leb (nth a w S754_nan) (nth b w S754_nan) = true) as Hle.
    { intros a b Hab. apply (StronglySorted_nth _ _ S754_nan Hws). lia. }
    assert (forall k, upper_position (length v) k = (lower_position (length v) k + 1)%nat)
      as Hup by reflexivity.
    apply average_mono; try (apply Hwvalid; lia); try (apply Hle; lia).
    + rewrite Hup. apply no_infinite_gap; auto; lia.
    + rewrite Hup. apply no_infinite_gap; auto; lia.
Qed.

(** The column [5, 1, 3, 3, 9, 2, 7, 8, 4, 6] with the insertion sort:
    the thresholds are 2.5, 3, 3.5, 4.5, ..., 8.5. *)
Lemma compute_splits_continuous_witness :
  compute_splits insertion_sort (map F32.of_Z [5; 1; 3; 3; 9; 2; 7; 8; 4; 6])
  = Returned (F32.of_Z 8
                :: map (fun k => F32.div (F32.of_Z k) (F32.of_Z 2))
                       [5; 6; 7; 9; 11; 13; 15; 17], []).
Proof.
  assert (nan_free (map F32.of_Z [5; 1; 3; 3; 9; 2; 7; 8; 4; 6])) as Hnan
      by (apply plain_column; reflexivity).
  assert (forall x, In x (map F32.of_Z [5; 1; 3; 3; 9; 2; 7; 8; 4; 6]) ->
                    F32.valid x = true) as Hvalid.
  { apply (proj1 (forallb_forall (fun x => F32.valid x) _)).
    vm_compute. reflexivity. }
  assert (10 <= length (map F32.of_Z [5; 1; 3; 3; 9; 2; 7; 8; 4; 6]%Z))%nat as Hn
      by (apply Nat.leb_le; vm_compute; reflexivity).
  assert (9 <= length (map F32.of_Z [1; 2; 3; 4; 5; 6; 7; 8; 9]%Z))%nat as Hlen
      by (apply Nat.leb_le; vm_compute; reflexivity).
  assert (compute_distinct_values
            (map F32.of_Z [5; 1; 3; 3; 9; 2; 7; 8; 4; 6])
            (sort_indexes insertion_sort
               (map F32.of_Z [5; 1; 3; 3; 9; 2; 7; 8; 4; 6]))
          = Some (map F32.of_Z [1; 2; 3; 4; 5; 6; 7; 8; 9])) as Hdv
      by (vm_compute; reflexivity).
  rewrite (proj1 (compute_splits_continuous insertion_sort _ _
                    insertion_sort_contract Hnan Hvalid Hn Hdv Hlen)).
  vm_compute. reflexivity.
Defined.

(** ** Part IV. Further properties *)

(** *** The channel routines *)

Lemma receive_triples_framed (p : Z) (inc : incoming) (count first : nat)
      (ts ts' : list triple) :
  receive_triples p inc first count ts = Some ts' ->
  length ts' = length ts /\
  forall j, (first <= j < first + count)%nat ->
    exists os, nth_error inc j = Some os /\ (3 * length ts <= length os)%nat.
Proof.
  revert first ts. induction count as [|c IH]; intros first ts H; cbn in H.
  - injection H as <-. split; [reflexivity|]. intros j Hj. lia.
  - destruct (nth_error inc first) as [os|] eqn:Hos; [|discriminate].
    destruct (accumulate_shares p ts os) as [ts1|] eqn:Hacc; [|discriminate].
    assert (length ts1 = length ts /\ (3 * length ts <= length os)%nat) as [Hl Hb].
    { clear - Hacc. revert os ts1 Hacc.
      induction ts as [|t ts IHt]; intros os ts1 Hacc; cbn in Hacc.
      - injection Hacc as <-. cbn. split; lia.
      - unfold unpack_triple_into, unpack in Hacc.
        destruct os as [|s0 [|s1 [|s2 os]]]; try discriminate.
        destruct (accumulate_shares p ts os) as [ts2|] eqn:E; [|discriminate].
        injection Hacc as <-. destruct (IHt _ _ E) as [Hl Hb]. cbn. split; lia. }
    destruct (IH _ _ H) as [Hl' Hf]. split; [congruence|].
    intros j Hj. destruct (Nat.eq_dec j first) as [->|Hne].
    + exists os. split; [exact Hos|exact Hb].
    + destruct (Hf j ltac:(lia)) as (os' & Hos' & Hb'). exists os'.
      split; [exact Hos'|]. lia.
Qed.

Lemma receive_outputs_framed (p : Z) (inc : incoming) (count first : nat)
      (outs outs' : list gfp) :
  receive_outputs p inc first count outs = Some outs' ->
  length outs' = length outs /\
  forall j, (first <= j < first + count)%nat ->
    exists os, nth_error inc j = Some os /\ (length outs <= length os)%nat.
Proof.
  revert first outs. induction count as [|c IH]; intros first outs H; cbn in H.
  - injection H as <-. split; [reflexivity|]. intros j Hj. lia.
  - destruct (nth_error inc first) as [os|] eqn:Hos; [|discriminate].
    destruct (accumulate_outputs p outs os) as [o1|] eqn:Hacc; [|discriminate].
    assert (length o1 = length outs /\ (length outs <= length os)%nat) as [Hl Hb].
    { clear - Hacc. revert os o1 Hacc.
      induction outs as [|o outs IHo]; intros os o1 Hacc; cbn in Hacc.
      - injection Hacc as <-. cbn. split; lia.
      - destruct os as [|v os]; [discriminate|]. cbn in Hacc.
        destruct (accumulate_outputs p outs os) as [o2|] eqn:E; [|discriminate].
        injection Hacc as <-. destruct (IHo _ _ E) as [Hl Hb]. cbn. split; lia. }
    destruct (IH _ _ H) as [Hl' Hf]. split; [congruence|].
    intros j Hj. destruct (Nat.eq_dec j first) as [->|Hne].
    + exists os. split; [exact Hos|exact Hb].
    + destruct (Hf j ltac:(lia)) as (os' & Hos' & Hb'). exists os'.
      split; [exact Hos'|]. lia.
Qed.

Lemma long_to_int_range (z : Z) : - 2 ^ 31 <= long_to_int z < 2 ^ 31.
Proof.
  unfold long_to_int.
  pose proof (Z.mod_pos_bound (z + 2 ^ 31) (2 ^ 32) ltac:(lia)). lia.
Qed.

Lemma receive_triples_some_iff (p : Z) (inc : incoming) (n_parties num_inputs : nat) :
  (exists ts, receive_triples p inc 0 n_parties (repeat triple_zero num_inputs)
              = Some ts) <->
  well_framed inc n_parties num_inputs.
Proof.
  split.
  - intros [ts Hts]. destruct (receive_triples_framed _ _ _ _ _ _ Hts) as [_ Hf].
    rewrite repeat_length in Hf. intros j Hj. apply Hf. lia.
  - intros Hwf.
    destruct (receive_triples_aggregated p inc n_parties num_inputs Hwf)
      as (ts & Hts & _). eauto.
Qed.

Lemma receive_outputs_some_iff (p : Z) (inc : incoming) (n_parties size : nat) :
  (exists outs, receive_outputs p inc 0 n_parties (repeat Gfp.zero size)
                = Some outs) <->
  outputs_framed inc n_parties size.
Proof.
  split.
  - intros [outs Ho]. destruct (receive_outputs_framed _ _ _ _ _ _ Ho) as [_ Hf].
    rewrite repeat_length in Hf. intros j Hj. apply Hf. lia.
  - intros Hof.
    destruct (receive_outputs_spec p inc size n_parties 0 (repeat Gfp.zero size))
      as (outs & Ho & _); [apply repeat_length|intros i Hi; apply Hof; lia|].
    eauto.
Qed.

(** The outcomes of the run with a socket for every engine. *)
Lemma send_private_inputs_cases
      (p : Z) (values : list gfp) (inc : incoming) (n_parties : nat)
      (log : send_log) :
  (snd (send_private_inputs p values inc n_parties log) = Failed <->
   ~ well_framed inc n_parties (length values)) /\
  (snd (send_private_inputs p values inc n_parties log) <> Undefined) /\
  (snd (send_private_inputs p values inc n_parties log) <> Returned tt ->
   fst (send_private_inputs p values inc n_parties log) = log) /\
  (snd (send_private_inputs p values inc n_parties log) = Returned tt ->
   exists ys, length ys = length values /\
     fst (send_private_inputs p values inc n_parties log)
     = log ++ map (fun j => (j, ys)) (seq 0 n_parties)).
Proof.
  unfold send_private_inputs.
  destruct (receive_triples p inc 0 n_parties (repeat triple_zero (length values)))
    as [ts|] eqn:Hrt.
  - destruct (receive_triples_framed _ _ _ _ _ _ Hrt) as [Hlen Hf].
    rewrite repeat_length in Hlen, Hf.
    assert (well_framed inc n_parties (length values)) as Hwf
        by (intros j Hj; apply Hf; lia).
    destruct (check_triples p ts); cbn [fst snd].
    + split; [split; [discriminate|tauto]|]. split; [discriminate|].
      split; [congruence|]. intros _.
      exists (mask_inputs p values ts []).
      split; [now apply mask_inputs_nth|]. apply send_all_spec.
    + split; [split; [discriminate|tauto]|]. split; [discriminate|].
      split; [reflexivity|discriminate].
  - cbn [fst snd]. split; [split; [|reflexivity]|].
    + intros _ Hwf.
      destruct (receive_triples_aggregated p inc n_parties (length values) Hwf)
        as (ts & Hts & _). congruence.
    + split; [discriminate|]. split; [reflexivity|discriminate].
Qed.

(** X1. [send_private_inputs] reads [sockets[j]] for every [j] below
    [n_parties].  It is undefined exactly when [sockets] has fewer than
    [n_parties] entries and every engine that has a socket delivers its
    triples: the read out of range comes after those engines.  It fails
    exactly when one of the engines that it reaches, the first
    [min(n_parties, sockets.size())], delivers no buffer or fewer than
    three elements per input.  Whenever it does not return, nothing has
    been sent up to that point; when it returns, [sockets] has an entry for every engine
    and one and the same buffer of [values.size()] elements has gone to
    the engines [0 .. n_parties - 1] in order.  With an entry for every
    engine it is the routine of the sections above. *)
Theorem send_private_inputs_outcomes
        (p : Z) (values : list gfp) (sockets : list Z) (inc : incoming)
        (n_parties : nat) (log : send_log) :
  (snd (Wire.send_private_inputs p values sockets inc n_parties log) = Undefined <->
   (length sockets < n_parties)%nat /\
   well_framed inc (length sockets) (length values)) /\
  (snd (Wire.send_private_inputs p values sockets inc n_parties log) = Failed <->
   ~ well_framed inc (Nat.min n_parties (length sockets)) (length values)) /\
  (snd (Wire.send_private_inputs p values sockets inc n_parties log) <> Returned tt ->
   fst (Wire.send_private_inputs p values sockets inc n_parties log) = log) /\
  (snd (Wire.send_private_inputs p values sockets inc n_parties log) = Returned tt ->
   (n_parties <= length sockets)%nat /\
   exists ys, length ys = length values /\
     fst (Wire.send_private_inputs p values sockets inc n_parties log)
     = log ++ map (fun j => (j, ys)) (seq 0 n_parties)) /\
  ((n_parties <= length sockets)%nat ->
   Wire.send_private_inputs p values sockets inc n_parties log
   = send_private_inputs p values inc n_parties log).
Proof.
  destruct (le_lt_dec n_parties (length sockets)) as [Hle|Hlt].
  - rewrite (wire_send_private_inputs_within p values sockets inc n_parties log Hle).
    rewrite Nat.min_l by exact Hle.
    destruct (send_private_inputs_cases p values inc n_parties log)
      as (HF & HU & HL & HR).
    split; [split; [intros H; now contradiction HU|lia]|].
    split; [exact HF|]. split; [exact HL|].
    split; [intros H; split; [exact Hle|now apply HR]|reflexivity].
  - rewrite Nat.min_r by lia.
    unfold Wire.send_private_inputs.
    rewrite wire_receive_triples_short by lia. rewrite Nat.sub_0_r.
    pose proof (receive_triples_some_iff p inc (length sockets) (length values))
      as Hiff.
    destruct (receive_triples p inc 0 (length sockets)
                              (repeat triple_zero (length values))) as [ts|];
      cbn [fst snd].
    + assert (well_framed inc (length sockets) (length values)) as Hwf
          by (apply Hiff; eauto).
      split; [split; [intros _; split; [exact Hlt|exact Hwf]|reflexivity]|].
      split; [split; [discriminate|intros H; now contradiction H]|].
      split; [reflexivity|]. split; [discriminate|lia].
    + assert (~ well_framed inc (length sockets) (length values)) as Hnf
          by (intros Hwf; apply Hiff in Hwf; destruct Hwf; discriminate).
      split; [split; [discriminate|intros [_ Hwf]; now contradiction Hnf]|].
      split; [split; [intros _; exact Hnf|reflexivity]|].
      split; [reflexivity|]. split; [discriminate|lia].
Qed.

(** Three engines and a vector of two sockets: after the triples of
    the first two engines the third socket is read out of range; with
    the third socket and no third buffer the receipt fails. *)
Lemma send_private_inputs_outcomes_witness :
  Wire.send_private_inputs 101 [5] [3; 4] [[1; 2; 2]; [0; 0; 0]] 3 []
  = ([], Undefined) /\
  snd (Wire.send_private_inputs 101 [5] [3; 4; 6] [[1; 2; 2]; [0; 0; 0]] 3 [])
  = Failed.
Proof.
  split; [reflexivity|].
  apply (proj1 (proj2 (send_private_inputs_outcomes
                         101 [5] [3; 4; 6] [[1; 2; 2]; [0; 0; 0]] 3 []))).
  intros Hwf. destruct (Hwf 2%nat) as (os & Hos & _); [cbn; lia|].
  discriminate Hos.
Defined.

(** The outcomes of [receive_result] with a socket for every engine. *)
Lemma receive_result_cases (p : Z) (inc : incoming) (n_parties size : nat) :
  ((exists r, receive_result p inc n_parties size = Returned r) <->
   (0 < size)%nat /\ outputs_framed inc n_parties size) /\
  (receive_result p inc n_parties size = Failed <->
   ~ ((0 < size)%nat /\ outputs_framed inc n_parties size)) /\
  receive_result p inc n_parties size <> Undefined /\
  (forall shares index,
      receive_result p inc n_parties size = Returned (shares, index) ->
      length shares = (size - 1)%nat /\ - 2 ^ 31 <= index < 2 ^ 31).
Proof.
  unfold receive_result.
  destruct (receive_outputs p inc 0 n_parties (repeat Gfp.zero size))
    as [outs|] eqn:Hro.
  - destruct (receive_outputs_framed _ _ _ _ _ _ Hro) as [Hlen Hf].
    rewrite repeat_length in Hlen, Hf.
    assert (outputs_framed inc n_parties size) as Hof
        by (intros j Hj; apply Hf; lia).
    destruct size as [|size_1].
    + split; [split; [intros [r Hr]; discriminate|lia]|].
      split; [split; [lia|reflexivity]|]. split; discriminate.
    + unfold vec_at. destruct (nth_error outs size_1) as [index|] eqn:Hi.
      * split; [split; [intros _; split; [lia|exact Hof]|eauto]|].
        split; [split; [discriminate|intros H; exfalso; apply H; split; [lia|exact Hof]]|].
        split; [discriminate|].
        intros shares idx H. injection H as <- <-.
        rewrite length_map, length_firstn.
        split; [lia|apply long_to_int_range].
      * apply nth_error_None in Hi. lia.
  - assert (~ outputs_framed inc n_parties size) as Hnf.
    { intros Hof.
      destruct (receive_outputs_spec p inc size n_parties 0 (repeat Gfp.zero size))
        as (outs & Ho & _); [apply repeat_length|intros i Hi; apply Hof; lia|].
      congruence. }
    split; [split; [intros [r Hr]; discriminate|tauto]|].
    split; [split; [tauto|reflexivity]|]. split; discriminate.
Qed.

(** X2. [receive_result] reads [sockets[i]] for every [i] below
    [n_parties].  It returns exactly when [sockets] has an entry for
    every engine, [size] is positive and every engine delivers at least
    [size] elements.  It is undefined exactly when [sockets] has fewer
    than [n_parties] entries and every engine that has a socket
    delivers its elements; [output_values] itself is never read out of
    range.  It fails exactly when one of the engines that it reaches
    delivers no buffer or a short one, or when all is received and
    [size] is 0 (the allocation of [size - 1] elements).  What it
    returns are [size - 1] shares and an index that is an [int]. *)
Theorem receive_result_outcomes
        (p : Z) (sockets : list Z) (inc : incoming) (n_parties size : nat) :
  ((exists r, Wire.receive_result p sockets inc n_parties size = Returned r) <->
   (n_parties <= length sockets)%nat /\ (0 < size)%nat /\
   outputs_framed inc n_parties size) /\
  (Wire.receive_result p sockets inc n_parties size = Undefined <->
   (length sockets < n_parties)%nat /\
   outputs_framed inc (length sockets) size) /\
  (Wire.receive_result p sockets inc n_parties size = Failed <->
   ~ outputs_framed inc (Nat.min n_parties (length sockets)) size \/
   ((n_parties <= length sockets)%nat /\ size = 0%nat)) /\
  (forall shares index,
      Wire.receive_result p sockets inc n_parties size = Returned (shares, index) ->
      length shares = (size - 1)%nat /\ - 2 ^ 31 <= index < 2 ^ 31) /\
  ((n_parties <= length sockets)%nat ->
   Wire.receive_result p sockets inc n_parties size
   = receive_result p inc n_parties size).
Proof.
  destruct (le_lt_dec n_parties (length sockets)) as [Hle|Hlt].
  - rewrite (wire_receive_result_within p sockets inc n_parties size Hle).
    rewrite Nat.min_l by exact Hle.
    destruct (receive_result_cases p inc n_parties size) as (HR & HF & HU & HS).
    split; [rewrite HR; tauto|].
    split; [split; [intros H; now contradiction HU|lia]|].
    split; [rewrite HF|split; [exact HS|reflexivity]].
    split.
    + intros H. destruct (Nat.eq_dec size 0) as [->|Hs]; [right; lia|].
      left. intros Hof. apply H. split; [lia|exact Hof].
    + intros [H|[_ ->]]; [tauto|lia].
  - rewrite Nat.min_r by lia.
    unfold Wire.receive_result.
    rewrite wire_receive_outputs_short by lia. rewrite Nat.sub_0_r.
    pose proof (receive_outputs_some_iff p inc (length sockets) size) as Hiff.
    destruct (receive_outputs p inc 0 (length sockets) (repeat Gfp.zero size))
      as [outs|].
    + assert (outputs_framed inc (length sockets) size) as Hof
          by (apply Hiff; eauto).
      split; [split; [intros [r Hr]; discriminate|lia]|].
      split; [split; [intros _; split; [exact Hlt|exact Hof]|reflexivity]|].
      split; [split; [discriminate|intros [H|H]; [now contradiction H|lia]]|].
      split; [discriminate|lia].
    + assert (~ outputs_framed inc (length sockets) size) as Hnf
          by (intros Hof; apply Hiff in Hof; destruct Hof; discriminate).
      split; [split; [intros [r Hr]; discriminate|lia]|].
      split; [split; [discriminate|intros [_ Hof]; now contradiction Hnf]|].
      split; [split; [intros _; left; exact Hnf|reflexivity]|].
      split; [discriminate|lia].
Qed.

(** Two engines that deliver two elements each: with one socket the
    second read of [sockets] is out of range, with two the result is
    returned. *)
Lemma receive_result_outcomes_witness :
  Wire.receive_result 101 [3] [[1; 2]; [4; 5]] 2 2 = Undefined /\
  exists r, Wire.receive_result 101 [3; 4] [[1; 2]; [4; 5]] 2 2 = Returned r.
Proof.
  split; [reflexivity|].
  apply (proj2 (proj1 (receive_result_outcomes 101 [3; 4] [[1; 2]; [4; 5]] 2 2))).
  split; [cbn; lia|]. split; [lia|].
  intros [|[|i]] Hi; [eexists; split; [reflexivity|cbn; lia]..|lia].
Defined.



(** X4. [receive_index] reads the first element of engine 0 alone:
    it fails when engine 0 delivers nothing, the other engines play no
    part, and its result is the index that [receive_result] returns for
    one engine and [size = 1].  An [int] that engine 0 sends as a field
    element comes back unchanged when [p > 2^32]. *)
Theorem receive_index_first_engine
        (p aa : Z) (rest : octetStream) (others : incoming) :
  0 <= aa < p ->
  receive_index p [] = Failed /\
  receive_index p ([] :: others) = Failed /\
  receive_index p ((aa :: rest) :: others) = Returned (decode_index p aa) /\
  receive_result p ((aa :: rest) :: others) 1 1
  = Returned ([], decode_index p aa) /\
  (forall k, 2 ^ 32 < p -> - 2 ^ 31 <= k < 2 ^ 31 ->
     receive_index p ((Gfp.assign p k :: rest) :: others) = Returned k).
Proof.
  intros Haa. split; [reflexivity|]. split; [reflexivity|].
  split; [reflexivity|]. split.
  - cbn. unfold Gfp.add, Gfp.zero. rewrite Z.add_0_l, Z.mod_small by lia.
    reflexivity.
  - intros k Hp Hk. cbn. f_equal.
    assert (2 ^ 31 <= (p - 1) / 2) as Hh
        by (apply Z.div_le_lower_bound; lia).
    rewrite to_signed_assign by lia.
    rewrite get_si_small by lia. apply long_to_int_small. lia.
Qed.

Lemma receive_index_first_engine_witness :
  receive_index 101 ([7; 9] :: [[3]]) = Returned (decode_index 101 7) /\
  receive_result 101 ([7; 9] :: [[3]]) 1 1 = Returned ([], decode_index 101 7).
Proof.
  assert (0 <= 7 < 101) as H by lia.
  pose proof (receive_index_first_engine 101 7 [9] [[3]] H) as (_ & _ & H1 & H2 & _).
  split; [exact H1|exact H2].
Defined.

(** *** The fixed-point encoding *)

(** [round] followed by the conversion to [int64_t], in and out of
    range. *)
Lemma round_to_int64_range (x : double) (s : bool) (a : positive) (k : Z) :
  double_of x s a k ->
  F64.to_int64 (F64.round x)
  = if (- 2 ^ 63 <=? cond_Zopp s (round_half_up (Z.pos a) k))
       && (cond_Zopp s (round_half_up (Z.pos a) k) <? 2 ^ 63)
    then Some (cond_Zopp s (round_half_up (Z.pos a) k)) else None.
Proof.
  intros Hx.
  pose proof (round_half_up_nonneg (Z.pos a) k ltac:(lia)) as Hnn.
  destruct (Z.lt_ge_cases (round_half_up (Z.pos a) k) (2 ^ 63)) as [Hlt|Hge].
  - rewrite (round_to_int64 x s a k Hx Hlt). now rewrite int64_range by lia.
  - destruct Hx as (m & e & -> & Hek & Hm & Hd).
    unfold F64.round. destruct (0 <=? e) eqn:He.
    + unfold F64.to_int64. rewrite He. apply Z.leb_le in He.
      assert (Z.shiftl (Z.pos m) e = round_half_up (Z.pos a) k) as ->; [|reflexivity].
      rewrite Z.shiftl_mul_pow2 by lia. unfold round_half_up.
      replace (0 <=? k) with true by (symmetry; apply Z.leb_le; lia).
      rewrite Hm, <- Z.mul_assoc, <- Z.pow_add_r by lia. f_equal. f_equal. lia.
    + exfalso. apply Z.leb_gt in He.
      pose proof (round_magnitude (Z.pos m) (Z.pos a) e k He Hek Hm) as Hr.
      rewrite Z.shiftr_div_pow2, Z.shiftl_mul_pow2, Z.mul_1_l in Hr by lia.
      assert (round_half_up (Z.pos a) k <= Z.pos m) as Hnm.
      { rewrite <- Hr.
        apply Z.lt_succ_r, Z.div_lt_upper_bound; [apply Z.pow_pos_nonneg; lia|].
        assert (2 ^ (- e - 1) < 2 ^ (- e)) by (apply Z.pow_lt_mono_r; lia).
        assert (1 <= 2 ^ (- e - 1)) by (pose proof (Z.pow_pos_nonneg 2 (- e - 1)); lia).
        nia. }
      pose proof (digits2_pos_bounds m) as [_ Hub]. rewrite Hd in Hub.
      assert (2 ^ 53 < 2 ^ 63) by (apply Z.pow_lt_mono_r; lia). lia.
Qed.

(** The encoding of a finite datum, in and out of range. *)
Lemma fixed_point_encode_range (x : float) :
  F32.valid x = true -> is_finite x = true ->
  fixed_point_encode x
  = if (- 2 ^ 63 <=? scaled_round x 8) && (scaled_round x 8 <? 2 ^ 63)
    then Some (scaled_round x 8) else None.
Proof.
  intros Hv Hf. destruct x as [s| | |s m e]; try discriminate.
  - reflexivity.
  - unfold fixed_point_encode, scaled_round.
    change SPDZ_FIXED_PRECISION with 8. rewrite pow2_8.
    pose proof (valid32_inv s m e Hv) as Hinv.
    pose proof (Pos2Z.is_pos (digits2_pos m)).
    apply (round_to_int64_range _ s m (e + 8)).
    apply mul_pow2_double_of; [now apply of_float_double_of|lia].
Qed.

(** A finite datum of the format between [-2^55] and [2^55]. *)
Lemma encode_domain (s : bool) (m : positive) (e : Z) :
  F32.valid (S754_finite s m e) = true ->
  (F32.leb minus_two_55 (S754_finite s m e) = true /\
   F32.ltb (S754_finite s m e) two_55 = true) <->
  - 2 ^ 63 <= scaled_round (S754_finite s m e) 8 < 2 ^ 63.
Proof.
  intros Hv. pose proof (valid32_inv s m e Hv) as (Hd & He & Hc).
  pose proof (digits2_pos_bounds m) as [Hlo Hhi].
  assert (Z.pos m < 2 ^ 24) as Hm24.
  { eapply Z.lt_le_trans; [exact Hhi|]. apply Z.pow_le_mono_r; lia. }
  assert (e = -149 \/ 2 ^ 23 <= Z.pos m) as Hnorm.
  { destruct Hc as [Hc|Hc]; [right|now left]. rewrite Hc in Hlo. exact Hlo. }
  assert (lex_lt (rank (S754_finite s m e)) (rank two_55) <-> (s = true \/ e < 32))
    as Hupper.
  { unfold two_55. destruct s; cbn [rank lex_lt]; [split; [auto|lia]|].
    change (Z.pos 8388608) with (2 ^ 23). split; [|lia].
    intros [H|(_ & [H|(H1 & H2)])]; [lia|auto|]. right. lia. }
  assert ((lex_lt (rank minus_two_55) (rank (S754_finite s m e)) \/
           rank minus_two_55 = rank (S754_finite s m e))
          <-> (s = false \/ e < 32 \/ (e = 32 /\ Z.pos m = 2 ^ 23))) as Hlower.
  { unfold minus_two_55. destruct s; cbn [rank lex_lt].
    - change (Z.pos 8388608) with (2 ^ 23). split.
      + intros [[H|(_ & [H|(H1 & H2)])]|H]; try lia.
        injection H as H1 H2. right. right. lia.
      + intros [H|[H|(H1 & H2)]]; [discriminate|left; lia|].
        right. f_equal; [f_equal|]; lia.
    - split; [auto|]. intros _. left. lia. }
  rewrite (ltb_rank (S754_finite s m e) two_55 eq_refl eq_refl).
  rewrite (leb_rank minus_two_55 (S754_finite s m e) eq_refl eq_refl).
  rewrite Hupper, Hlower. unfold scaled_round, round_half_up.
  destruct (0 <=? e + 8) eqn:E8.
  - apply Z.leb_le in E8.
    assert (0 < 2 ^ (e + 8)) as Hp by (apply Z.pow_pos_nonneg; lia).
    assert (e < 32 -> Z.pos m * 2 ^ (e + 8) < 2 ^ 63) as Hsmall.
    { intros H. assert (2 ^ (e + 8) <= 2 ^ 39) by (apply Z.pow_le_mono_r; lia).
      change (2 ^ 63) with (2 ^ 24 * 2 ^ 39). nia. }
    assert (32 <= e -> 2 ^ 63 <= Z.pos m * 2 ^ (e + 8)) as Hbig.
    { intros H. assert (2 ^ 40 <= 2 ^ (e + 8)) by (apply Z.pow_le_mono_r; lia).
      change (2 ^ 63) with (2 ^ 23 * 2 ^ 40). nia. }
    assert (32 < e -> 2 ^ 63 < Z.pos m * 2 ^ (e + 8)) as Hbig'.
    { intros H. assert (2 ^ 41 <= 2 ^ (e + 8)) by (apply Z.pow_le_mono_r; lia).
      change (2 ^ 63) with (2 ^ 22 * 2 ^ 41). nia. }
    assert (e = 32 -> 2 ^ 23 < Z.pos m -> 2 ^ 63 < Z.pos m * 2 ^ (e + 8)) as Hbig''.
    { intros -> H. change (2 ^ (32 + 8)) with (2 ^ 40).
      change (2 ^ 63) with (2 ^ 23 * 2 ^ 40). nia. }
    assert (e = 32 -> Z.pos m = 2 ^ 23 -> Z.pos m * 2 ^ (e + 8) = 2 ^ 63) as Heq.
    { intros -> ->. reflexivity. }
    destruct s; cbn [cond_Zopp]; split.
    + intros [[H|[H|[H1 H2]]] _]; [discriminate|specialize (Hsmall H); lia|].
      rewrite (Heq H1 H2). lia.
    + intros [H1 H2]. split; [|now left]. right.
      destruct (Z.lt_trichotomy e 32) as [H|[H|H]]; [now left| |specialize (Hbig' H); lia].
      right. split; [exact H|].
      destruct (Z.eq_dec (Z.pos m) (2 ^ 23)) as [Hm|Hm]; [exact Hm|].
      assert (2 ^ 23 < Z.pos m) as Hgt by lia. specialize (Hbig'' H Hgt). lia.
    + intros [_ [H|H]]; [discriminate|]. specialize (Hsmall H). lia.
    + intros [H1 H2]. split; [now left|]. right.
      destruct (Z.lt_ge_cases e 32) as [H|H]; [exact H|]. specialize (Hbig H). lia.
  - apply Z.leb_gt in E8.
    assert (0 <= (Z.pos m + 2 ^ (- (e + 8) - 1)) / 2 ^ (- (e + 8)) <= Z.pos m) as Hr.
    { assert (0 < 2 ^ (- (e + 8))) by (apply Z.pow_pos_nonneg; lia).
      assert (0 < 2 ^ (- (e + 8) - 1)) by (apply Z.pow_pos_nonneg; lia).
      assert (2 ^ (- (e + 8)) = 2 * 2 ^ (- (e + 8) - 1)) as Hdbl.
      { rewrite <- Z.pow_succ_r by lia. f_equal. lia. }
      split; [apply Z.div_pos; lia|].
      apply Z.lt_succ_r, Z.div_lt_upper_bound; [lia|]. nia. }
    assert (2 ^ 24 < 2 ^ 63) by (apply Z.pow_lt_mono_r; lia).
    destruct s; cbn [cond_Zopp]; split; intros _; lia.
Qed.

Lemma encode_shares_none (shares : list float) (x : float) :
  In x shares -> fixed_point_encode x = None -> encode_shares shares = None.
Proof.
  intros Hin Hx. induction shares as [|y ys IH]; [destruct Hin|].
  cbn [encode_shares]. destruct Hin as [->|Hin].
  - now rewrite Hx.
  - rewrite (IH Hin). now destruct (fixed_point_encode y).
Qed.

(** X5. The fixed-point encoding of a [float] is defined exactly on
    the numbers from [-2^55] up to, and not including, [2^55]: there
    it is the nearest integer to the 256-fold, halves going away from
    zero; on a NaN, an infinity or a larger number the conversion to
    [int64_t] is undefined, and [send_private_batch_shares] with such
    a share is undefined before anything is received or sent. *)
Theorem fixed_point_encode_defined (x : float) :
  F32.valid x = true ->
  (fixed_point_encode x <> None <->
   F32.leb minus_two_55 x = true /\ F32.ltb x two_55 = true) /\
  (forall n, fixed_point_encode x = Some n ->
     n = scaled_round x 8 /\ - 2 ^ 63 <= n < 2 ^ 63) /\
  (fixed_point_encode x = None ->
   forall p shares inc n_parties log, In x shares ->
     send_private_batch_shares p shares inc n_parties log = (log, Undefined)).
Proof.
  intros Hv. split; [|split].
  - destruct x as [s|s| |s m e].
    + split; [intros _; now destruct s|intros _; now destruct s].
    + split; [intros H; now contradiction H|]. intros [H1 H2]. now destruct s.
    + split; [intros H; now contradiction H|]. intros [H1 H2]. discriminate H1.
    + rewrite (encode_domain s m e Hv).
      rewrite (fixed_point_encode_range _ Hv eq_refl).
      destruct (- 2 ^ 63 <=? scaled_round (S754_finite s m e) 8) eqn:E1;
        destruct (scaled_round (S754_finite s m e) 8 <? 2 ^ 63) eqn:E2;
        cbn [andb];
        try apply Z.leb_le in E1; try apply Z.leb_gt in E1;
        try apply Z.ltb_lt in E2; try apply Z.ltb_ge in E2;
        (split; [intros H; try (now contradiction H); lia|intros H; try discriminate; lia]).
  - intros n Hn. destruct x as [s|s| |s m e]; try discriminate Hn.
    + injection Hn as <-. cbn. lia.
    + rewrite (fixed_point_encode_range _ Hv eq_refl) in Hn.
      destruct (- 2 ^ 63 <=? scaled_round (S754_finite s m e) 8) eqn:E1;
        destruct (scaled_round (S754_finite s m e) 8 <? 2 ^ 63) eqn:E2;
        try discriminate Hn.
      injection Hn as <-. apply Z.leb_le in E1. apply Z.ltb_lt in E2.
      split; [reflexivity|]. split; [exact E1|exact E2].
  - intros Hx p shares inc n_parties log Hin.
    unfold send_private_batch_shares.
    now rewrite (encode_shares_none shares x Hin Hx).
Qed.

(** 3.5 is in range, and its code is 896. *)
Lemma fixed_point_encode_defined_witness :
  (fixed_point_encode three_and_a_half <> None <->
   F32.leb minus_two_55 three_and_a_half = true /\
   F32.ltb three_and_a_half two_55 = true) /\
  (forall n, fixed_point_encode three_and_a_half = Some n ->
     n = scaled_round three_and_a_half 8 /\ - 2 ^ 63 <= n < 2 ^ 63).
Proof.
  assert (F32.valid three_and_a_half = true) as Hv by reflexivity.
  split.
  - exact (proj1 (fixed_point_encode_defined three_and_a_half Hv)).
  - exact (proj1 (proj2 (fixed_point_encode_defined three_and_a_half Hv))).
Defined.

Lemma scaled_round_units (x : float) :
  F32.valid x = true -> is_finite x = true ->
  scaled_round x 8 = scaled_units (units32 x).
Proof.
  intros Hv Hf. destruct x as [s| | |s m e]; try discriminate Hf; [reflexivity|].
  pose proof (valid32_inv s m e Hv) as (_ & He & _).
  unfold scaled_round, units32.
  assert (0 < 2 ^ (e + 149)) as Hp by (apply Z.pow_pos_nonneg; lia).
  assert (round_half_up (Z.pos m) (e + 8)
          = (Z.pos m * 2 ^ (e + 149) + 2 ^ 140) / 2 ^ 141) as Hr.
  { assert (0 < 2 ^ 140) as H140 by reflexivity.
    assert (2 ^ 141 = 2 * 2 ^ 140) as H141 by reflexivity.
    unfold round_half_up. destruct (0 <=? e + 8) eqn:E8.
    - apply Z.leb_le in E8.
      replace (e + 149) with (e + 8 + 141) by lia.
      rewrite (Z.pow_add_r 2 (e + 8) 141), Z.mul_assoc by lia.
      rewrite Z.div_add_l by (rewrite H141; lia).
      rewrite (Z.div_small (2 ^ 140)) by (rewrite H141; lia). lia.
    - apply Z.leb_gt in E8.
      replace (2 ^ 140) with (2 ^ (- (e + 8) - 1) * 2 ^ (e + 149))
        by (rewrite <- Z.pow_add_r by lia; f_equal; lia).
      replace (2 ^ 141) with (2 ^ (- (e + 8)) * 2 ^ (e + 149))
        by (rewrite <- Z.pow_add_r by lia; f_equal; lia).
      rewrite <- Z.mul_add_distr_r.
      rewrite Z.div_mul_cancel_r; [reflexivity| |lia].
      apply Z.pow_nonzero; lia. }
  rewrite Hr. unfold scaled_units. destruct s; cbn [cond_Zopp].
  - replace (- (Z.pos m * 2 ^ (e + 149)) <? 0) with true
      by (symmetry; apply Z.ltb_lt; lia).
    now rewrite Z.opp_involutive.
  - replace (Z.pos m * 2 ^ (e + 149) <? 0) with false
      by (symmetry; apply Z.ltb_ge; lia).
    reflexivity.
Qed.

Lemma scaled_units_mono (u1 u2 : Z) : u1 <= u2 -> scaled_units u1 <= scaled_units u2.
Proof.
  intros H. unfold scaled_units.
  assert (0 < 2 ^ 141) as Hp by reflexivity.
  assert (0 < 2 ^ 140) as Hq by reflexivity.
  destruct (u1 <? 0) eqn:H1, (u2 <? 0) eqn:H2;
    try apply Z.ltb_lt in H1; try apply Z.ltb_lt in H2;
    try apply Z.ltb_ge in H1; try apply Z.ltb_ge in H2.
  - pose proof (Z.div_le_mono (- u2 + 2 ^ 140) (- u1 + 2 ^ 140) (2 ^ 141) Hp
                              ltac:(lia)). lia.
  - pose proof (Z.div_pos (- u1 + 2 ^ 140) (2 ^ 141) ltac:(lia) Hp).
    pose proof (Z.div_pos (u2 + 2 ^ 140) (2 ^ 141) ltac:(lia) Hp). lia.
  - lia.
  - apply Z.div_le_mono; lia.
Qed.

Lemma leb_ltb_trans (x y z : float) :
  F32.leb x y = true -> F32.ltb y z = true -> F32.ltb x z = true.
Proof.
  intros H1 H2. destruct (leb_true_not_nan _ _ H1) as [Hx Hy].
  destruct (ltb_true_not_nan _ _ H2) as [_ Hz].
  apply leb_rank in H1; auto. apply ltb_rank in H2; auto. apply ltb_rank; auto.
  destruct H1 as [H1|H1]; [eapply lex_lt_trans; eassumption|now rewrite H1].
Qed.

Lemma encode_domain_finite (x : float) :
  F32.leb minus_two_55 x = true -> F32.ltb x two_55 = true -> is_finite x = true.
Proof. destruct x as [s|[|]| |s m e]; try discriminate; reflexivity. Qed.

(** X6. The fixed-point encoding keeps the order: between [-2^55] and
    [2^55] both numbers of a pair [x <= y] are encoded, and the code of
    [x] is at most the code of [y]. *)
Theorem fixed_point_encode_monotone (x y : float) :
  F32.valid x = true -> F32.valid y = true ->
  F32.leb minus_two_55 x = true -> F32.leb x y = true ->
  F32.ltb y two_55 = true ->
  exists a b, fixed_point_encode x = Some a /\ fixed_point_encode y = Some b /\
              a <= b.
Proof.
  intros Vx Vy Hlo Hxy Hhi.
  pose proof (leb_ltb_trans _ _ _ Hxy Hhi) as Hxhi.
  pose proof (leb_trans _ _ _ Hlo Hxy) as Hylo.
  pose proof (encode_domain_finite x Hlo Hxhi) as Fx.
  pose proof (encode_domain_finite y Hylo Hhi) as Fy.
  assert (forall z, F32.valid z = true -> is_finite z = true ->
            F32.leb minus_two_55 z = true -> F32.ltb z two_55 = true ->
            fixed_point_encode z = Some (scaled_round z 8)) as Henc.
  { intros z Vz Fz Hz1 Hz2. rewrite (fixed_point_encode_range z Vz Fz).
    destruct z as [s| | |s m e]; try discriminate Fz; [reflexivity|].
    pose proof (proj1 (encode_domain s m e Vz) (conj Hz1 Hz2)) as [H1 H2].
    apply Z.leb_le in H1. apply Z.ltb_lt in H2. now rewrite H1, H2. }
  exists (scaled_round x 8), (scaled_round y 8).
  split; [now apply Henc|]. split; [now apply Henc|].
  rewrite !scaled_round_units by assumption.
  now apply scaled_units_mono, units32_le.
Qed.

(** 1.5 and 3.5 are encoded as 384 and 896. *)
Lemma fixed_point_encode_monotone_witness :
  exists a b,
    fixed_point_encode (S754_finite false 12582912 (-23)) = Some a /\
    fixed_point_encode three_and_a_half = Some b /\ a <= b.
Proof.
  apply fixed_point_encode_monotone; reflexivity.
Defined.

Lemma assign_to_signed (p v : Z) :
  0 <= v < p -> Gfp.assign p (Gfp.to_signed_bigint p v) = v.
Proof.
  intros Hv. unfold Gfp.assign, Gfp.to_signed_bigint.
  destruct ((p - 1) / 2 <? v).
  - replace (v - p) with (v + (-1) * p) by lia.
    rewrite Z.mod_add by lia. apply Z.mod_small. lia.
  - apply Z.mod_small. lia.
Qed.

Lemma fixed_point_encode_decode (N : Z) :
  Z.abs N < 2 ^ 24 -> fixed_point_encode (fixed_point_decode N) = Some N.
Proof.
  intros HN. destruct (Z.eq_dec N 0) as [->|Hnz]; [reflexivity|].
  destruct (fixed_point_decode_exact N Hnz HN) as (m & e & -> & He & Hm & Hv).
  assert (scaled_round (S754_finite (N <? 0) m e) 8 = N) as Hs.
  { unfold scaled_round.
    assert (round_half_up (Z.pos m) (e + 8) = Z.abs N) as ->.
    { unfold round_half_up. destruct (0 <=? e + 8) eqn:E8.
      - apply Z.leb_le in E8. assert (e = -8) as -> by lia.
        change (2 ^ (-8 + 8)) with 1. change (2 ^ (-8 - -8)) with 1 in Hm. lia.
      - apply Z.leb_gt in E8. rewrite Hm.
        replace (- 8 - e) with (- (e + 8)) by lia.
        assert (0 < 2 ^ (- (e + 8))) by (apply Z.pow_pos_nonneg; lia).
        rewrite Z.div_add_l by lia.
        rewrite Z.div_small; [lia|]. split; [apply Z.pow_nonneg; lia|].
        apply Z.pow_lt_mono_r; lia. }
    destruct (N <? 0) eqn:E; cbn [cond_Zopp];
      [apply Z.ltb_lt in E|apply Z.ltb_ge in E]; lia. }
  rewrite (fixed_point_encode_finite _ Hv eq_refl); rewrite Hs; [reflexivity|].
  assert (2 ^ 24 < 2 ^ 63) by (apply Z.pow_lt_mono_r; lia). lia.
Qed.

(** X7. A share that [receive_result] decodes is encoded again to the
    same field element: for an opened value [v] whose signed reading is
    below [2^24] in magnitude, the fixed-point encoding of the decoded
    [float] is that signed reading, and its lift into the field is
    [v]. *)
Theorem decoded_share_encodes_back (p v : Z) :
  0 <= v < p -> Z.abs (Gfp.to_signed_bigint p v) < 2 ^ 24 ->
  fixed_point_encode (decode_share p v) = Some (Gfp.to_signed_bigint p v) /\
  encode_shares [decode_share p v] = Some [Gfp.to_signed_bigint p v] /\
  map (Gfp.assign p) [Gfp.to_signed_bigint p v] = [v].
Proof.
  intros Hv Hs.
  assert (2 ^ 24 < 2 ^ 63) as Hlt by (apply Z.pow_lt_mono_r; lia).
  assert (fixed_point_encode (decode_share p v) = Some (Gfp.to_signed_bigint p v))
    as Henc.
  { unfold decode_share. rewrite get_si_small by lia.
    now apply fixed_point_encode_decode. }
  split; [exact Henc|]. split.
  - cbn [encode_shares]. now rewrite Henc.
  - cbn [map]. now rewrite assign_to_signed.
Qed.

(** The field element 100 (modulo 101 it stands for -1) is decoded to
    [-1/256] and encoded back to -1, that is 100. *)
Lemma decoded_share_encodes_back_witness :
  fixed_point_encode (decode_share 101 100) = Some (-1) /\
  Gfp.assign 101 (-1) = 100.
Proof.
  assert (0 <= 100 < 101) as Hv by lia.
  assert (Z.abs (Gfp.to_signed_bigint 101 100) < 2 ^ 24) as Hs
      by (vm_compute; reflexivity).
  destruct (decoded_share_encodes_back 101 100 Hv Hs) as (H1 & _ & H3).
  split; [exact H1|]. reflexivity.
Defined.

(** *** The scan for distinct values on arbitrary input *)

Lemma for_range_fold_options {A St : Type} (g : nat -> option A)
      (step : St -> A -> St) (body : nat -> St -> option St) (count from : nat)
      (s : St) :
  (forall i t, body i t = match g i with
                          | Some x => Some (step t x)
                          | None => None
                          end) ->
  for_range from count body s
  = match collect_options g (seq from count) with
    | Some xs => Some (fold_left step xs s)
    | None => None
    end.
Proof.
  intros H. revert from s. induction count as [|c IH]; intros from s; cbn.
  - reflexivity.
  - rewrite H. destruct (g from) as [x|]; [|reflexivity].
    rewrite IH. now destruct (collect_options g (seq (S from) c)).
Qed.

Lemma collect_options_some {A : Type} (g : nat -> option A) (l : list nat)
      (xs : list A) :
  collect_options g l = Some xs ->
  length xs = length l /\
  forall i d, (i < length l)%nat -> g (nth i l 0%nat) = Some (nth i xs d).
Proof.
  revert xs. induction l as [|a l IH]; intros xs H; cbn in H.
  - injection H as <-. split; [reflexivity|]. intros i d Hi. cbn in Hi. lia.
  - destruct (g a) as [x|] eqn:Ea; [|discriminate].
    destruct (collect_options g l) as [ys|]; [|discriminate].
    injection H as <-. destruct (IH ys eq_refl) as [Hl Hn].
    split; [cbn; lia|]. intros [|i] d Hi; [exact Ea|].
    cbn. apply Hn. cbn in Hi. lia.
Qed.

Lemma collect_options_none {A : Type} (g : nat -> option A) (l : list nat) :
  collect_options g l = None <-> exists i, In i l /\ g i = None.
Proof.
  induction l as [|a l IH]; cbn.
  - split; [discriminate|intros (i & [] & _)].
  - destruct (g a) as [x|] eqn:Ea.
    + destruct (collect_options g l) as [ys|].
      * split; [discriminate|]. intros (i & [<-|Hi] & Hn); [congruence|].
        pose proof (proj2 IH (ex_intro _ i (conj Hi Hn))). discriminate.
      * split; [|reflexivity]. intros _.
        destruct (proj1 IH eq_refl) as (i & Hi & Hn). eauto.
    + split; [|reflexivity]. intros _. exists a. auto.
Qed.

Lemma compute_distinct_values_fold (v : list float) (idx : list nat) :
  compute_distinct_values v idx
  = match collect_options (sorted_value v idx) (seq 0 (length v)) with
    | Some xs => Some (distinct_of_sorted xs)
    | None => None
    end.
Proof.
  unfold compute_distinct_values, distinct_of_sorted.
  apply for_range_fold_options. intros i t.
  destruct (sorted_value v idx i) as [x|]; [|reflexivity].
  unfold distinct_step, push_back. destruct t as [|a t]; [reflexivity|].
  replace (length (a :: t) =? 0)%nat with false by reflexivity.
  unfold vec_at. rewrite (nth_error_last (a :: t) S754_nan) by discriminate.
  now destruct (F32.eqb _ x).
Qed.

Lemma nth_last {A : Type} (l : list A) (d : A) :
  nth (length l - 1) l d = last l d.
Proof.
  destruct l as [|a l]; [reflexivity|].
  destruct (exists_last (l := a :: l) ltac:(discriminate)) as (init & x & ->).
  rewrite last_last, length_app. cbn [length].
  replace (length init + 1 - 1)%nat with (length init) by lia.
  now rewrite app_nth2, Nat.sub_diag by lia.
Qed.

(** The scan never keeps two neighbours that compare equal, keeps
    nothing that it did not read, and starts with the first value. *)
Lemma distinct_fold_any (xs dv : list float) :
  (forall i, (S i < length dv)%nat ->
     F32.eqb (nth i dv S754_nan) (nth (S i) dv S754_nan) = false) ->
  (length (fold_left distinct_step xs dv) <= length dv + length xs)%nat /\
  (forall d, In d (fold_left distinct_step xs dv) -> In d dv \/ In d xs) /\
  (forall i, (S i < length (fold_left distinct_step xs dv))%nat ->
     F32.eqb (nth i (fold_left distinct_step xs dv) S754_nan)
             (nth (S i) (fold_left distinct_step xs dv) S754_nan) = false) /\
  (forall d, nth_error dv 0 = Some d ->
     nth_error (fold_left distinct_step xs dv) 0 = Some d).
Proof.
  revert dv. induction xs as [|x xs IH]; intros dv Hadj; cbn [fold_left].
  - split; [lia|]. split; [auto|]. split; [exact Hadj|auto].
  - assert (forall i, (S i < length (distinct_step dv x))%nat ->
              F32.eqb (nth i (distinct_step dv x) S754_nan)
                      (nth (S i) (distinct_step dv x) S754_nan) = false) as Hadj'.
    { unfold distinct_step. destruct dv as [|a dv']; [cbn; intros; lia|].
      set (dv := a :: dv') in *.
      destruct (F32.eqb (last dv S754_nan) x) eqn:E; [exact Hadj|].
      intros i Hi. rewrite length_app in Hi. cbn [length] in Hi.
      destruct (Nat.eq_dec (S i) (length dv)) as [Heq|Hne].
      - rewrite app_nth1 by lia. rewrite (app_nth2 _ _ _ (n := S i)) by lia.
        rewrite Heq, Nat.sub_diag. cbn [nth].
        replace i with (length dv - 1)%nat by lia. now rewrite nth_last.
      - rewrite !app_nth1 by lia. apply Hadj. lia. }
    destruct (IH _ Hadj') as (Hlen & Hin & Hadj2 & Hhd).
    assert (length (distinct_step dv x) <= S (length dv))%nat as Hl1.
    { unfold distinct_step. destruct dv as [|a dv']; [cbn; lia|].
      destruct (F32.eqb _ x); [lia|]. rewrite length_app. cbn. lia. }
    assert (forall d, In d (distinct_step dv x) -> In d dv \/ d = x) as Hin1.
    { intros d. unfold distinct_step. destruct dv as [|a dv'].
      - intros [<-|[]]. now right.
      - destruct (F32.eqb _ x); [auto|]. intros H. apply in_app_or in H.
        destruct H as [H|[<-|[]]]; auto. }
    split; [cbn [length]; lia|]. split; [|split; [exact Hadj2|]].
    + intros d Hd. destruct (Hin d Hd) as [H|H]; [|right; now right].
      destruct (Hin1 d H) as [H'| ->]; [now left|right; now left].
    + intros d Hd. apply Hhd. unfold distinct_step.
      destruct dv as [|a dv']; [discriminate|].
      destruct (F32.eqb _ x); [exact Hd|]. cbn in Hd |- *. exact Hd.
Qed.

(** X8. On any vector of values and any vector of indexes,
    [compute_distinct_values] is defined exactly when each of the first
    [n] indexes exists and is below [n] (otherwise it reads out of
    range).  What it returns has at most [n] elements, all of them
    values of the vector, no two neighbours compare equal, and with
    [n > 0] its first element is the value at the first index. *)
Theorem compute_distinct_values_scan (v : list float) (idx : list nat) :
  (compute_distinct_values v idx <> None <->
   forall i, (i < length v)%nat ->
     exists k, nth_error idx i = Some k /\ (k < length v)%nat) /\
  (forall dv, compute_distinct_values v idx = Some dv ->
     (length dv <= length v)%nat /\
     (forall d, In d dv -> In d v) /\
     (forall i, (S i < length dv)%nat ->
        F32.eqb (nth i dv S754_nan) (nth (S i) dv S754_nan) = false) /\
     ((0 < length v)%nat ->
      exists k, nth_error idx 0 = Some k /\ nth_error dv 0 = nth_error v k)).
Proof.
  rewrite compute_distinct_values_fold.
  assert (forall i, sorted_value v idx i <> None <->
            exists k, nth_error idx i = Some k /\ (k < length v)%nat) as Hdef.
  { intros i. unfold sorted_value, vec_at.
    destruct (nth_error idx i) as [k|].
    - split.
      + intros H. exists k. split; [reflexivity|]. now apply nth_error_Some.
      + intros (k' & Hk & Hlt). injection Hk as <-. now apply nth_error_Some.
    - split; [intros H; now contradiction H|intros (k & Hk & _); discriminate]. }
  split.
  - destruct (collect_options (sorted_value v idx) (seq 0 (length v)))
      as [xs|] eqn:E.
    + split; [|discriminate]. intros _ i Hi. apply Hdef.
      destruct (collect_options_some _ _ _ E) as [_ Hn].
      specialize (Hn i S754_nan). rewrite length_seq, seq_nth in Hn by lia.
      cbn in Hn. rewrite (Hn Hi). discriminate.
    + split; [intros H; now contradiction H|]. intros H. exfalso.
      apply collect_options_none in E. destruct E as (i & Hi & Hn).
      apply in_seq in Hi. apply (proj2 (Hdef i)); [apply H; lia|exact Hn].
  - intros dv Hdv.
    destruct (collect_options (sorted_value v idx) (seq 0 (length v)))
      as [xs|] eqn:E; [|discriminate].
    injection Hdv as <-.
    destruct (collect_options_some _ _ _ E) as [Hlen Hn].
    rewrite length_seq in Hlen, Hn.
    assert (forall i, (i < length v)%nat ->
              sorted_value v idx i = Some (nth i xs S754_nan)) as Hx.
    { intros i Hi. specialize (Hn i S754_nan Hi).
      now rewrite seq_nth in Hn by lia. }
    destruct (distinct_fold_any xs []) as (Hl & Hin & Hadj & _);
      [cbn; intros; lia|].
    fold (distinct_of_sorted xs) in Hl, Hin, Hadj.
    split; [cbn in Hl; lia|]. split; [|split; [exact Hadj|]].
    + intros d Hd. destruct (Hin d Hd) as [[]|Hd'].
      destruct (In_nth xs d S754_nan Hd') as (i & Hi & <-).
      specialize (Hx i ltac:(lia)). unfold sorted_value, vec_at in Hx.
      destruct (nth_error idx i) as [k|]; [|discriminate].
      eapply nth_error_In; eauto.
    + intros Hpos. specialize (Hx 0%nat Hpos).
      unfold sorted_value, vec_at in Hx.
      destruct (nth_error idx 0) as [k|]; [|discriminate].
      exists k. split; [reflexivity|]. rewrite Hx.
      destruct xs as [|x xs']; [cbn in Hlen; lia|].
      unfold distinct_of_sorted. cbn [fold_left distinct_step nth].
      destruct (distinct_fold_any xs' [x]) as (_ & _ & _ & Hhd);
        [cbn; intros; lia|].
      apply Hhd. reflexivity.
Qed.

(** *** The size of the split parameters *)

Lemma for_range_length {A : Type} (body : nat -> list A -> option (list A))
      (count from : nat) (s s' : list A) :
  (forall i t t', body i t = Some t' -> length t' = S (length t)) ->
  for_range from count body s = Some s' ->
  length s' = (length s + count)%nat.
Proof.
  intros H. revert from s. induction count as [|c IH]; intros from s Hs; cbn in Hs.
  - injection Hs as <-. lia.
  - destruct (body from s) as [t|] eqn:E; [|discriminate].
    rewrite (IH _ _ Hs), (H _ _ _ E). lia.
Qed.

Lemma for_range_head {A : Type} (body : nat -> list A -> option (list A))
      (count from : nat) (s s' : list A) (a : A) :
  (forall i t t', body i t = Some t' -> exists x, t' = push_back t x) ->
  nth_error s 0 = Some a ->
  for_range from count body s = Some s' -> nth_error s' 0 = Some a.
Proof.
  intros H. revert from s. induction count as [|c IH]; intros from s Ha Hs; cbn in Hs.
  - now injection Hs as <-.
  - destruct (body from s) as [t|] eqn:E; [|discriminate].
    apply (IH (S from) t); [|exact Hs].
    destruct (H _ _ _ E) as [x ->]. unfold push_back.
    destruct s; [discriminate|exact Ha].
Qed.

Lemma distinct_of_sorted_length (w : list float) :
  (length (distinct_of_sorted w) <= length w)%nat.
Proof.
  destruct (distinct_fold_any w []) as [H _]; [cbn; intros; lia|exact H].
Qed.

(** X9. Whatever [std::sort] does and whatever the column holds,
    [compute_splits] never exits or fails, and when it returns, it
    returns nine parameters (the size that [main] checks), the first of
    them the [float] of an integer between 0 and 8.  With a [std::sort]
    within the standard's guarantees and a column without NaN it
    returns unless the column has nine samples with nine distinct
    values, where it reads out of range; the first parameter is then
    the number of distinct values minus one, capped at 8. *)
Theorem compute_splits_nine_parameters
        (std_sort : (nat -> nat -> bool) -> list nat -> list nat)
        (v : list float) :
  (forall r out, compute_splits std_sort v = Returned (r, out) ->
     length r = 9%nat /\
     exists k, (k <= 8)%nat /\ nth_error r 0 = Some (F32.of_Z (Z.of_nat k))) /\
  (forall status, compute_splits std_sort v <> Exited status) /\
  compute_splits std_sort v <> Failed /\
  (sort_contract std_sort -> nan_free v ->
   exists dv,
     compute_distinct_values v (sort_indexes std_sort v) = Some dv /\
     (length dv <= length v)%nat /\
     (length v = 9%nat -> length dv = 9%nat ->
      compute_splits std_sort v = Undefined) /\
     (~ (length v = 9%nat /\ length dv = 9%nat) ->
      exists r out,
        compute_splits std_sort v = Returned (r, out) /\
        nth_error r 0
        = Some (F32.of_Z (Z.of_nat (Nat.min 8 (length dv - 1)))))).
Proof.
  split; [|split; [|split]].
  - intros r out. unfold compute_splits.
    destruct (compute_distinct_values v (sort_indexes std_sort v)) as [dv|];
      [|discriminate].
    change (MAX_SPLIT_NUM + 1)%nat with 9%nat.
    change MAX_SPLIT_NUM with 8%nat.
    destruct (9 <=? length dv)%nat eqn:E9; [|destruct (1 <? length dv)%nat eqn:E1].
    + match goal with
      | |- context [for_range 0 8 ?b ?s] =>
        destruct (for_range 0 8 b s) as [sp|] eqn:E; [|discriminate];
          pose proof (for_range_length b 8 0 s sp) as Hl;
          pose proof (for_range_head b 8 0 s sp (F32.of_Z (Z.of_nat 8))) as Hh
      end.
      intros H. injection H as <- <-.
      rewrite Hl; [split; [reflexivity|]|..].
      * exists 8%nat. split; [lia|]. apply Hh; [|reflexivity|exact E].
        intros i t t' Hb.
        destruct (sorted_value _ _ _); [|discriminate].
        destruct (sorted_value _ _ _); [|discriminate].
        injection Hb as <-. eauto.
      * intros i t t' Hb.
        destruct (sorted_value _ _ _); [|discriminate].
        destruct (sorted_value _ _ _); [|discriminate].
        injection Hb as <-. unfold push_back. rewrite length_app. cbn. lia.
      * exact E.
    + match goal with
      | |- context [for_range 0 8 ?b ?s] =>
        destruct (for_range 0 8 b s) as [sp|] eqn:E; [|discriminate];
          pose proof (for_range_length b 8 0 s sp) as Hl;
          pose proof (for_range_head b 8 0 s sp
                        (F32.of_Z (Z.of_nat (length dv - 1)))) as Hh
      end.
      intros H. injection H as <- <-.
      apply Nat.leb_gt in E9.
      rewrite Hl; [split; [reflexivity|]|..].
      * exists (length dv - 1)%nat. split; [lia|].
        apply Hh; [|reflexivity|exact E].
        intros i t t' Hb. destruct (i <=? length dv - 1)%nat.
        -- destruct (vec_at dv i); [|discriminate]. injection Hb as <-. eauto.
        -- injection Hb as <-. eauto.
      * intros i t t' Hb. destruct (i <=? length dv - 1)%nat.
        -- destruct (vec_at dv i); [|discriminate]. injection Hb as <-.
           unfold push_back. rewrite length_app. cbn. lia.
        -- injection Hb as <-. unfold push_back. rewrite length_app. cbn. lia.
      * exact E.
    + match goal with
      | |- context [for_range 0 8 ?b ?s] =>
        destruct (for_range 0 8 b s) as [sp|] eqn:E; [|discriminate];
          pose proof (for_range_length b 8 0 s sp) as Hl;
          pose proof (for_range_head b 8 0 s sp (F32.of_Z 0)) as Hh
      end.
      intros H. injection H as <- <-.
      rewrite Hl; [split; [reflexivity|]|..].
      * exists 0%nat. split; [lia|]. apply Hh; [|reflexivity|exact E].
        intros i t t' Hb. injection Hb as <-. eauto.
      * intros i t t' Hb. injection Hb as <-.
        unfold push_back. rewrite length_app. cbn. lia.
      * exact E.
  - intros status. unfold compute_splits.
    destruct (compute_distinct_values v (sort_indexes std_sort v)) as [dv|];
      [|discriminate].
    destruct (_ <=? _)%nat; [|destruct (_ <? _)%nat];
      destruct (for_range _ _ _ _); discriminate.
  - unfold compute_splits.
    destruct (compute_distinct_values v (sort_indexes std_sort v)) as [dv|];
      [|discriminate].
    destruct (_ <=? _)%nat; [|destruct (_ <? _)%nat];
      destruct (for_range _ _ _ _); discriminate.
  - intros Hsort Hnan.
    set (w := values_along v (sort_indexes std_sort v)).
    assert (length w = length v) as Hw
        by apply (values_along_length _ Hsort _ Hnan).
    exists (distinct_of_sorted w).
    split; [now apply compute_distinct_values_along|].
    pose proof (distinct_of_sorted_length w) as Hdl.
    split; [lia|].
    rewrite compute_splits_from_sorted by assumption.
    unfold splits_from_sorted. fold w. split.
    + intros Hn Hd.
      replace (9 <=? length (distinct_of_sorted w))%nat with true
        by (symmetry; apply Nat.leb_le; lia).
      assert (collect_options (threshold w) (seq 0 8) = None) as ->; [|reflexivity].
      apply collect_options_none. exists 7%nat. split; [cbn; tauto|].
      unfold threshold. rewrite Hw, Hn.
      change (upper_position 9 7) with 9%nat. change (lower_position 9 7) with 8%nat.
      destruct (nth_error w 8); [|reflexivity].
      assert (nth_error w 9 = None) as -> by (apply nth_error_None; lia).
      reflexivity.
    + intros Hnot. destruct (9 <=? length (distinct_of_sorted w))%nat eqn:E9.
      * apply Nat.leb_le in E9.
        assert (10 <= length v)%nat as Hn by lia.
        rewrite (collect_options_map (threshold w)
                   (fun i => average (nth (lower_position (length v) i) w S754_nan)
                                     (nth (upper_position (length v) i) w S754_nan))).
        -- eexists. eexists. split; [reflexivity|]. cbn [nth_error].
           now replace (Nat.min 8 (length (distinct_of_sorted w) - 1)) with 8%nat by lia.
        -- intros i Hi. apply in_seq in Hi.
           pose proof (upper_position_in_range (length v) i Hn ltac:(lia)) as Hp.
           unfold threshold. rewrite Hw.
           rewrite !(nth_error_nth' w S754_nan) by lia. reflexivity.
      * apply Nat.leb_gt in E9. destruct (1 <? length (distinct_of_sorted w))%nat eqn:E1.
        -- apply Nat.ltb_lt in E1. eexists. eexists. split; [reflexivity|].
           cbn [nth_error].
           now replace (Nat.min 8 (length (distinct_of_sorted w) - 1))
             with (length (distinct_of_sorted w) - 1)%nat by lia.
        -- apply Nat.ltb_ge in E1. eexists. eexists. split; [reflexivity|].
           cbn [nth_error].
           now replace (Nat.min 8 (length (distinct_of_sorted w) - 1))
             with 0%nat by lia.
Qed.

(** The column [1, 1, 2, 2, 3] with the insertion sort: nine
    parameters, the first of them 2. *)
Lemma compute_splits_nine_parameters_witness :
  exists r out,
    compute_splits insertion_sort (map F32.of_Z [1; 1; 2; 2; 3])
    = Returned (r, out) /\
    length r = 9%nat /\ nth_error r 0 = Some (F32.of_Z 2).
Proof.
  assert (nan_free (map F32.of_Z [1; 1; 2; 2; 3])) as Hnan
      by (apply plain_column; reflexivity).
  pose proof (compute_splits_nine_parameters insertion_sort
                (map F32.of_Z [1; 1; 2; 2; 3])) as (Hsize & _ & _ & Hret).
  destruct (Hret insertion_sort_contract Hnan) as (dv & Hdv & _ & _ & Hr).
  assert (dv = map F32.of_Z [1; 2; 3]) as ->.
  { vm_compute in Hdv. injection Hdv as <-. reflexivity. }
  destruct Hr as (r & out & Hr & Hhd).
  - intros [H _]. vm_compute in H. discriminate H.
  - exists r, out. split; [exact Hr|]. split; [exact (proj1 (Hsize r out Hr))|].
    exact Hhd.
Defined.

(** *** The order of the samples *)

Lemma compute_splits_returns
      (std_sort : (nat -> nat -> bool) -> list nat -> list nat) (v : list float) :
  sort_contract std_sort -> nan_free v -> length v <> 9%nat ->
  exists r, compute_splits std_sort v = Returned r.
Proof.
  intros Hsort Hnan Hn9.
  set (w := values_along v (sort_indexes std_sort v)).
  assert (length w = length v) as Hw
      by apply (values_along_length _ Hsort _ Hnan).
  pose proof (distinct_of_sorted_length w) as Hdl.
  rewrite compute_splits_from_sorted by assumption.
  unfold splits_from_sorted. fold w.
  destruct (9 <=? length (distinct_of_sorted w))%nat eqn:E9.
  - apply Nat.leb_le in E9.
    assert (10 <= length v)%nat as Hn by lia.
    rewrite (collect_options_map (threshold w)
               (fun i => average (nth (lower_position (length v) i) w S754_nan)
                                 (nth (upper_position (length v) i) w S754_nan))).
    + eauto.
    + intros i Hi. apply in_seq in Hi.
      pose proof (upper_position_in_range (length v) i Hn ltac:(lia)) as Hp.
      unfold threshold. rewrite Hw.
      rewrite !(nth_error_nth' w S754_nan) by lia. reflexivity.
  - destruct (1 <? length (distinct_of_sorted w))%nat; eauto.
Qed.

(** X10. What [compute_splits] returns depends neither on the order of
    the samples nor on the implementation of [std::sort]: on a column
    without NaN and without negative zero, a result returned for the
    column is returned for every rearrangement of it, under every
    [std::sort] within the standard's guarantees.  A column whose
    number of samples is not nine has such a result.  (With nine
    samples and nine distinct values the routine reads out of range and
    returns nothing that could be compared.) *)
Theorem compute_splits_order_free
        (sort1 sort2 : (nat -> nat -> bool) -> list nat -> list nat)
        (v v' : list float) :
  sort_contract sort1 -> sort_contract sort2 ->
  nan_free v -> no_negative_zero v -> Permutation v v' ->
  (forall r, compute_splits sort1 v = Returned r ->
             compute_splits sort2 v' = Returned r) /\
  (length v <> 9%nat ->
   exists r, compute_splits sort1 v = Returned r /\
             compute_splits sort2 v' = Returned r).
Proof.
  intros H1 H2 Hnan Hz Hperm.
  assert (nan_free v') as Hnan'
      by (intros x Hx; apply Hnan, (Permutation_in _ (Permutation_sym Hperm) Hx)).
  assert (compute_splits sort1 v = compute_splits sort2 v') as Heq.
  { rewrite !compute_splits_from_sorted by assumption. f_equal.
    apply non_descending_unique.
    - intros x y Hx Hy. apply (leb_antisym v); auto.
      + apply (Permutation_in _ (Permutation_sym (values_along_perm _ H1 _ Hnan)) Hx).
      + apply (Permutation_in _ (Permutation_sym (values_along_perm _ H1 _ Hnan)) Hy).
    - rewrite <- (values_along_perm _ H1 _ Hnan), Hperm.
      now apply values_along_perm.
    - now apply values_along_sorted.
    - now apply values_along_sorted. }
  split.
  - intros r Hr. now rewrite <- Heq.
  - intros Hn9. destruct (compute_splits_returns sort1 v H1 Hnan Hn9) as [r Hr].
    exists r. split; [exact Hr|now rewrite <- Heq].
Qed.

(** The columns [3, 1, 2, 1] and [1, 1, 2, 3], sorted by two different
    implementations. *)
Lemma compute_splits_order_free_witness :
  exists r,
    compute_splits insertion_sort (map F32.of_Z [3; 1; 2; 1]) = Returned r /\
    compute_splits reversing_sort (map F32.of_Z [1; 1; 2; 3]) = Returned r.
Proof.
  destruct (plain_column (map F32.of_Z [3; 1; 2; 1])) as [Hnan Hz];
    [reflexivity|].
  assert (Permutation (map F32.of_Z [3; 1; 2; 1]) (map F32.of_Z [1; 1; 2; 3]))
    as Hperm.
  { cbn [map].
    apply (Permutation_cons_app [F32.of_Z 1; F32.of_Z 1; F32.of_Z 2] []
                                (F32.of_Z 3)).
    cbn [app]. apply perm_skip, perm_swap. }
  apply (proj2 (compute_splits_order_free insertion_sort reversing_sort _ _
                  insertion_sort_contract reversing_sort_contract Hnan Hz Hperm)).
  cbn. discriminate.
Defined.

(** *** The thresholds and their neighbours *)

Lemma leb_refl (x : float) : F32.is_nan x = false -> F32.leb x x = true.
Proof. intros H. apply eqb_leb. now apply eqb_refl. Qed.

(** The average of a number with itself, short of overflow. *)
Lemma average_same (a : float) :
  F32.valid a = true ->
  F32.ltb minus_two_127 a = true -> F32.ltb a two_127 = true ->
  average a a = a.
Proof.
  intros Va Hlo Hhi. destruct a as [s|[|]| |s m e]; try discriminate.
  - unfold average. rewrite two_float. now destruct s.
  - pose proof (valid32_inv s m e Va) as (Hd & He & Hc).
    pose proof (digits2_pos_bounds m) as [Hml Hmh].
    assert (e <= 103) as He103.
    { destruct (Z.eq_dec e 104) as [->|]; [exfalso|lia].
      assert (2 ^ 23 <= Z.pos m) as Hm.
      { destruct Hc as [Hc|Hc]; [|lia]. now rewrite Hc in Hml. }
      destruct s.
      - apply ltb_rank in Hlo; [|reflexivity|reflexivity].
        unfold minus_two_127 in Hlo. cbn [rank lex_lt] in Hlo.
        change (Z.pos 8388608) with (2 ^ 23) in Hlo. lia.
      - apply ltb_rank in Hhi; [|reflexivity|reflexivity].
        unfold two_127 in Hhi. cbn [rank lex_lt] in Hhi.
        change (Z.pos 8388608) with (2 ^ 23) in Hhi. lia. }
    unfold average. rewrite (add_finite s s m m e e Va Va).
    assert (0 < 2 ^ (e + 149)) as Hp by (apply Z.pow_pos_nonneg; lia).
    destruct (Z.eq_dec (Z.pos (digits2_pos m)) 24) as [H24|Hn24].
    + assert (F32.valid (S754_finite s m (e + 1)) = true) as Vy
          by (apply valid32_intro; lia).
      replace (units32 (S754_finite s m e) + units32 (S754_finite s m e))
        with (units32 (S754_finite s m (e + 1))).
      * rewrite (float_of_units32_id s m (e + 1) Vy).
        rewrite (div_two_normal s m (e + 1) Vy) by lia.
        f_equal. lia.
      * unfold units32. replace (e + 1 + 149) with (e + 149 + 1) by lia.
        rewrite (Z.pow_add_r 2 (e + 149) 1) by lia. change (2 ^ 1) with 2.
        destruct s; cbn [cond_Zopp]; lia.
    + assert (e = -149) as -> by lia.
      assert (F32.valid (S754_finite s m~0 (-149)) = true) as Vy.
      { apply valid32_intro; [|lia|now right].
        change (digits2_pos m~0) with (Pos.succ (digits2_pos m)). lia. }
      replace (units32 (S754_finite s m (-149)) + units32 (S754_finite s m (-149)))
        with (units32 (S754_finite s m~0 (-149))).
      * rewrite (float_of_units32_id s m~0 (-149) Vy).
        rewrite (div_two_subnormal s m~0 Vy).
        change (Z.pos m~0) with (2 * Z.pos m). now rewrite rne_double.
      * unfold units32. change (2 ^ (-149 + 149)) with 1.
        change (Z.pos m~0) with (2 * Z.pos m).
        destruct s; cbn [cond_Zopp]; lia.
Qed.

Lemma in_range_finite (x : float) :
  F32.ltb minus_two_127 x = true -> F32.ltb x two_127 = true ->
  is_finite x = true.
Proof. destruct x as [s|[|]| |s m e]; try discriminate; reflexivity. Qed.

(** The result of [compute_splits] on a continuous column. *)
Lemma compute_splits_thresholds
      (std_sort : (nat -> nat -> bool) -> list nat -> list nat)
      (v dv : list float) :
  sort_contract std_sort -> nan_free v -> (10 <= length v)%nat ->
  compute_distinct_values v (sort_indexes std_sort v) = Some dv ->
  (9 <= length dv)%nat ->
  compute_splits std_sort v
  = Returned (F32.of_Z 8
                :: map (fun i =>
                          average
                            (nth (lower_position (length v) i)
                                 (values_along v (sort_indexes std_sort v)) S754_nan)
                            (nth (upper_position (length v) i)
                                 (values_along v (sort_indexes std_sort v)) S754_nan))
                       (seq 0 8), []).
Proof.
  intros Hsort Hnan Hn Hdv Hlen.
  set (w := values_along v (sort_indexes std_sort v)).
  rewrite (compute_distinct_values_along std_sort v Hsort Hnan) in Hdv.
  fold w in Hdv. injection Hdv as <-.
  assert (length w = length v) as Hw by apply (values_along_length _ Hsort _ Hnan).
  rewrite compute_splits_from_sorted by assumption.
  unfold splits_from_sorted. fold w.
  replace (9 <=? length (distinct_of_sorted w))%nat with true
    by (symmetry; apply Nat.leb_le; lia).
  rewrite (collect_options_map (threshold w)
             (fun i => average (nth (lower_position (length v) i) w S754_nan)
                               (nth (upper_position (length v) i) w S754_nan)));
    [reflexivity|].
  intros i Hi. apply in_seq in Hi.
  pose proof (upper_position_in_range (length v) i Hn ltac:(lia)) as Hp.
  unfold threshold. rewrite Hw.
  rewrite !(nth_error_nth' w S754_nan) by lia. reflexivity.
Qed.

(** X11. On a continuous column of numbers strictly between [-2^127]
    and [2^127], with ten samples or more, every threshold that
    [compute_splits] returns lies between the two sorted neighbours it
    is the average of: the rounding of the sum and of the half never
    moves it out of their interval. *)
Theorem thresholds_between_neighbours
        (std_sort : (nat -> nat -> bool) -> list nat -> list nat)
        (v dv : list float) :
  sort_contract std_sort ->
  (forall x, In x v ->
     F32.valid x = true /\
     F32.ltb minus_two_127 x = true /\ F32.ltb x two_127 = true) ->
  (10 <= length v)%nat ->
  compute_distinct_values v (sort_indexes std_sort v) = Some dv ->
  (9 <= length dv)%nat ->
  exists ts,
    compute_splits std_sort v = Returned (F32.of_Z 8 :: ts, []) /\
    length ts = 8%nat /\
    forall i, (i < 8)%nat ->
      F32.leb (nth (lower_position (length v) i)
                   (values_along v (sort_indexes std_sort v)) S754_nan)
              (nth i ts S754_nan) = true /\
      F32.leb (nth i ts S754_nan)
              (nth (upper_position (length v) i)
                   (values_along v (sort_indexes std_sort v)) S754_nan) = true.
Proof.
  intros Hsort Hrange Hn Hdv Hlen.
  assert (nan_free v) as Hnan.
  { intros x Hx. destruct (Hrange x Hx) as (_ & _ & H).
    now apply ltb_true_not_nan in H. }
  eexists. split; [now apply (compute_splits_thresholds std_sort v dv)|].
  split; [now rewrite length_map, length_seq|].
  set (w := values_along v (sort_indexes std_sort v)).
  assert (length w = length v) as Hw by apply (values_along_length _ Hsort _ Hnan).
  pose proof (values_along_sorted _ Hsort _ Hnan) as Hws. fold w in Hws.
  intros i Hi.
  rewrite (nth_map_lt _ _ _ 0%nat) by (rewrite length_seq; lia).
  rewrite seq_nth by lia. cbn [Nat.add].
  pose proof (upper_position_in_range (length v) i Hn Hi) as Hp.
  set (a := nth (lower_position (length v) i) w S754_nan).
  set (b := nth (upper_position (length v) i) w S754_nan).
  assert (In a v /\ In b v) as [Ha Hb].
  { split;
      apply (Permutation_in _ (Permutation_sym (values_along_perm _ Hsort _ Hnan)));
      fold w; apply nth_In; lia. }
  destruct (Hrange a Ha) as (Va & La & Ua).
  destruct (Hrange b Hb) as (Vb & Lb & Ub).
  assert (F32.leb a b = true) as Hab
      by (apply (StronglySorted_nth _ _ S754_nan Hws); lia).
  destruct (leb_true_not_nan _ _ Hab) as [Na Nb].
  assert (forall x y, is_finite x = true ->
            ~ (x = S754_infinity true /\ y = S754_infinity false)) as Hgap
      by (intros x y Hx [-> _]; discriminate).
  pose proof (in_range_finite a La Ua) as Fa.
  pose proof (in_range_finite b Lb Ub) as Fb.
  split.
  - pose proof (average_mono a a a b Va Va Va Vb (leb_refl a Na) Hab
                             (leb_refl a Na) Hab (Hgap a a Fa) (Hgap a b Fa)) as H.
    now rewrite (average_same a Va La Ua) in H.
  - pose proof (average_mono a b b b Va Vb Vb Vb Hab (leb_refl b Nb)
                             Hab (leb_refl b Nb) (Hgap a b Fa) (Hgap b b Fb)) as H.
    now rewrite (average_same b Vb Lb Ub) in H.
Qed.

(** The column [5, 1, 3, 3, 9, 2, 7, 8, 4, 6] with the insertion sort. *)
Lemma thresholds_between_neighbours_witness :
  exists ts,
    compute_splits insertion_sort (map F32.of_Z [5; 1; 3; 3; 9; 2; 7; 8; 4; 6])
    = Returned (F32.of_Z 8 :: ts, []) /\ length ts = 8%nat.
Proof.
  assert (forall x, In x (map F32.of_Z [5; 1; 3; 3; 9; 2; 7; 8; 4; 6]) ->
            F32.valid x = true /\
            F32.ltb minus_two_127 x = true /\ F32.ltb x two_127 = true) as Hrange.
  { intros x Hx.
    assert (F32.valid x && F32.ltb minus_two_127 x && F32.ltb x two_127 = true) as H.
    { revert x Hx. apply forallb_forall. vm_compute. reflexivity. }
    apply andb_true_iff in H. destruct H as [H H3].
    apply andb_true_iff in H. destruct H as [H1 H2]. auto. }
  assert (10 <= length (map F32.of_Z [5; 1; 3; 3; 9; 2; 7; 8; 4; 6]%Z))%nat as Hn
      by (apply Nat.leb_le; vm_compute; reflexivity).
  assert (9 <= length (map F32.of_Z [1; 2; 3; 4; 5; 6; 7; 8; 9]%Z))%nat as Hlen
      by (apply Nat.leb_le; vm_compute; reflexivity).
  assert (compute_distinct_values
            (map F32.of_Z [5; 1; 3; 3; 9; 2; 7; 8; 4; 6])
            (sort_indexes insertion_sort
               (map F32.of_Z [5; 1; 3; 3; 9; 2; 7; 8; 4; 6]))
          = Some (map F32.of_Z [1; 2; 3; 4; 5; 6; 7; 8; 9])) as Hdv
      by (vm_compute; reflexivity).
  destruct (thresholds_between_neighbours insertion_sort _ _
              insertion_sort_contract Hrange Hn Hdv Hlen) as (ts & H1 & H2 & _).
  exists ts. split; [exact H1|exact H2].
Defined.

(** *** The counters and the indicator vectors *)

Lemma split_iv_sums_loop (fv : list float) (t : float) (count from : nat)
      (sl sr : Z) :
  (from + count = length fv)%nat ->
  exists sl' sr',
    for_range from count
      (fun i sums =>
         match vec_at (split_iv_left fv t) i, vec_at (split_iv_right fv t) i with
         | Some l, Some r => Some (fst sums + l, snd sums + r)
         | _, _ => None
         end) (sl, sr) = Some (sl', sr') /\
    sl' + sr' = sl + sr + Z.of_nat count /\
    sl' - sl = Z.of_nat (length (filter (fun x => F32.leb x t) (skipn from fv))) /\
    sl <= sl' /\ sr <= sr'.
Proof.
  revert from sl sr. induction count as [|c IH]; intros from sl sr Hlen.
  - exists sl, sr. cbn. rewrite skipn_all2 by lia. cbn. repeat split; lia.
  - cbn [for_range]. unfold vec_at, split_iv_left, split_iv_right.
    rewrite !nth_error_map.
    destruct (nth_error fv from) as [x|] eqn:E;
      [|apply nth_error_None in E; lia].
    cbn [option_map fst snd]. rewrite (skipn_nth_error_cons _ _ _ E).
    fold (split_iv_left fv t). fold (split_iv_right fv t).
    destruct (IH (S from) (sl + (if F32.leb x t then 1 else 0))
                 (sr + (if F32.leb x t then 0 else 1)) ltac:(lia))
      as (sl' & sr' & Hrun & Hsum & Hcount & Hl & Hr).
    exists sl', sr'. split; [exact Hrun|]. cbn [filter].
    destruct (F32.leb x t); cbn [length]; repeat split; lia.
Qed.

(** X12. The two counters that [compute_feature_split_ivs] computes
    after each pass add up to the number of samples: for every column
    and every threshold, [sum_left] is the number of samples that are
    at most the threshold and [sum_left + sum_right] is the number of
    samples; neither read is out of range. *)
Theorem split_iv_sums_total (feature_values : list float) (cur_split_value : float) :
  exists sum_left sum_right,
    split_iv_sums (split_iv_left feature_values cur_split_value)
                  (split_iv_right feature_values cur_split_value)
                  (length feature_values)
    = Some (sum_left, sum_right) /\
    sum_left + sum_right = Z.of_nat (length feature_values) /\
    sum_left
    = Z.of_nat (length (filter (fun x => F32.leb x cur_split_value)
                               feature_values)) /\
    0 <= sum_left /\ 0 <= sum_right.
Proof.
  destruct (split_iv_sums_loop feature_values cur_split_value
                               (length feature_values) 0 0 0 eq_refl)
    as (sl & sr & Hrun & Hsum & Hcount & Hl & Hr).
  exists sl, sr. split; [exact Hrun|]. cbn [skipn] in Hcount.
  repeat split; lia.
Qed.

(** X13. The left indicator vectors are nested along the thresholds:
    for two split values with [split_values[s+1] <= split_values[s'+1]],
    every sample on the left of split [s] is on the left of split [s'],
    and every sample on the right of [s'] is on the right of [s]. *)
Theorem split_ivs_nested (feature_values split_values : list float) (s s' : nat) :
  (s < length split_values - 1)%nat -> (s' < length split_values - 1)%nat ->
  F32.leb (nth (s + 1) split_values S754_nan)
          (nth (s' + 1) split_values S754_nan) = true ->
  exists lft rgt,
    compute_feature_split_ivs feature_values split_values [] [] = Some (lft, rgt) /\
    forall i, (i < length feature_values)%nat ->
      nth i (nth s lft []) 0 <= nth i (nth s' lft []) 0 /\
      nth i (nth s' rgt []) 0 <= nth i (nth s rgt []) 0.
Proof.
  intros Hs Hs' Hle. rewrite compute_feature_split_ivs_rows. cbn [app].
  eexists. eexists. split; [reflexivity|]. intros i Hi.
  assert (forall k, (k < length split_values - 1)%nat ->
            nth k (tl split_values) S754_nan = nth (k + 1) split_values S754_nan)
    as Htl.
  { intros k _. destruct split_values; [now destruct k|].
    cbn [tl]. now rewrite Nat.add_1_r. }
  assert (length (tl split_values) = (length split_values - 1)%nat) as Hlen
      by (destruct split_values; cbn; lia).
  rewrite !(nth_map_lt _ _ _ S754_nan) by lia.
  rewrite !split_iv_left_nth, !split_iv_right_nth by exact Hi.
  rewrite !Htl by assumption.
  destruct (F32.leb (nth i feature_values S754_nan)
                    (nth (s + 1) split_values S754_nan)) eqn:E.
  - rewrite (leb_trans _ _ _ E Hle). lia.
  - destruct (F32.leb (nth i feature_values S754_nan)
                      (nth (s' + 1) split_values S754_nan)); lia.
Qed.

(** Thresholds 2 and 5 on the column [1, 3, 7]. *)
Lemma split_ivs_nested_witness :
  exists lft rgt,
    compute_feature_split_ivs [F32.of_Z 1; F32.of_Z 3; F32.of_Z 7]
                              [F32.of_Z 2; F32.of_Z 2; F32.of_Z 5] [] []
    = Some (lft, rgt) /\
    forall i, (i < 3)%nat ->
      nth i (nth 0 lft []) 0 <= nth i (nth 1 lft []) 0 /\
      nth i (nth 1 rgt []) 0 <= nth i (nth 0 rgt []) 0.
Proof.
  apply (split_ivs_nested [F32.of_Z 1; F32.of_Z 3; F32.of_Z 7]
                          [F32.of_Z 2; F32.of_Z 2; F32.of_Z 5] 0 1).
  - apply Nat.ltb_lt. vm_compute. reflexivity.
  - apply Nat.ltb_lt. vm_compute. reflexivity.
  - vm_compute. reflexivity.
Defined.

Lemma first_occurrences_in (labels seen : list float) (c : float) :
  In c (first_occurrences seen labels) -> In c labels.
Proof.
  revert seen. induction labels as [|l rest IH]; intros seen H; [exact H|].
  cbn [first_occurrences] in H.
  destruct (existsb (fun s => F32.eqb s l) seen).
  - right. exact (IH _ H).
  - destruct H as [<-|H]; [now left|right; exact (IH _ H)].
Qed.

Lemma first_occurrences_length (labels seen : list float) :
  (length (first_occurrences seen labels) <= length labels)%nat.
Proof.
  revert seen. induction labels as [|l rest IH]; intros seen; [cbn; lia|].
  cbn [first_occurrences].
  destruct (existsb (fun s => F32.eqb s l) seen); cbn [length];
    specialize (IH (seen ++ [l])); lia.
Qed.

Lemma collect_classes_first (labels : list float) :
  collect_classes labels [] = first_occurrences [] labels.
Proof.
  rewrite (collect_classes_first_occurrences labels [] []); [reflexivity|].
  intros x. reflexivity.
Qed.

(** X14. [compute_label_class_ivs] returns one row per class, at most
    one row per sample and at least one when there is a sample; every
    row has one entry per sample, each 0 or 1; and the row of a class
    that is not NaN holds a 1, so that on labels without NaN no class
    is empty. *)
Theorem label_class_ivs_shape (training_labels : list float) :
  length (compute_label_class_ivs training_labels)
  = length (collect_classes training_labels []) /\
  (length (compute_label_class_ivs training_labels)
   <= length training_labels)%nat /\
  (training_labels <> [] -> compute_label_class_ivs training_labels <> []) /\
  (forall row, In row (compute_label_class_ivs training_labels) ->
     length row = length training_labels /\
     forall x, In x row -> x = 0 \/ x = 1) /\
  (forall j, (j < length (collect_classes training_labels []))%nat ->
     F32.is_nan (nth j (collect_classes training_labels []) S754_nan) = false ->
     In 1 (nth j (compute_label_class_ivs training_labels) [])).
Proof.
  unfold compute_label_class_ivs. rewrite collect_classes_first.
  split; [apply length_map|]. split; [|split; [|split]].
  - rewrite length_map. apply first_occurrences_length.
  - destruct training_labels as [|l rest]; [intros H; now contradiction H|].
    intros _. cbn. discriminate.
  - intros row Hrow. apply in_map_iff in Hrow. destruct Hrow as (c & <- & _).
    unfold class_iv. split; [apply length_map|].
    intros x Hx. apply in_map_iff in Hx. destruct Hx as (l & <- & _).
    destruct (F32.eqb l c); auto.
  - intros j Hj Hn. rewrite (nth_map_lt _ _ _ S754_nan) by exact Hj.
    set (c := nth j (first_occurrences [] training_labels) S754_nan) in *.
    assert (In c training_labels) as Hc
        by (apply (first_occurrences_in _ []), nth_In; exact Hj).
    unfold class_iv. apply in_map_iff. exists c. split; [|exact Hc].
    now rewrite eqb_refl.
Qed.

(** *** The indicator vectors of a categorical column *)

Lemma ascending_last (dv : list float) (d : float) :
  ascending dv -> (forall x, In x dv -> F32.is_nan x = false) -> In d dv ->
  F32.leb d (last dv S754_nan) = true.
Proof.
  intros Hasc Hnan Hd. destruct (In_nth dv d S754_nan Hd) as (j & Hj & <-).
  rewrite <- nth_last.
  destruct (Nat.eq_dec j (length dv - 1)) as [->|Hne].
  - apply leb_refl, Hnan, nth_In. lia.
  - apply ltb_leb. apply (StronglySorted_nth _ _ S754_nan Hasc). lia.
Qed.

Lemma split_iv_left_all (fv : list float) (t : float) :
  (forall x, In x fv -> F32.leb x t = true) ->
  split_iv_left fv t = repeat 1 (length fv) /\
  split_iv_right fv t = repeat 0 (length fv).
Proof.
  intros H. unfold split_iv_left, split_iv_right.
  induction fv as [|x fv IH]; [split; reflexivity|].
  cbn [map length repeat]. rewrite (H x) by now left.
  destruct IH as [-> ->]; [intros y Hy; apply H; now right|]. split; reflexivity.
Qed.

(** X15. On a column without NaN with 2 to 8 distinct values [dv],
    the indicator vectors built from the parameters that
    [compute_splits] returns have eight rows on each side, one entry
    per sample; row [s] below the number of distinct values marks the
    samples that are at most [dv[s]], and the row of the largest
    distinct value puts every sample on the left and none on the
    right. *)
Theorem categorical_split_ivs
        (std_sort : (nat -> nat -> bool) -> list nat -> list nat)
        (v dv : list float) :
  sort_contract std_sort -> nan_free v ->
  compute_distinct_values v (sort_indexes std_sort v) = Some dv ->
  (2 <= length dv <= 8)%nat ->
  exists r out lft rgt,
    compute_splits std_sort v = Returned (r, out) /\
    compute_feature_split_ivs v r [] [] = Some (lft, rgt) /\
    length lft = 8%nat /\ length rgt = 8%nat /\
    (forall s, (s < length dv)%nat ->
       nth s lft [] = split_iv_left v (nth s dv S754_nan) /\
       nth s rgt [] = split_iv_right v (nth s dv S754_nan)) /\
    nth (length dv - 1) lft [] = repeat 1 (length v) /\
    nth (length dv - 1) rgt [] = repeat 0 (length v).
Proof.
  intros Hsort Hnan Hdv Hlen.
  set (w := values_along v (sort_indexes std_sort v)).
  rewrite (compute_distinct_values_along std_sort v Hsort Hnan) in Hdv.
  fold w in Hdv. injection Hdv as <-.
  destruct (distinct_of_sorted_spec w) as (Hasc & Hin & Hcov);
    [now apply values_along_nan_free|now apply values_along_sorted|].
  set (dv := distinct_of_sorted w) in *.
  rewrite compute_splits_from_sorted by assumption.
  unfold splits_from_sorted. fold w. fold dv.
  replace (9 <=? length dv)%nat with false by (symmetry; apply Nat.leb_gt; lia).
  replace (1 <? length dv)%nat with true by (symmetry; apply Nat.ltb_lt; lia).
  eexists. eexists. eexists. eexists. split; [reflexivity|].
  rewrite compute_feature_split_ivs_rows. cbn [app tl].
  split; [reflexivity|].
  assert (forall s, (s < length dv)%nat ->
            nth s (dv ++ repeat (F32.of_Z (-1)) (8 - length dv)) S754_nan
            = nth s dv S754_nan) as Hnth
      by (intros s Hs; now rewrite app_nth1).
  assert (length (dv ++ repeat (F32.of_Z (-1)) (8 - length dv)) = 8%nat) as Hl8
      by (rewrite length_app, repeat_length; lia).
  split; [now rewrite length_map|]. split; [now rewrite length_map|].
  assert (forall s, (s < length dv)%nat ->
            nth s (map (split_iv_left v)
                       (dv ++ repeat (F32.of_Z (-1)) (8 - length dv))) []
            = split_iv_left v (nth s dv S754_nan) /\
            nth s (map (split_iv_right v)
                       (dv ++ repeat (F32.of_Z (-1)) (8 - length dv))) []
            = split_iv_right v (nth s dv S754_nan)) as Hrows.
  { intros s Hs. rewrite !(nth_map_lt _ _ _ S754_nan) by lia.
    now rewrite Hnth. }
  split; [exact Hrows|].
  destruct (Hrows (length dv - 1)%nat ltac:(lia)) as [-> ->].
  rewrite nth_last. apply split_iv_left_all.
  intros x Hx.
  assert (In x w) as Hxw
      by (apply (Permutation_in _ (values_along_perm _ Hsort _ Hnan) Hx)).
  destruct (Hcov x Hxw) as (d & Hd & Heq).
  rewrite eqb_sym in Heq.
  apply (leb_trans _ _ _ (eqb_leb _ _ Heq)).
  apply ascending_last; [exact Hasc| |exact Hd].
  intros y Hy. apply (values_along_nan_free _ Hsort _ Hnan). fold w. now apply Hin.
Qed.

(** The column [1, 1, 2, 2, 3]: the row of the value 3 is all ones. *)
Lemma categorical_split_ivs_witness :
  exists r out lft rgt,
    compute_splits insertion_sort (map F32.of_Z [1; 1; 2; 2; 3])
    = Returned (r, out) /\
    compute_feature_split_ivs (map F32.of_Z [1; 1; 2; 2; 3]) r [] []
    = Some (lft, rgt) /\
    nth 2 lft [] = repeat 1 5 /\ nth 2 rgt [] = repeat 0 5.
Proof.
  assert (nan_free (map F32.of_Z [1; 1; 2; 2; 3])) as Hnan
      by (apply plain_column; reflexivity).
  assert (compute_distinct_values (map F32.of_Z [1; 1; 2; 2; 3])
            (sort_indexes insertion_sort (map F32.of_Z [1; 1; 2; 2; 3]))
          = Some (map F32.of_Z [1; 2; 3])) as Hdv by (vm_compute; reflexivity).
  assert (2 <= length (map F32.of_Z [1; 2; 3]%Z) <= 8)%nat as Hlen
      by (split; apply Nat.leb_le; vm_compute; reflexivity).
  destruct (categorical_split_ivs insertion_sort _ _ insertion_sort_contract
                                  Hnan Hdv Hlen)
    as (r & out & lft & rgt & Hr & Hivs & _ & _ & _ & Hl & Hrt).
  exists r, out, lft, rgt. split; [exact Hr|]. split; [exact Hivs|].
  split; [exact Hl|exact Hrt].
Defined.

(** *** Reading the data file *)

Lemma until_delim_app (delim : ascii) (x rest : string) :
  has_char delim x = false ->
  until_delim delim (x ++ String delim rest) = (x, rest).
Proof.
  induction x as [|c x IH]; intros H; cbn.
  - now rewrite Ascii.eqb_refl.
  - cbn in H. apply orb_false_iff in H. destruct H as [Hc Hx].
    rewrite Hc, (IH Hx). reflexivity.
Qed.

Lemma until_delim_none (delim : ascii) (x : string) :
  has_char delim x = false -> until_delim delim x = (x, EmptyString).
Proof.
  induction x as [|c x IH]; intros H; cbn; [reflexivity|].
  cbn in H. apply orb_false_iff in H. destruct H as [Hc Hx].
  rewrite Hc, (IH Hx). reflexivity.
Qed.

Lemma until_delim_shorter (delim : ascii) (s : string) :
  (String.length (snd (until_delim delim s)) <= String.length s)%nat.
Proof.
  induction s as [|c s IH]; cbn; [lia|].
  destruct (Ascii.eqb c delim); cbn; [lia|].
  destruct (until_delim delim s) as [item rest]. cbn in *. lia.
Qed.

Lemma append_length (a b : string) :
  String.length (a ++ b) = (String.length a + String.length b)%nat.
Proof. induction a as [|c a IH]; cbn; [reflexivity|now rewrite IH]. Qed.

Lemma has_char_append (c : ascii) (a b : string) :
  has_char c (a ++ b) = has_char c a || has_char c b.
Proof.
  induction a as [|x a IH]; cbn; [reflexivity|]. now rewrite IH, orb_assoc.
Qed.

(** The loop ends within its fuel. *)
Lemma getline_loop_total {St : Type} (delim : ascii) (fuel : nat) (s : string)
      (body : string -> St -> option St) (st : St) :
  (forall item t, body item t <> None) ->
  (String.length s < fuel)%nat ->
  getline_loop delim fuel s body st <> None.
Proof.
  intros Hbody. revert s st. induction fuel as [|fuel IH]; intros s st Hf; [lia|].
  cbn [getline_loop]. destruct s as [|c s]; [discriminate|].
  cbn [getline]. pose proof (until_delim_shorter delim (String c s)) as Hs.
  destruct (until_delim delim (String c s)) as [item rest] eqn:E.
  destruct (body item st) as [st'|] eqn:Eb; [|now apply Hbody in Eb].
  apply IH. cbn [snd] in Hs.
  assert (String.length rest < String.length (String c s))%nat; [|lia].
  cbn in E. destruct (Ascii.eqb c delim).
  - injection E as <- <-. cbn. lia.
  - pose proof (until_delim_shorter delim s) as Hs'.
    destruct (until_delim delim s) as [i r]. injection E as <- <-. cbn in *. lia.
Qed.

(** The loop over the items of a row written with separators. *)
Lemma getline_loop_items {St : Type} (f : St -> string -> St)
      (body : string -> St -> option St) (items : list string) :
  (forall item t, body item t = Some (f t item)) ->
  (forall x, In x items -> has_char "," x = false) ->
  (items <> [] -> last items EmptyString <> EmptyString) ->
  forall fuel st,
    (String.length (join_items items) < fuel)%nat ->
    getline_loop "," fuel (join_items items) body st
    = Some (fold_left f items st).
Proof.
  intros Hbody. induction items as [|x items IH]; intros Hc Hlast fuel st Hf.
  - destruct fuel; [cbn in Hf; lia|reflexivity].
  - destruct items as [|y items].
    + cbn [join_items] in *. assert (x <> EmptyString) as Hx
          by (apply Hlast; discriminate).
      destruct fuel as [|fuel]; [lia|]. cbn [getline_loop].
      destruct x as [|c x]; [now contradiction Hx|]. cbn [getline].
      rewrite until_delim_none by (apply Hc; now left). rewrite Hbody.
      destruct fuel; [cbn in Hf; lia|reflexivity].
    + change (join_items (x :: y :: items))
        with (x ++ String "," (join_items (y :: items)))%string in *.
      rewrite append_length in Hf. cbn [String.length] in Hf.
      destruct fuel as [|fuel]; [lia|]. cbn [getline_loop].
      assert (getline "," (x ++ String "," (join_items (y :: items)))
              = Some (x, join_items (y :: items))) as ->.
      { unfold getline.
        destruct (x ++ String "," (join_items (y :: items)))%string eqn:E.
        - destruct x; discriminate E.
        - rewrite <- E. now rewrite until_delim_app by (apply Hc; now left). }
      rewrite Hbody. cbn [fold_left]. apply IH.
      * intros z Hz. apply Hc. now right.
      * intros _. apply Hlast. discriminate.
      * lia.
Qed.

(** The loop over the lines of a file written with closing newlines. *)
Lemma getline_loop_lines {St : Type} (f : St -> string -> St)
      (body : string -> St -> option St) (lines : list string) :
  (forall l, In l lines -> forall t, body l t = Some (f t l)) ->
  (forall l, In l lines -> has_char "010" l = false) ->
  forall fuel st,
    (String.length (write_lines lines) < fuel)%nat ->
    getline_loop "010" fuel (write_lines lines) body st
    = Some (fold_left f lines st).
Proof.
  induction lines as [|l lines IH]; intros Hbody Hc fuel st Hf.
  - destruct fuel; [cbn in Hf; lia|reflexivity].
  - cbn [write_lines] in *. rewrite append_length in Hf. cbn [String.length] in Hf.
    destruct fuel as [|fuel]; [lia|]. cbn [getline_loop].
    assert (getline "010" (l ++ String "010" (write_lines lines))
            = Some (l, write_lines lines)) as ->.
    { unfold getline. destruct (l ++ String "010" (write_lines lines))%string eqn:E.
      - destruct l; discriminate E.
      - rewrite <- E. now rewrite until_delim_app by (apply Hc; now left). }
    rewrite (Hbody l) by now left. cbn [fold_left]. apply IH.
    + intros l' Hl'. apply Hbody. now right.
    + intros l' Hl'. apply Hc. now right.
    + lia.
Qed.

Lemma fold_left_push_back {A B : Type} (g : B -> A) (l : list B) (acc : list A) :
  fold_left (fun t x => push_back t (g x)) l acc = acc ++ map g l.
Proof.
  revert acc. induction l as [|x l IH]; intros acc; cbn.
  - now rewrite app_nil_r.
  - rewrite IH. unfold push_back. now rewrite <- app_assoc.
Qed.

Lemma has_char_join (c : ascii) (items : list string) :
  c <> ","%char -> (forall x, In x items -> has_char c x = false) ->
  has_char c (join_items items) = false.
Proof.
  intros Hc. induction items as [|x items IH]; intros H; [reflexivity|].
  destruct items as [|y items]; [apply H; now left|].
  change (join_items (x :: y :: items))
    with (x ++ String "," (join_items (y :: items)))%string.
  rewrite has_char_append. cbn [has_char].
  rewrite (H x) by now left. rewrite IH by (intros z Hz; apply H; now right).
  apply Ascii.eqb_neq in Hc. rewrite Ascii.eqb_sym in Hc. now rewrite Hc.
Qed.

Section ReaderFacts.

Variable atof : string -> double.
Variable to_string : Z -> string.
Variable files : string -> option string.

Lemma read_items_join (items : list string) :
  (forall x, In x items -> has_char "," x = false) ->
  (items <> [] -> last items EmptyString <> EmptyString) ->
  read_items atof (join_items items)
  = Some (map (fun item => F32.of_double (atof item)) items).
Proof.
  intros Hc Hlast. unfold read_items.
  rewrite (getline_loop_items
             (fun t item => push_back t (F32.of_double (atof item))));
    auto.
  now rewrite fold_left_push_back.
Qed.

Lemma read_items_total (line : string) : read_items atof line <> None.
Proof. apply getline_loop_total; [discriminate|lia]. Qed.

End ReaderFacts.

(** X16. [read_training_data] exits with status 1 when the file of
    the client cannot be opened, and its two loops always end.  On a
    file whose lines are closed by newlines and hold items separated by
    commas (no item with a comma or a newline in it, and the last item
    of a line not empty) it returns one row per line with the [float]
    of [atof] of every item, [sample_num] the number of lines and
    [feature_num] the number of items of the first line, whatever the
    other lines hold; on a file without a line it reads [local_data[0]]
    of an empty vector. *)
Theorem read_training_data_parses
        (atof : string -> double) (to_string : Z -> string)
        (files : string -> option string)
        (client_id : Z) (data : string) (rows : list (list string)) :
  files (data_file to_string client_id data)
  = Some (write_lines (map join_items rows)) ->
  (forall row item, In row rows -> In item row ->
     has_char "," item = false /\ has_char "010" item = false) ->
  (forall row, In row rows -> row <> [] ->
     last row EmptyString <> EmptyString) ->
  read_training_data atof to_string files client_id data
  = ([], match rows with
         | [] => Undefined
         | first :: _ =>
           Returned (map (map (fun item => F32.of_double (atof item))) rows,
                     Z.of_nat (length first), Z.of_nat (length rows))
         end) /\
  (forall other_files,
      other_files (data_file to_string client_id data) = None ->
      read_training_data atof to_string other_files client_id data
      = (["open %s error"%string], Exited 1)) /\
  (forall other_files,
      snd (read_training_data atof to_string other_files client_id data)
      <> Failed).
Proof.
  intros Hfile Hitems Hlast. split; [|split].
  - unfold read_training_data. rewrite Hfile.
    rewrite (getline_loop_lines
               (fun t line =>
                  push_back t (match read_items atof line with
                               | Some items => items
                               | None => []
                               end))).
    + rewrite fold_left_push_back. cbn [app]. rewrite map_map.
      assert (map (fun row => match read_items atof (join_items row) with
                              | Some items => items
                              | None => []
                              end) rows
              = map (map (fun item => F32.of_double (atof item))) rows) as ->.
      { apply map_ext_in. intros row Hrow. rewrite read_items_join; auto.
        intros x Hx. now apply (Hitems row x). }
      destruct rows as [|first rows']; [reflexivity|].
      cbn [map vec_at nth_error length]. now rewrite !length_map.
    + intros l Hl t. pose proof (read_items_total atof l) as Ht.
      destruct (read_items atof l); [reflexivity|now contradiction Ht].
    + intros l Hl. apply in_map_iff in Hl. destruct Hl as (row & <- & Hrow).
      apply has_char_join; [discriminate|].
      intros x Hx. now apply (Hitems row x).
    + lia.
  - intros other Hnone. unfold read_training_data. now rewrite Hnone.
  - intros other. unfold read_training_data.
    destruct (other (data_file to_string client_id data)) as [content|];
      [|discriminate].
    match goal with
    | |- context [getline_loop ?d ?fuel ?s ?b ?st] =>
      pose proof (getline_loop_total d fuel s b st) as Ht;
        destruct (getline_loop d fuel s b st) as [local_data|]
    end.
    + destruct (vec_at local_data 0); discriminate.
    + exfalso. apply Ht; [|lia|reflexivity].
      intros item t. pose proof (read_items_total atof item).
      now destruct (read_items atof item).
Qed.

(** A file of two lines, [1.5,2] and [3,4,5]. *)
Lemma read_training_data_parses_witness :
  read_training_data (fun _ => S754_zero false) (fun _ => "0"%string)
                     (fun _ => Some (write_lines (map join_items
                                        [["1.5"; "2"]; ["3"; "4"; "5"]])%string))
                     0 "bank"%string
  = ([], Returned ([[S754_zero false; S754_zero false];
                    [S754_zero false; S754_zero false; S754_zero false]],
                   2, 2)).
Proof.
  apply (read_training_data_parses
           (fun _ => S754_zero false) (fun _ => "0"%string)
           (fun _ => Some (write_lines (map join_items
                                          [["1.5"; "2"]; ["3"; "4"; "5"]])%string))
           0 "bank"%string [["1.5"; "2"]; ["3"; "4"; "5"]]%string).
  - reflexivity.
  - intros row item [<-|[<-|[]]] Hitem; cbn in Hitem;
      repeat (destruct Hitem as [<-|Hitem]; [split; reflexivity|]);
      destruct Hitem.
  - intros row [<-|[<-|[]]] _; cbn; discriminate.
Defined.

(** *** The training split *)

(** The product of a sample count and [0.8], in units of [2^-1074]. *)
Lemma mul_split_units (n : Z) :
  0 < n < 2 ^ 31 ->
  F64.mul (F64.of_Z n) SPLIT_PERCENTAGE
  = float_of_units 53 1024 false (n * 7205759403792794 * 2 ^ 1021).
Proof.
  intros Hn.
  assert (2 ^ 31 < 2 ^ 53) as H3153 by (apply Z.pow_lt_mono_r; lia).
  destruct (of_Z64_double_of n ltac:(lia) ltac:(lia))
    as (m1 & e1 & Heq & He1 & Hm1 & Hd1).
  rewrite Z2Pos.id in Hm1 by lia. rewrite Z.abs_eq in Hm1 by lia.
  pose proof (digits2_pos_bounds m1) as [Hlo Hhi]. rewrite Hd1 in Hlo, Hhi.
  change (53 - 1) with 52 in Hlo.
  assert (0 < 2 ^ (0 - e1)) as Hp by (apply Z.pow_pos_nonneg; lia).
  assert (-52 <= e1) as He1lo.
  { destruct (Z.le_gt_cases (-52) e1) as [H|H]; [exact H|exfalso].
    assert (2 ^ 53 <= 2 ^ (0 - e1)) by (apply Z.pow_le_mono_r; lia). nia. }
  rewrite Heq. unfold F64.mul, SFmul, SPLIT_PERCENTAGE.
  replace (n <? 0) with false by (symmetry; apply Z.ltb_ge; lia). cbn [xorb].
  change F64.prec with 53. change F64.emax with 1024.
  set (M := 7205759403792794%positive).
  assert (binary_round_aux 53 1024 false (Z.pos (m1 * M)) (e1 + -53) loc_Exact
          = binary_round 53 1024 false (m1 * M) (e1 + -53)) as ->.
  { unfold binary_round. rewrite (shl_align_none 53 1024); [reflexivity|].
    rewrite fexp64, digits2_pos_log2, Pos2Z.inj_mul.
    assert (104 <= Z.log2 (Z.pos m1 * Z.pos M)); [|lia].
    apply Z.log2_le_pow2; [lia|].
    change (2 ^ 104) with (2 ^ 52 * 2 ^ 52).
    apply Z.mul_le_mono_nonneg; lia. }
  assert (0 < 2 ^ (e1 + -53 - emin 53 1024)) as Hp2
      by (apply Z.pow_pos_nonneg; change (emin 53 1024) with (-1074); lia).
  destruct (Z.pos (m1 * M) * 2 ^ (e1 + -53 - emin 53 1024)) as [|x|x] eqn:Hx;
    try lia.
  rewrite (binary_round_to_units 53 1024 false (m1 * M) x (e1 + -53));
    [|change (emin 53 1024) with (-1074); lia|now rewrite Hx].
  rewrite (binary_round_units 53 1024) by lia. f_equal.
  rewrite <- Hx, Pos2Z.inj_mul, Hm1. change (emin 53 1024) with (-1074).
  replace (e1 + -53 - -1074) with (e1 + 1021) by lia.
  replace 1021 with ((0 - e1) + (e1 + 1021)) at 2 by lia.
  rewrite (Z.pow_add_r 2 (0 - e1) (e1 + 1021)) by lia.
  change (Z.pos M) with 7205759403792794. ring.
Qed.

(** The truncation of the rounded product. *)
Lemma split_units_to_int (n : Z) :
  0 < n < 2 ^ 31 ->
  double_to_int (float_of_units 53 1024 false (n * 7205759403792794 * 2 ^ 1021))
  = Some (4 * n / 5).
Proof.
  intros Hn.
  set (Y := n * 7205759403792794).
  set (K := 4 * n / 5).
  assert (5 * K <= 4 * n < 5 * K + 5) as HK.
  { unfold K. pose proof (Z.div_mod (4 * n) 5 ltac:(lia)).
    pose proof (Z.mod_pos_bound (4 * n) 5 ltac:(lia)). lia. }
  assert (2 ^ 52 <= Y < 2 ^ 84) as HY by (unfold Y; lia).
  assert (K * 2 ^ 53 <= Y) as HYlo by (unfold Y; lia).
  assert (5 * Y <= (5 * K + 4) * 2 ^ 53 + 2 ^ 32) as HYhi by (unfold Y; lia).
  set (k' := Z.log2 Y - 52).
  assert (0 <= k' <= 31) as Hk'.
  { unfold k'. split.
    - assert (52 <= Z.log2 Y); [|lia]. apply Z.log2_le_pow2; lia.
    - assert (Z.log2 Y < 84); [|lia]. apply Z.log2_lt_pow2; lia. }
  assert (Z.log2 (Y * 2 ^ 1021) = Z.log2 Y + 1021) as Hlog
      by (rewrite Z.log2_mul_pow2; lia).
  unfold float_of_units, round_units. rewrite Hlog.
  replace (Z.log2 Y + 1021 + 1 <=? 53) with false by (symmetry; apply Z.leb_gt; lia).
  change (emin 53 1024) with (-1074).
  replace (Z.log2 Y + 1021 + 1 - 53) with (k' + 1021) by (unfold k'; lia).
  set (q := rne (Y * 2 ^ 1021) (k' + 1021)).
  set (Pk := 2 ^ k').
  set (Pj := 2 ^ (53 - k')).
  assert (1 <= Pk <= 2 ^ 31) as HPk.
  { unfold Pk. split; [pose proof (Z.pow_pos_nonneg 2 k'); lia|].
    apply Z.pow_le_mono_r; lia. }
  assert (0 < Pj) as HPj by (apply Z.pow_pos_nonneg; lia).
  assert (Pk * Pj = 2 ^ 53) as HPP
      by (unfold Pk, Pj; rewrite <- Z.pow_add_r by lia; f_equal; lia).
  assert (Y / Pk <= q <= Y / Pk + 1) as Hq.
  { pose proof (rne_bounds (Y * 2 ^ 1021) (k' + 1021)) as Hb. fold q in Hb.
    rewrite (Z.pow_add_r 2 k' 1021) in Hb by lia.
    rewrite Z.div_mul_cancel_r in Hb by lia. exact Hb. }
  assert (Pk * (Y / Pk) <= Y < Pk * (Y / Pk) + Pk) as Hdiv.
  { pose proof (Z.div_mod Y Pk ltac:(lia)).
    pose proof (Z.mod_pos_bound Y Pk ltac:(lia)). lia. }
  assert (K * Pj <= q < (K + 1) * Pj) as Hbounds.
  { split.
    - assert (K * Pj < Y / Pk + 1); [|lia].
      apply (Z.mul_lt_mono_pos_l Pk); [lia|]. nia.
    - assert (Y / Pk + 1 < (K + 1) * Pj); [|lia].
      apply (Z.mul_lt_mono_pos_l Pk); [lia|].
      replace (Pk * ((K + 1) * Pj)) with ((K + 1) * 2 ^ 53) by (rewrite <- HPP; ring).
      lia. }
  assert (q / Pj = K) as HqK.
  { symmetry. apply (Z.div_unique q Pj K (q - K * Pj)); lia. }
  assert (0 <= K < 2 ^ 31) as HKr by lia.
  assert (1 <= q) as Hq1.
  { assert (1 <= Y / Pk); [|lia]. apply Z.div_le_lower_bound; lia. }
  assert (forall mf ef, 0 < mf -> ef < 0 -> mf / 2 ^ (- ef) = K ->
            double_to_int (S754_finite false (Z.to_pos mf) ef) = Some K) as Hconv.
  { intros mf ef Hmf Hef Hv. unfold double_to_int.
    replace (0 <=? ef) with false by (symmetry; apply Z.leb_gt; lia).
    rewrite Z2Pos.id by lia. rewrite Z.shiftr_div_pow2, Hv by lia.
    cbn [cond_Zopp].
    replace (- 2 ^ 31 <=? K) with true by (symmetry; apply Z.leb_le; lia).
    replace (K <? 2 ^ 31) with true by (symmetry; apply Z.ltb_lt; lia).
    reflexivity. }
  destruct (q =? 2 ^ 53) eqn:Hcarry.
  - apply Z.eqb_eq in Hcarry.
    replace (-1074 + (k' + 1021) + 1 <=? 1024 - 53) with true
      by (symmetry; apply Z.leb_le; lia).
    apply Hconv; [lia|lia|].
    replace (- (-1074 + (k' + 1021) + 1)) with (52 - k') by lia.
    rewrite <- HqK, Hcarry.
    change (2 ^ (53 - 1)) with (2 ^ 52).
    replace (2 ^ 52) with (2 ^ k' * 2 ^ (52 - k'))
      by (rewrite <- Z.pow_add_r by lia; f_equal; lia).
    rewrite Z.div_mul by (apply Z.pow_nonzero; lia).
    rewrite <- HPP. unfold Pk. rewrite Z.div_mul by lia. reflexivity.
  - replace (-1074 + (k' + 1021) <=? 1024 - 53) with true
      by (symmetry; apply Z.leb_le; lia).
    apply Hconv; [lia|lia|].
    replace (- (-1074 + (k' + 1021))) with (53 - k') by lia. exact HqK.
Qed.

(** X17. The training split of [main]: for every sample count that is
    an [int], the product [sample_num * 0.8] taken in [double] and
    truncated to [int] is four fifths of the count, rounded down.  The
    [double] literal is the one nearest to 8/10 and it lies above
    8/10, so the rounding of the product never brings an exact multiple
    below the integer. *)
Theorem training_split_four_fifths (sample_num : Z) :
  0 <= sample_num < 2 ^ 31 ->
  training_data_num sample_num = Some (4 * sample_num / 5) /\
  0 <= 4 * sample_num / 5 <= sample_num /\
  (Qabs (value SPLIT_PERCENTAGE - (4 # 5)) < 1 # (2 ^ 54))%Q /\
  (4 # 5 < value SPLIT_PERCENTAGE)%Q.
Proof.
  intros Hn. split; [|split; [|split]].
  - destruct (Z.eq_dec sample_num 0) as [->|Hnz]; [reflexivity|].
    unfold training_data_num.
    rewrite mul_split_units by lia. apply split_units_to_int. lia.
  - split; [apply Z.div_pos; lia|].
    apply Z.div_le_upper_bound; lia.
  - unfold SPLIT_PERCENTAGE.
    rewrite (value_scaled false 7205759403792794 (-53) 53) by lia.
    vm_compute. reflexivity.
  - unfold SPLIT_PERCENTAGE.
    rewrite (value_scaled false 7205759403792794 (-53) 53) by lia.
    vm_compute. reflexivity.
Qed.

(** 45211 samples give 36168 training samples. *)
Lemma training_split_four_fifths_witness :
  training_data_num 45211 = Some 36168.
Proof.
  assert (0 <= 45211 < 2 ^ 31) as H by lia.
  exact (proj1 (training_split_four_fifths 45211 H)).
Defined.

(** *** Setting up the sockets *)

Section SocketFacts.

Variable to_string : Z -> string.
Variable descriptor : nat -> Z.

Lemma setup_loop (my_client_id port_base : Z) (host_names : list string)
      (n count from : nat) (events : list socket_event) (out : list string) :
  (from + count = n)%nat -> (n <= length host_names)%nat ->
  for_range from count
    (fun i st =>
       let '(sockets, events, out) := st in
       match vec_at host_names i with
       | None => None
       | Some host =>
         let port := port_base + Z.of_nat i in
         let socket := descriptor i in
         Some (firstn i sockets ++ socket :: skipn (S i) sockets,
               events ++ [Connect host port; SendInt socket my_client_id],
               out ++ [set_up_message to_string i socket port])
       end)
    (map descriptor (seq 0 from) ++ repeat 0 count, events, out)
  = Some (map descriptor (seq 0 n),
          events ++ flat_map (fun i => [Connect (nth i host_names EmptyString)
                                                (port_base + Z.of_nat i);
                                        SendInt (descriptor i) my_client_id])
                             (seq from count),
          out ++ map (fun i => set_up_message to_string i (descriptor i)
                                              (port_base + Z.of_nat i))
                     (seq from count)).
Proof.
  revert from events out. induction count as [|c IH]; intros from events out Hn Hh.
  - cbn. rewrite !app_nil_r. now replace from with n by lia.
  - cbn [for_range]. unfold vec_at.
    rewrite (nth_error_nth' host_names EmptyString) by lia.
    assert (firstn from (map descriptor (seq 0 from) ++ repeat 0 (S c))
            = map descriptor (seq 0 from)) as ->.
    { rewrite firstn_app, length_map, length_seq, Nat.sub_diag.
      cbn [firstn]. rewrite app_nil_r. apply firstn_all2.
      rewrite length_map, length_seq. lia. }
    assert (skipn (S from) (map descriptor (seq 0 from) ++ repeat 0 (S c))
            = repeat 0 c) as ->.
    { rewrite skipn_app, length_map, length_seq.
      replace (S from - from)%nat with 1%nat by lia.
      rewrite skipn_all2 by (rewrite length_map, length_seq; lia).
      reflexivity. }
    replace (map descriptor (seq 0 from) ++ descriptor from :: repeat 0 c)
      with (map descriptor (seq 0 (S from)) ++ repeat 0 c)
      by (rewrite seq_S, map_app, <- app_assoc; reflexivity).
    rewrite (IH (S from)) by lia.
    cbn [seq flat_map map app]. now rewrite <- !app_assoc.
Qed.

(** X18. [setup_sockets] connects to the engines [0 .. n_parties - 1]
    in this order, engine [i] at port [port_base + i] of
    [host_names[i]], and sends the client's number on every socket as
    soon as it is connected; it returns the [n_parties] descriptors.
    With more engines than host names it reads [host_names] out of
    range: with the three host names that [main] passes, more than
    three engines are undefined. *)
Theorem setup_sockets_connects
        (n_parties my_client_id port_base : Z) (host_names : list string) :
  (0 <= n_parties <= Z.of_nat (length host_names) ->
   setup_sockets to_string descriptor n_parties my_client_id host_names port_base
   = (flat_map (fun i => [Connect (nth i host_names EmptyString)
                                  (port_base + Z.of_nat i);
                          SendInt (descriptor i) my_client_id])
               (seq 0 (Z.to_nat n_parties)),
      map (fun i => set_up_message to_string i (descriptor i)
                                   (port_base + Z.of_nat i))
          (seq 0 (Z.to_nat n_parties)) ++ [finish_setup_message],
      Returned (map descriptor (seq 0 (Z.to_nat n_parties))))) /\
  (Z.of_nat (length host_names) < n_parties ->
   setup_sockets to_string descriptor n_parties my_client_id host_names port_base
   = ([], [], Undefined)) /\
  (3 < n_parties ->
   setup_sockets to_string descriptor n_parties my_client_id main_host_names
                 port_base
   = ([], [], Undefined)).
Proof.
  assert (forall hosts, Z.of_nat (length hosts) < n_parties ->
            setup_sockets to_string descriptor n_parties my_client_id hosts port_base
            = ([], [], Undefined)) as Hover.
  { intros hosts Hn. unfold setup_sockets.
    replace (n_parties <? 0) with false by (symmetry; apply Z.ltb_ge; lia).
    set (h := length hosts) in *.
    replace (Z.to_nat n_parties) with (h + S (Z.to_nat n_parties - S h))%nat by lia.
    rewrite repeat_app.
    match goal with
    | |- context [for_range 0 ?c ?b ?s] =>
      assert (for_range 0 c b s = None) as ->; [|reflexivity]
    end.
    change (repeat 0 h) with (map descriptor (seq 0 0) ++ repeat 0 h) at 1.
    generalize (Z.to_nat n_parties - S h)%nat. intros k.
    assert (forall count from sockets (events : list socket_event) (out : list string),
              (from + count = h)%nat ->
              for_range from (count + S k)
                (fun i st =>
                   let '(sockets, events, out) := st in
                   match vec_at hosts i with
                   | None => None
                   | Some host =>
                     let port := port_base + Z.of_nat i in
                     let socket := descriptor i in
                     Some (firstn i sockets ++ socket :: skipn (S i) sockets,
                           events ++ [Connect host port; SendInt socket my_client_id],
                           out ++ [set_up_message to_string i socket port])
                   end) (sockets, events, out) = None) as Hloop.
    { induction count as [|c IH]; intros from sockets events out Hc.
      - cbn [Nat.add]. cbn [for_range]. unfold vec_at.
        assert (nth_error hosts from = None) as ->
            by (apply nth_error_None; fold h; lia).
        reflexivity.
      - cbn [Nat.add for_range]. unfold vec_at.
        rewrite (nth_error_nth' hosts EmptyString) by (fold h; lia).
        apply IH. lia. }
    apply (Hloop h 0%nat). lia. }
  split; [|split].
  - intros Hn. unfold setup_sockets.
    replace (n_parties <? 0) with false by (symmetry; apply Z.ltb_ge; lia).
    change (repeat 0 (Z.to_nat n_parties))
      with (map descriptor (seq 0 0) ++ repeat 0 (Z.to_nat n_parties)).
    rewrite (setup_loop my_client_id port_base host_names (Z.to_nat n_parties))
      by lia.
    reflexivity.
  - apply Hover.
  - intros Hn. apply Hover. cbn. lia.
Qed.

End SocketFacts.

(** Two engines on the host names of [main]. *)
Lemma setup_sockets_connects_witness :
  setup_sockets (fun _ => "n"%string) (fun i => Z.of_nat (10 + i)) 2 7
                main_host_names 20000
  = ([Connect "127.0.0.1" 20000; SendInt 10 7;
      Connect "127.0.0.1" 20001; SendInt 11 7],
     map (fun i => set_up_message (fun _ => "n"%string) i (Z.of_nat (10 + i))
                                  (20000 + Z.of_nat i)) (seq 0 2)
         ++ [finish_setup_message],
     Returned [10; 11]).
Proof.
  apply (proj1 (setup_sockets_connects (fun _ => "n"%string)
                  (fun i => Z.of_nat (10 + i)) 2 7 20000 main_host_names)).
  cbn. lia.
Defined.

(** *** The round trip of a share *)

(** Between [-2^55] and [2^55] the encoding is the rounded 256-fold. *)
Lemma fixed_point_encode_in_domain (z : float) :
  F32.valid z = true ->
  F32.leb minus_two_55 z = true -> F32.ltb z two_55 = true ->
  fixed_point_encode z = Some (scaled_round z 8).
Proof.
  intros Vz Hz1 Hz2.
  pose proof (encode_domain_finite z Hz1 Hz2) as Fz.
  rewrite (fixed_point_encode_range z Vz Fz).
  destruct z as [s| | |s m e]; try discriminate Fz; [reflexivity|].
  pose proof (proj1 (encode_domain s m e Vz) (conj Hz1 Hz2)) as [H1 H2].
  apply Z.leb_le in H1. apply Z.ltb_lt in H2. now rewrite H1, H2.
Qed.

(** Elsewhere the conversion to [int64_t] has no result. *)
Lemma fixed_point_encode_outside (z : float) :
  F32.valid z = true ->
  ~ (F32.leb minus_two_55 z = true /\ F32.ltb z two_55 = true) ->
  fixed_point_encode z = None.
Proof.
  intros Vz Hout. destruct z as [s|s| |s m e]; try reflexivity.
  - exfalso. apply Hout. now destruct s.
  - rewrite (encode_domain s m e Vz) in Hout.
    rewrite (fixed_point_encode_range _ Vz eq_refl).
    destruct (- 2 ^ 63 <=? scaled_round (S754_finite s m e) 8) eqn:E1;
      destruct (scaled_round (S754_finite s m e) 8 <? 2 ^ 63) eqn:E2;
      try reflexivity.
    apply Z.leb_le in E1. apply Z.ltb_lt in E2. exfalso. apply Hout. lia.
Qed.

Lemma encode_shares_in_domain (shares : list float) :
  Forall (fun y => F32.valid y = true /\ F32.leb minus_two_55 y = true /\
                   F32.ltb y two_55 = true) shares ->
  encode_shares shares = Some (map (fun y => scaled_round y 8) shares).
Proof.
  induction 1 as [|y shares (Hv & Hlo & Hhi) _ IH]; [reflexivity|].
  cbn [encode_shares map].
  now rewrite (fixed_point_encode_in_domain y Hv Hlo Hhi), IH.
Qed.

(** C6 (amended). The encoding [static_cast<int64_t>(round(y * 2^8))]
    has a result exactly for the shares [y] from [-2^55] up to, and not
    including, [2^55] (so for no NaN and no infinity; [F32.valid] holds
    of every datum of the format).  When every share is in this range,
    [send_private_batch_shares] hands to [send_private_inputs] the field
    elements of the integers [round(y * 2^8)], each within one half of
    [256 * y]; with a share outside the range the call is undefined.
    For a finite [x] with [|x| < 2^8], over a field of more than [2^17]
    elements, the decoding of the element sent stands for that integer
    over 256 and differs from [x] by at most [2^-8].  The float 3.5 is
    sent as 896 and decoded as 3.5. *)
Theorem fixed_point_round_trip
        (p : Z) (shares : list float) (sockets : list Z) (inc : incoming)
        (n_parties : nat) (log : send_log) (x : float) :
  2 ^ 17 < p ->
  Forall (fun y => F32.valid y = true /\ F32.leb minus_two_55 y = true /\
                   F32.ltb y two_55 = true) shares ->
  F32.valid x = true -> is_finite x = true -> (Qabs (value x) < 256)%Q ->
  Wire.send_private_batch_shares p shares sockets inc n_parties log
  = Wire.send_private_inputs
      p (map (fun y => Gfp.assign p (scaled_round y 8)) shares)
      sockets inc n_parties log /\
  (forall y, In y shares ->
     (Qabs (inject_Z (scaled_round y 8) - 256 * value y) <= 1 # 2)%Q) /\
  (forall y others,
     F32.valid y = true ->
     ~ (F32.leb minus_two_55 y = true /\ F32.ltb y two_55 = true) ->
     In y others ->
     Wire.send_private_batch_shares p others sockets inc n_parties log
     = (log, Undefined)) /\
  fixed_point_encode x = Some (scaled_round x 8) /\
  (value (decode_share p (Gfp.assign p (scaled_round x 8)))
   == scaled_round x 8 # 256)%Q /\
  (Qabs (value (decode_share p (Gfp.assign p (scaled_round x 8))) - value x)
   <= 1 # 256)%Q /\
  fixed_point_encode three_and_a_half = Some 896 /\
  decode_share p (Gfp.assign p 896) = three_and_a_half.
Proof.
  intros Hp Hshares Hv Hf Hlt.
  pose proof (scaled_round_small x Hv Hf Hlt) as Hsmall.
  assert ((value (decode_share p (Gfp.assign p (scaled_round x 8)))
           == scaled_round x 8 # 256)%Q) as Hval.
  { rewrite decode_share_assign by assumption.
    apply fixed_point_decode_value. lia. }
  split; [|split; [|split; [|split; [|split; [|split; [|split]]]]]].
  - unfold Wire.send_private_batch_shares.
    now rewrite (encode_shares_in_domain shares Hshares), map_map.
  - intros y Hy. rewrite Forall_forall in Hshares.
    destruct (Hshares y Hy) as (Hvy & Hlo & Hhi).
    apply scaled_round_error; [exact Hvy|].
    now apply encode_domain_finite.
  - intros y others Hvy Hout Hin. unfold Wire.send_private_batch_shares.
    now rewrite (encode_shares_none others y Hin
                   (fixed_point_encode_outside y Hvy Hout)).
  - apply fixed_point_encode_finite; auto. lia.
  - exact Hval.
  - rewrite Hval. pose proof (scaled_round_error x Hv Hf) as Herr.
    destruct x as [s| | |s m e]; try discriminate Hf.
    + vm_compute. discriminate.
    + pose proof (valid32_inv s m e Hv) as (_ & He & _).
      rewrite (value_over_2_149 s m e) in * by lia.
      unfold scaled_round in *.
      set (r := round_half_up (Z.pos m) (e + 8)) in *.
      set (V := Z.pos m * 2 ^ (e + 149)) in *.
      set (D := Z.to_pos (2 ^ 149)) in *.
      unfold Qle, Qabs, Qminus, Qplus, Qopp, Qmult, inject_Z in *.
      cbn [Qnum Qden] in *. rewrite !Pos.mul_1_l in Herr.
      rewrite Pos2Z.inj_mul.
      replace (cond_Zopp s r * Z.pos D + - (256 * cond_Zopp s V) * 1)
        with (cond_Zopp s (r * Z.pos D - 256 * V)) in Herr
        by (destruct s; cbn [cond_Zopp]; ring).
      replace (cond_Zopp s r * Z.pos D + - cond_Zopp s V * 256)
        with (cond_Zopp s (r * Z.pos D - 256 * V))
        by (destruct s; cbn [cond_Zopp]; ring).
      rewrite cond_Zopp_abs in *. lia.
  - vm_compute. reflexivity.
  - rewrite decode_share_assign by (assumption || (cbn; lia)).
    vm_compute. reflexivity.
Qed.

(** A field of 2^61 - 1 elements, one engine and the shares 3.5 and
    [-2^55], the least share that is encoded. *)
Lemma fixed_point_round_trip_witness :
  Wire.send_private_batch_shares 2305843009213693951
    [three_and_a_half; minus_two_55] [3] [[1; 2; 2; 0; 0; 0]] 1 []
  = Wire.send_private_inputs 2305843009213693951
      [Gfp.assign 2305843009213693951 896;
       Gfp.assign 2305843009213693951 (- 2 ^ 63)]
      [3] [[1; 2; 2; 0; 0; 0]] 1 [] /\
  fixed_point_encode three_and_a_half = Some (scaled_round three_and_a_half 8) /\
  (Qabs (value (decode_share 2305843009213693951
                  (Gfp.assign 2305843009213693951
                              (scaled_round three_and_a_half 8)))
         - value three_and_a_half) <= 1 # 256)%Q.
Proof.
  assert (Forall (fun y => F32.valid y = true /\
                           F32.leb minus_two_55 y = true /\
                           F32.ltb y two_55 = true)
                 [three_and_a_half; minus_two_55]) as Hs.
  { constructor; [|constructor; [|constructor]]; repeat split; reflexivity. }
  assert (2 ^ 17 < 2305843009213693951) as Hp by reflexivity.
  assert ((Qabs (value three_and_a_half) < 256)%Q) as Hx
      by (vm_compute; reflexivity).
  destruct (fixed_point_round_trip 2305843009213693951
              [three_and_a_half; minus_two_55] [3] [[1; 2; 2; 0; 0; 0]] 1 []
              three_and_a_half Hp Hs eq_refl eq_refl Hx)
    as (Hd & _ & _ & He & _ & Hb & _).
  split; [exact Hd|]. split; [exact He|exact Hb].
Defined.

(** The claim as stated fails on the float [2^55]: its 256-fold rounds
    to the integer [2^63], which is no [int64_t], so that the call is
    undefined, whereas [send_private_inputs] with the field element of
    that integer sends a buffer and returns.  A NaN and an infinity are
    not encoded either. *)
Lemma send_private_batch_shares_range_counterexample :
  F32.valid two_55 = true /\
  scaled_round two_55 8 = 2 ^ 63 /\
  fixed_point_encode two_55 = None /\
  Wire.send_private_batch_shares 2305843009213693951 [two_55] [3] [[0; 0; 0]] 1 []
  = ([], Undefined) /\
  Wire.send_private_inputs 2305843009213693951
    [Gfp.assign 2305843009213693951 (scaled_round two_55 8)] [3] [[0; 0; 0]] 1 []
  = ([(0%nat, [4])], Returned tt) /\
  fixed_point_encode S754_nan = None /\
  fixed_point_encode (S754_infinity false) = None.
Proof.
  repeat split; vm_compute; reflexivity.
Qed.
